(** * The translations store of linguist: [requests/backend/translations/data.ts]

    A shallow embedding of the module's operations ([addEntry], [deleteEntry],
    [getEntry], [deleteEntries], [flush], [getEntries], [isEqualIntersection],
    [findEntry]) over a model of the JavaScript values they handle and of the
    IndexedDB object store they run on, followed by the properties of the
    store's specification. *)

From Stdlib Require Import List ZArith Lia Bool Ascii String Sorted.
From Stdlib Require Import DecimalString DecimalNat DecimalFacts.
Import ListNotations.

Local Open Scope string_scope.
Local Open Scope Z_scope.

(** ** JavaScript values *)

Module JS.

(** Numbers.  The module never computes with numbers: it compares them with
    [===], hands them to lodash's [isEqual] and uses them as keys and
    counters.  The model keeps the integer-valued numbers and [NaN], the one
    number that is not [===] to itself. *)
Inductive number : Type :=
| NaN
| Fin (z : Z).

(** The values the store can hold and the operations can be given: the
    primitives, arrays without holes, and plain objects.  A string is a
    sequence of 8-bit code units.  An object is the list of its own
    enumerable string-keyed properties in the order [Object.keys] lists
    them; in an object a property name occurs once ([Shape.wf_object]). *)
#[local] Unset Elimination Schemes.
Inductive value : Type :=
| JUndefined
| JNull
| JBool (b : bool)
| JNum (n : number)
| JStr (s : string)
| JArr (elems : list value)
| JObj (fields : list (string * value)).
#[local] Set Elimination Schemes.

(** Induction over a value, with the hypothesis available for every element
    of an array and every property value of an object. *)
Definition value_ind (P : value -> Prop)
  (Hundef : P JUndefined) (Hnull : P JNull)
  (Hbool : forall b, P (JBool b)) (Hnum : forall n, P (JNum n))
  (Hstr : forall s, P (JStr s))
  (Harr : forall l, Forall P l -> P (JArr l))
  (Hobj : forall f, Forall (fun kv => P (snd kv)) f -> P (JObj f))
  : forall v, P v :=
  fix go (v : value) : P v :=
    match v with
    | JUndefined => Hundef
    | JNull => Hnull
    | JBool b => Hbool b
    | JNum n => Hnum n
    | JStr s => Hstr s
    | JArr l =>
        Harr l ((fix all (l : list value) : Forall P l :=
                   match l with
                   | [] => Forall_nil P
                   | x :: r => Forall_cons x (go x) (all r)
                   end) l)
    | JObj f =>
        Hobj f ((fix all (f : list (string * value))
                   : Forall (fun kv => P (snd kv)) f :=
                   match f with
                   | [] => Forall_nil _
                   | kv :: r => Forall_cons kv (go (snd kv)) (all r)
                   end) f)
    end.

(** What a JavaScript call can raise here. *)
Inductive exn : Type :=
| TypeError
| DataError
| ConstraintError
| AbortError
| Error (message : string).

(** The outcome of evaluating an expression or awaiting a promise: a
    value, an exception, or [Unknown] where the outcome depends on the
    members of a built-in function object (its [name], its [length], the
    members of [Function.prototype]), which the model does not describe.
    No property below asserts an outcome of the code where the model answers
    [Unknown]. *)
Inductive completion (A : Type) : Type :=
| Return (a : A)
| Throw (e : exn)
| Unknown.

Arguments Return {A} a.
Arguments Throw {A} e.
Arguments Unknown {A}.

Definition bind {A B : Type} (c : completion A) (k : A -> completion B)
  : completion B :=
  match c with
  | Return a => k a
  | Throw e => Throw e
  | Unknown => Unknown
  end.

Declare Scope js_scope.
Delimit Scope js_scope with js.
Notation "x <- c ;; k" := (bind c (fun x => k))
  (at level 61, c at next level, right associativity) : js_scope.
Local Open Scope js_scope.

(** [Array.prototype.every] with a callback that may throw: stops at the
    first element whose callback returns [false] or throws. *)
Fixpoint every {A : Type} (f : A -> completion bool) (l : list A)
  : completion bool :=
  match l with
  | [] => Return true
  | x :: rest =>
      b <- f x ;;
      if b then every f rest else Return false
  end.

(** *** Numbers and strings *)

(** [a === b] on numbers. *)
Definition num_eqb (a b : number) : bool :=
  match a, b with
  | Fin x, Fin y => Z.eqb x y
  | _, _ => false
  end.

(** SameValueZero on numbers, the comparison lodash's [eq] makes:
    [a === b || (a !== a && b !== b)]. *)
Definition num_same (a b : number) : bool :=
  match a, b with
  | NaN, NaN => true
  | _, _ => num_eqb a b
  end.

(** The canonical decimal spelling of an array index, as a property name. *)
Definition index_name (i : nat) : string :=
  NilEmpty.string_of_uint (Nat.to_uint i).

(** The array index a property name spells, if it is the canonical spelling
    of one. *)
Definition name_index (key : string) : option nat :=
  match NilEmpty.uint_of_string key with
  | Some d =>
      let i := Nat.of_uint d in
      if String.eqb (index_name i) key then Some i else None
  | None => None
  end.

Definition char_at (s : string) (i : nat) : option ascii := String.get i s.

Definition str1 (c : ascii) : string := String c EmptyString.

(** *** What a property access finds

    Reading a property of a value finds a value of the kind above, or, under
    a name the value does not own, a member of its prototype chain: a
    built-in function, or (under [__proto__]) a prototype object.  The
    prototypes are those of the standard library as of ECMAScript 2025 with
    its Annex B, unmodified. *)
Inductive class : Type :=
| ObjectClass
| ArrayClass
| StringClass
| NumberClass
| BooleanClass.

Inductive found : Type :=
| Data (v : value)
| HostFunction
| HostPrototype (c : class).

Coercion Data : value >-> found.

(** The function-valued members of [Object.prototype]. *)
Definition object_methods : list string :=
  ["constructor"; "__defineGetter__"; "__defineSetter__"; "hasOwnProperty";
   "__lookupGetter__"; "__lookupSetter__"; "isPrototypeOf";
   "propertyIsEnumerable"; "toString"; "valueOf"; "toLocaleString"].

(** The function-valued members a value of the class finds on its prototype
    chain: those of the class's prototype and those of [Object.prototype]. *)
Definition methods (c : class) : list string :=
  match c with
  | ObjectClass => []
  | ArrayClass =>
      ["at"; "concat"; "copyWithin"; "entries"; "every"; "fill"; "filter";
       "find"; "findIndex"; "findLast"; "findLastIndex"; "flat"; "flatMap";
       "forEach"; "includes"; "indexOf"; "join"; "keys"; "lastIndexOf";
       "map"; "pop"; "push"; "reduce"; "reduceRight"; "reverse"; "shift";
       "slice"; "some"; "sort"; "splice"; "toReversed"; "toSorted";
       "toSpliced"; "unshift"; "values"; "with"]
  | StringClass =>
      ["at"; "charAt"; "charCodeAt"; "codePointAt"; "concat"; "endsWith";
       "includes"; "indexOf"; "isWellFormed"; "lastIndexOf"; "localeCompare";
       "match"; "matchAll"; "normalize"; "padEnd"; "padStart"; "repeat";
       "replace"; "replaceAll"; "search"; "slice"; "split"; "startsWith";
       "substring"; "toLocaleLowerCase"; "toLocaleUpperCase"; "toLowerCase";
       "toUpperCase"; "toWellFormed"; "trim"; "trimEnd"; "trimStart";
       "substr"; "anchor"; "big"; "blink"; "bold"; "fixed"; "fontcolor";
       "fontsize"; "italics"; "link"; "small"; "strike"; "sub"; "sup";
       "trimLeft"; "trimRight"]
  | NumberClass => ["toExponential"; "toFixed"; "toPrecision"]
  | BooleanClass => []
  end ++ object_methods.

(** What the prototype chain of class [c] holds under [key], for a receiver
    whose prototype is [proto]: [__proto__] answers the receiver's
    prototype, the name of a method a function; the prototype objects of
    strings and arrays own a [length], which is [0]. *)
Definition inherited (c : class) (proto : found) (key : string) : found :=
  if String.eqb key "__proto__" then proto
  else if existsb (String.eqb key) (methods c) then HostFunction
  else if String.eqb key "length" then
    match c with
    | StringClass | ArrayClass => Data (JNum (Fin 0))
    | _ => Data JUndefined
    end
  else Data JUndefined.

(** *** typeof, Array.isArray, property access, Object.keys *)

(** [typeof v === 'object'] *)
Definition typeof_object (v : found) : bool :=
  match v with
  | Data (JNull | JArr _ | JObj _) => true
  | HostPrototype _ => true
  | _ => false
  end.

(** [Array.isArray(v)]; [Array.prototype] is an array. *)
Definition isArray (v : found) : bool :=
  match v with
  | Data (JArr _) => true
  | HostPrototype ArrayClass => true
  | _ => false
  end.

(** Own property lookup in an object's property list. *)
Fixpoint own (fields : list (string * value)) (key : string) : option value :=
  match fields with
  | [] => None
  | (k, v) :: rest => if String.eqb k key then Some v else own rest key
  end.

(** [obj[key]] on a plain object with the given property list: its own
    property, or else what [Object.prototype] holds. *)
Definition member (fields : list (string * value)) (key : string) : found :=
  match own fields key with
  | Some x => Data x
  | None => inherited ObjectClass (HostPrototype ObjectClass) key
  end.

(** [v[key]]: throws on [undefined] and [null]; a string answers for its
    indices and [length], an array likewise; every value but these two
    answers for the members of its prototype chain. *)
Definition get (v : found) (key : string) : completion found :=
  match v with
  | Data (JUndefined | JNull) => Throw TypeError
  | Data (JBool _) =>
      Return (inherited BooleanClass (HostPrototype BooleanClass) key)
  | Data (JNum _) =>
      Return (inherited NumberClass (HostPrototype NumberClass) key)
  | Data (JStr s) =>
      match name_index key with
      | Some i =>
          match char_at s i with
          | Some c => Return (Data (JStr (str1 c)))
          | None => Return (Data JUndefined)
          end
      | None =>
          if String.eqb key "length"
          then Return (Data (JNum (Fin (Z.of_nat (String.length s)))))
          else Return (inherited StringClass (HostPrototype StringClass) key)
      end
  | Data (JArr l) =>
      match name_index key with
      | Some i => Return (Data (nth i l JUndefined))
      | None =>
          if String.eqb key "length"
          then Return (Data (JNum (Fin (Z.of_nat (List.length l)))))
          else Return (inherited ArrayClass (HostPrototype ArrayClass) key)
      end
  | Data (JObj fields) => Return (member fields key)
  | HostPrototype c =>
      Return (inherited c
                match c with
                | ObjectClass => Data JNull
                | _ => HostPrototype ObjectClass
                end key)
  | HostFunction => Unknown
  end.

(** [v?.key]: [undefined] when [v] is [undefined] or [null]. *)
Definition get_opt (v : found) (key : string) : completion found :=
  match v with
  | Data (JUndefined | JNull) => Return (Data JUndefined)
  | _ => get v key
  end.

(** [Object.keys(v)]: throws on [undefined] and [null]. *)
Definition keys (v : value) : completion (list string) :=
  match v with
  | JUndefined | JNull => Throw TypeError
  | JBool _ | JNum _ => Return []
  | JStr s => Return (map index_name (seq 0 (String.length s)))
  | JArr l => Return (map index_name (seq 0 (List.length l)))
  | JObj fields => Return (map fst fields)
  end.

(** *** Equalities *)

(** [a === b] between a value [a] and something found that does not share
    an object with it: primitives compare by value, and an object or an
    array is identical only to itself, hence to nothing that was built or
    deserialised separately, nor to a built-in.  This is the situation at
    both uses in the module: the matcher applies [===] to operands that are
    not of type ['object'], and [deleteEntries] compares a member of its
    argument with a member of a record the store has just deserialised. *)
Definition strict_equals (a : value) (b : found) : bool :=
  match a, b with
  | JUndefined, Data JUndefined => true
  | JNull, Data JNull => true
  | JBool x, Data (JBool y) => Bool.eqb x y
  | JNum x, Data (JNum y) => num_eqb x y
  | JStr x, Data (JStr y) => String.eqb x y
  | _, _ => false
  end.

(** [a === b] between two things found.  Whether two built-in functions are
    the same function is not known. *)
Definition identical (a b : found) : completion bool :=
  match a, b with
  | Data x, _ => Return (strict_equals x b)
  | HostFunction, HostFunction => Unknown
  | HostPrototype c, HostPrototype c' =>
      Return match c, c' with
             | ObjectClass, ObjectClass
             | ArrayClass, ArrayClass
             | StringClass, StringClass
             | NumberClass, NumberClass
             | BooleanClass, BooleanClass => true
             | _, _ => false
             end
  | _, _ => Return false
  end.

(** lodash's [isEqual] on these values: deep equality, arrays element by
    element in order, objects by the same set of own keys with equal values,
    primitives by SameValueZero. *)
Fixpoint isEqual (a b : value) {struct a} : bool :=
  match a, b with
  | JUndefined, JUndefined => true
  | JNull, JNull => true
  | JBool x, JBool y => Bool.eqb x y
  | JNum x, JNum y => num_same x y
  | JStr x, JStr y => String.eqb x y
  | JArr l, JArr m =>
      (fix elems (l m : list value) {struct l} : bool :=
         match l, m with
         | [], [] => true
         | x :: l', y :: m' => isEqual x y && elems l' m'
         | _, _ => false
         end) l m
  | JObj f, JObj g =>
      Nat.eqb (List.length f) (List.length g) &&
      (fix props (f : list (string * value)) {struct f} : bool :=
         match f with
         | [] => true
         | (k, x) :: f' =>
             match own g k with
             | Some y => isEqual x y && props f'
             | None => false
             end
         end) f
  | _, _ => false
  end.

End JS.

(** ** The matcher of [data.ts] *)

Module Matcher.
Import JS.
Local Open Scope js_scope.

(** The array that [isEqual] is given as second argument: the array found,
    or [Array.prototype], an array without elements. *)
Definition as_array (v : found) : value :=
  match v with
  | Data x => x
  | _ => JArr []
  end.

(** [isEqualIntersection(c, w)] for a one-character string [c]: the shape
    the recursion of [isEqualIntersection] takes below a string criterion,
    where [Object.keys] lists the single index [0] and the callback compares
    [c[0]], which is [c] again, with [w[0]]. *)
Fixpoint match_value (c : ascii) (w : value) {struct w} : completion bool :=
  match w with
  | JNull => Throw TypeError
  | JArr _ => Return false
  | JObj g =>
      (fix at0 (g : list (string * value)) : completion bool :=
         match g with
         | [] => Return (strict_equals (JStr (str1 c)) JUndefined)
         | (k, x) :: g' =>
             if String.eqb k (index_name 0) then match_value c x else at0 g'
         end) g
  | _ => Return (strict_equals (JStr (str1 c)) w)
  end.

(** The same against anything found: a built-in function is not [===] to
    the character, and a prototype object holds nothing under [0]. *)
Definition match_char (c : ascii) (w : found) : completion bool :=
  match w with
  | Data v => match_value c v
  | HostFunction | HostPrototype _ => Return false
  end.

(** The [every] of [isEqualIntersection] over the indices [i], [i+1], ... of
    a string criterion whose remaining characters are [s]. *)
Fixpoint match_chars (s : string) (i : nat) (obj2 : found)
  : completion bool :=
  match s with
  | EmptyString => Return true
  | String c rest =>
      w <- get obj2 (index_name i) ;;
      b <- match_char c w ;;
      if b then match_chars rest (S i) obj2 else Return false
  end.

(** [[
const isEqualIntersection = (obj1: any, obj2: any): boolean => {
	// Compare primitive values
	if (typeof obj1 !== 'object' && typeof obj2 !== 'object') {
		return obj1 === obj2;
	}
	const xIsArray = Array.isArray(obj1);
	const yIsArray = Array.isArray(obj2);
	// Compare arrays
	if (xIsArray && yIsArray) {
		return isEqual(obj1, obj2);
	} else if (xIsArray || yIsArray) {
		return false;
	}
	// Compare objects
	return Object.keys(obj1).every((key) => isEqualIntersection(obj1[key], obj2[key]));
};
]]
    [obj1] is the criteria or a member of it, a value; [obj2] is a stored
    entry or whatever was found in it under the names of the criteria.  The
    recursion is on [obj1]; below a string it continues through
    [match_chars].  [isEqualIntersection_unfold] shows that the function
    satisfies the equation of the source. *)
Fixpoint isEqualIntersection (obj1 : value) (obj2 : found) {struct obj1}
  : completion bool :=
  if negb (typeof_object obj1) && negb (typeof_object obj2) then
    Return (strict_equals obj1 obj2)
  else if isArray obj1 && isArray obj2 then
    Return (isEqual obj1 (as_array obj2))
  else if isArray obj1 || isArray obj2 then
    Return false
  else
    match obj1 with
    | JUndefined | JNull => Throw TypeError
    | JBool _ | JNum _ => Return true
    | JArr _ => Return false (* not reached: an array took a branch above *)
    | JStr s => match_chars s 0 obj2
    | JObj f =>
        (fix props (f : list (string * value)) : completion bool :=
           match f with
           | [] => Return true
           | (key, x) :: f' =>
               y <- get obj2 key ;;
               b <- isEqualIntersection x y ;;
               if b then props f' else Return false
           end) f
    end.

(** The body of the source, with the recursive call as a parameter. *)
Definition isEqualIntersection_body
  (self : found -> found -> completion bool) (obj1 : value) (obj2 : found)
  : completion bool :=
  if negb (typeof_object obj1) && negb (typeof_object obj2) then
    Return (strict_equals obj1 obj2)
  else
    let xIsArray := isArray obj1 in
    let yIsArray := isArray obj2 in
    if xIsArray && yIsArray then Return (isEqual obj1 (as_array obj2))
    else if xIsArray || yIsArray then Return false
    else
      ks <- keys obj1 ;;
      every (fun key => x <- get obj1 key ;; y <- get obj2 key ;; self x y) ks.

(** The matcher as the recursive call of the body sees it: the first
    argument is what [obj1[key]] found, which for a key of [obj1] is a
    value. *)
Definition isEqualIntersection_self (x y : found) : completion bool :=
  match x with
  | Data v => isEqualIntersection v y
  | _ => Unknown
  end.

End Matcher.

(** ** The IndexedDB object store *)

Module IDB.
Import JS.
Local Open Scope js_scope.

(** Keys: numbers, strings and arrays of keys (dates and binary keys have no
    counterpart among the modelled values). *)
#[local] Unset Elimination Schemes.
Inductive key : Type :=
| KNum (z : Z)
| KStr (s : string)
| KArr (ks : list key).
#[local] Set Elimination Schemes.

(** Induction over a key, with the hypothesis available for every element
    of an array key. *)
Definition key_ind (P : key -> Prop)
  (Hnum : forall z, P (KNum z)) (Hstr : forall s, P (KStr s))
  (Harr : forall ks, Forall P ks -> P (KArr ks))
  : forall k, P k :=
  fix go (k : key) : P k :=
    match k with
    | KNum z => Hnum z
    | KStr s => Hstr s
    | KArr ks =>
        Harr ks ((fix all (ks : list key) : Forall P ks :=
                    match ks with
                    | [] => Forall_nil P
                    | x :: r => Forall_cons x (go x) (all r)
                    end) ks)
    end.

(** The order of keys: a number is less than a string, a string less than an
    array; numbers by value, strings by code unit, arrays element by
    element and then by length. *)
Fixpoint compare (a b : key) {struct a} : comparison :=
  match a, b with
  | KNum x, KNum y => Z.compare x y
  | KNum _, _ => Lt
  | KStr _, KNum _ => Gt
  | KStr x, KStr y => String.compare x y
  | KStr _, KArr _ => Lt
  | KArr l, KArr m =>
      (fix lex (l m : list key) {struct l} : comparison :=
         match l, m with
         | [], [] => Eq
         | [], _ :: _ => Lt
         | _ :: _, [] => Gt
         | x :: l', y :: m' =>
             match compare x y with
             | Eq => lex l' m'
             | c => c
             end
         end) l m
  | KArr _, _ => Gt
  end.

Definition eqb (a b : key) : bool :=
  match compare a b with
  | Eq => true
  | _ => false
  end.

Definition lt (a b : key) : Prop := compare a b = Lt.

(** Convert a value to a key: [None] when the value is not a valid key. *)
Fixpoint to_key (v : value) : option key :=
  match v with
  | JNum (Fin z) => Some (KNum z)
  | JStr s => Some (KStr s)
  | JArr l =>
      option_map KArr
        ((fix all (l : list value) : option (list key) :=
            match l with
            | [] => Some []
            | x :: l' =>
                match to_key x, all l' with
                | Some k, Some ks => Some (k :: ks)
                | _, _ => None
                end
            end) l)
  | _ => None
  end.

(** The same for whatever a property access found: no built-in is a valid
    key but [Array.prototype], an array without elements. *)
Definition valid_key (q : found) : option key :=
  match q with
  | Data v => to_key v
  | HostPrototype ArrayClass => Some (KArr [])
  | _ => None
  end.

(** The value of a key, as a cursor's [primaryKey] or the result of [add]
    presents it. *)
Fixpoint of_key (k : key) : value :=
  match k with
  | KNum z => JNum (Fin z)
  | KStr s => JStr s
  | KArr ks => JArr (map of_key ks)
  end.

(** One step of evaluating a key path on a value: the named own property,
    [None] when the value has none or holds [undefined] there. *)
Definition path_step (v : value) (identifier : string) : option value :=
  match v with
  | JStr s =>
      if String.eqb identifier "length"
      then Some (JNum (Fin (Z.of_nat (String.length s)))) else None
  | JArr l =>
      if String.eqb identifier "length"
      then Some (JNum (Fin (Z.of_nat (List.length l)))) else None
  | JObj f =>
      match own f identifier with
      | Some JUndefined => None
      | r => r
      end
  | _ => None
  end.

Fixpoint eval_path (path : list string) (v : value) : option value :=
  match path with
  | [] => Some v
  | identifier :: rest =>
      match path_step v identifier with
      | Some x => eval_path rest x
      | None => None
      end
  end.

(** Extract a key from a value using a key path. *)
Inductive extracted : Type :=
| Failure
| Invalid
| Key (k : key).

Definition extract (path : list string) (v : value) : extracted :=
  match eval_path path v with
  | None => Failure
  | Some x =>
      match to_key x with
      | Some k => Key k
      | None => Invalid
      end
  end.

(** The object store [translations]: its records in ascending key order and
    the current number of its key generator. *)
Record store : Type := {
  records : list (key * value);
  generator : Z;
}.

(** The key generator runs out once its current number has passed
    [2 ^ 53]. *)
Definition generator_limit : Z := 9007199254740992.

(** Generate a key: the current number, unless the generator ran out. *)
Definition generate (db : store) : option Z :=
  if generator_limit <? generator db then None else Some (generator db).

(** The current number of the generator after a record was stored under
    the key [k] given with the value: it moves past a number key, up to the
    limit. *)
Definition update_generator (k : key) (current : Z) : Z :=
  match k with
  | KNum z =>
      let z := Z.min z generator_limit in
      if current <=? z then z + 1 else current
  | _ => current
  end.

Definition empty : store := {| records := []; generator := 1 |}.

Definition store_keys (db : store) : list key := map fst (records db).

(** Retrieve the value of the record with key [k]. *)
Fixpoint lookup (k : key) (recs : list (key * value)) : option value :=
  match recs with
  | [] => None
  | (k', v) :: rest => if eqb k' k then Some v else lookup k rest
  end.

(** Delete the records with key [k]. *)
Definition remove (k : key) (recs : list (key * value)) : list (key * value) :=
  filter (fun r => negb (eqb (fst r) k)) recs.

(** Place a record at its position in key order. *)
Fixpoint place (k : key) (v : value) (recs : list (key * value))
  : list (key * value) :=
  match recs with
  | [] => [(k, v)]
  | (k', v') :: rest =>
      match compare k k' with
      | Gt => (k', v') :: place k v rest
      | _ => (k, v) :: (k', v') :: rest
      end
  end.

(** The invariant of a store all of whose keys came from the key generator:
    number keys in strictly ascending order, all below the generator's
    current number. *)
Fixpoint ascending_below (bound : Z) (ks : list key) : Prop :=
  match ks with
  | [] => True
  | KNum z :: rest =>
      z < bound /\
      match rest with
      | KNum z' :: _ => z < z'
      | _ => True
      end /\ ascending_below bound rest
  | _ :: _ => False
  end.

Definition store_ok (db : store) : Prop :=
  0 < generator db /\ ascending_below (generator db) (store_keys db).

(** The index [originalText] over the key path [translation.originalText],
    not unique.  It is a projection of the records: a record is in the index
    when the key path yields a valid key on its value. *)
Definition index_path : list string := ["translation"; "originalText"].

Definition index_key (v : value) : option key :=
  match extract index_path v with
  | Key k => Some k
  | _ => None
  end.

Definition has_index_key (q : key) (r : key * value) : bool :=
  match index_key (snd r) with
  | Some k => eqb k q
  | None => false
  end.

Definition indexed (r : key * value) : bool :=
  match index_key (snd r) with
  | Some _ => true
  | None => false
  end.

(** Index order: by index key, and by primary key among equal index keys.
    [by_index_key] sorts records that are in primary key order. *)
Fixpoint place_by_index (r : key * value) (sorted : list (key * value))
  : list (key * value) :=
  match sorted with
  | [] => [r]
  | r' :: rest =>
      match index_key (snd r), index_key (snd r') with
      | Some k, Some k' =>
          match compare k k' with
          | Lt => r :: r' :: rest
          | _ => r' :: place_by_index r rest
          end
      | _, _ => r :: r' :: rest
      end
  end.

Definition by_index_key (recs : list (key * value)) : list (key * value) :=
  fold_left (fun sorted r => place_by_index r sorted) recs [].

(** The records a cursor opened on the index with [query] passes over, in
    order: all of the index for [undefined] or [null], the records whose
    index key equals the query when it is a valid key; any other query is
    refused with a [DataError]. *)
Definition index_cursor (query : found) (db : store)
  : completion (list (key * value)) :=
  match query with
  | Data (JUndefined | JNull) =>
      Return (by_index_key (filter indexed (records db)))
  | _ =>
      match valid_key query with
      | Some q => Return (filter (has_index_key q) (records db))
      | None => Throw DataError
      end
  end.

(** *** Transactions

    A transaction works on the store and commits when it completes.  The
    engine may fail any request: [engine i] tells whether the [i]-th request
    of the transaction succeeds.  A failed request rejects with
    [AbortError] and aborts the transaction, which discards what the
    transaction wrote.  An exception raised by the script itself does not
    abort the transaction: what was written before it is committed. *)
Definition engine : Type := nat -> bool.

Definition reliable : engine := fun _ => true.

Record txstate : Type := {
  now : store;
  issued : nat;
  aborted : bool;
}.

Definition tx (A : Type) : Type := engine -> txstate -> completion A * txstate.

Definition tx_ret {A : Type} (a : A) : tx A :=
  fun _ st => (Return a, st).

Definition tx_bind {A B : Type} (m : tx A) (k : A -> tx B) : tx B :=
  fun eng st =>
    match m eng st with
    | (Return a, st') => k a eng st'
    | (Throw e, st') => (Throw e, st')
    | (Unknown, st') => (Unknown, st')
    end.

(** A step of the script, which may throw but issues no request. *)
Definition script {A : Type} (c : completion A) : tx A :=
  fun _ st => (c, st).

(** A request that applies [f] to the store. *)
Definition request (f : store -> store) : tx unit :=
  fun eng st =>
    if eng (issued st)
    then (Return tt,
          {| now := f (now st); issued := S (issued st); aborted := aborted st |})
    else (Throw AbortError,
          {| now := now st; issued := S (issued st); aborted := true |}).

(** [db.transaction(...)] up to the settling of [transaction.done]. *)
Definition transaction {A : Type} (body : tx A) (eng : engine) (db : store)
  : completion A * store :=
  match body eng {| now := db; issued := 0; aborted := false |} with
  | (r, st) =>
      if aborted st then (r, db)
      else if eng (issued st) then (r, now st)
      else (match r with
            | Return _ => Throw AbortError
            | Throw e => Throw e
            | Unknown => Unknown
            end, db)
  end.

End IDB.

(** ** The operations of [data.ts]

    Every operation opens the store through [getDB] and runs in a
    transaction of its own.  [deleteEntries], which makes several writes in
    its transaction, is given on an engine that may fail requests
    ([deleteEntries_on]); the other operations are given on an engine that
    fails none.  [findEntry], which can raise before it looks anything up,
    is given together with the calls it makes to the database, [getDB()] and
    [db.transaction()] included. *)

Module Data.
Import JS IDB Matcher.
Local Open Scope js_scope.

Declare Scope tx_scope.
Delimit Scope tx_scope with tx.
Notation "x <~ m ;; k" := (tx_bind m (fun x => k))
  (at level 61, m at next level, right associativity) : tx_scope.

(** [ITranslationEntryWithKey] *)
Record ITranslationEntryWithKey : Type := {
  key : IDB.key;
  data : value;
}.

Definition with_key (r : IDB.key * value) : ITranslationEntryWithKey :=
  {| key := fst r; data := snd r |}.

(** The store is created with [keyPath: 'id'] and [autoIncrement: true]. *)
Definition keyPath : list string := ["id"].

(** [clone.id = k] on the property list of the stored clone. *)
Fixpoint set_id (k : IDB.key) (fields : list (string * value))
  : list (string * value) :=
  match fields with
  | [] => [("id", of_key k)]
  | (name, x) :: rest =>
      if String.eqb name "id" then (name, of_key k) :: rest
      else (name, x) :: set_id k rest
  end.

(** [[
export const addEntry = async (entry: ITranslationEntry) => {
	const db = await getDB();
	return db.add('translations', entry);
};
]]
    [entry] is the property list of the object passed.  With in-line keys
    and a key generator, [add] takes the key from the entry's [id] when it
    holds a valid key (refusing a key already in use) and otherwise takes the
    generator's current number, unless the generator ran out, and writes it
    into the stored clone as [id]. *)
Definition addEntry (entry : list (string * value)) (db : store)
  : completion IDB.key * store :=
  match extract keyPath (JObj entry) with
  | Invalid => (Throw DataError, db)
  | Key k =>
      match lookup k (records db) with
      | Some _ => (Throw ConstraintError, db)
      | None =>
          (Return k,
           {| records := place k (JObj entry) (records db);
              generator := update_generator k (generator db) |})
      end
  | Failure =>
      match generate db with
      | None => (Throw ConstraintError, db)
      | Some z =>
          let k := KNum z in
          match lookup k (records db) with
          | Some _ => (Throw ConstraintError, db)
          | None =>
              (Return k,
               {| records := place k (JObj (set_id k entry)) (records db);
                  generator := z + 1 |})
          end
      end
  end.

(** [[
export const deleteEntry = async (entryId: number) => {
	const db = await getDB();
	return db.delete('translations', entryId);
};
]] *)
Definition deleteEntry (entryId : value) (db : store)
  : completion unit * store :=
  match to_key entryId with
  | None => (Throw DataError, db)
  | Some k =>
      (Return tt,
       {| records := remove k (records db); generator := generator db |})
  end.

(** [[
export const getEntry = async (entryId: number) => {
	const db = await getDB();
	return db.get('translations', entryId);
};
]]
    The result is [undefined] when no record has the key. *)
Definition getEntry (entryId : value) (db : store) : completion value :=
  match to_key entryId with
  | None => Throw DataError
  | Some k =>
      match lookup k (records db) with
      | Some v => Return v
      | None => Return JUndefined
      end
  end.

(** The test of [deleteEntries] on one record:
[[
(Object.keys(entry) as (keyof typeof entry)[]).every(
	(key) => entry[key] === currentEntry.translation[key],
)
]] *)
Definition deleteEntries_test (entry currentEntry : value)
  : completion bool :=
  ks <- keys entry ;;
  every (fun key =>
           a <- get entry key ;;
           translation <- get currentEntry "translation" ;;
           b <- get translation key ;;
           identical a b) ks.

(** The loop of [deleteEntries] over the records the cursor passes.  Deleting
    through the cursor and moving the cursor on are requests. *)
Fixpoint deleteEntries_loop (entry : value) (cursor : list (IDB.key * value))
  : tx unit :=
  match cursor with
  | [] => tx_ret tt
  | (k, currentEntry) :: next =>
      (matches <~ script (deleteEntries_test entry currentEntry) ;;
       _ <~ (if matches
             then request (fun db => {| records := remove k (records db);
                                        generator := generator db |})
             else tx_ret tt) ;;
       _ <~ request (fun db => db) ;;
       deleteEntries_loop entry next)%tx
  end.

(** [[
export const deleteEntries = async (entry: ITranslation) => {
	const db = await getDB();
	const transaction = await db.transaction('translations', 'readwrite');
	// Delete
	const index = await transaction.objectStore('translations').index('originalText');
	for await (const cursor of index.iterate(entry.originalText)) {
		const currentEntry = cursor.value;
		if (...) {
			await cursor.delete();
		}
	}
	await transaction.done;
};
]] *)
Definition deleteEntries_on (eng : engine) (entry : value) (db : store)
  : completion unit * store :=
  transaction
    (fun eng st =>
       (originalText <~ script (get entry "originalText") ;;
        cursor <~ script (index_cursor originalText (now st)) ;;
        _ <~ request (fun db => db) ;;
        deleteEntries_loop entry cursor)%tx eng st)
    eng db.

(** [deleteEntries] on an engine that fails no request. *)
Definition deleteEntries (entry : value) (db : store)
  : completion unit * store :=
  deleteEntries_on reliable entry db.

(** [[
export const flush = async () => {
	...
	await transaction.store.delete(IDBKeyRange.lowerBound(0));
	await transaction.done;
};
]] *)
Definition flush (db : store) : store :=
  {| records :=
       filter (fun r => match compare (fst r) (KNum 0) with
                        | Lt => true
                        | _ => false
                        end) (records db);
     generator := generator db |}.

Inductive order : Type := desc | asc.

(** [from > 0] and [counter > limit] on numbers: false at [NaN]. *)
Definition positive (n : number) : bool :=
  match n with
  | Fin z => 0 <? z
  | NaN => false
  end.

Definition exceeds (counter : Z) (limit : number) : bool :=
  match limit with
  | Fin z => z <? counter
  | NaN => false
  end.

(** The largest count [cursor.advance] accepts: its parameter is an
    [unsigned long] with [EnforceRange]. *)
Definition advance_max : Z := 4294967295.

(** [cursor.advance(n)]: the number of records the cursor moves ahead; a
    [TypeError] when [n] is not a count from [1] to [advance_max]
    ([undefined] converts to [NaN]). *)
Definition advance (n : number) : completion N :=
  match n with
  | Fin z =>
      if (0 <? z) && (z <=? advance_max) then Return (Z.to_N z)
      else Throw TypeError
  | NaN => Throw TypeError
  end.

(** The loop of [getEntries].  [cursor] lists the records ahead of the
    cursor, the current one first; [pending] is the number of records the
    cursor still has to pass over after [cursor.advance(from)], which moves it
    [from] records ahead of the current one.
[[
for await (const cursor of startCursor) {
	// Jump to specified offset
	if (!isJumped && from !== undefined && from > 0) {
		cursor.advance(from);
		isJumped = true;
		continue;
	}
	// Stop by limit
	if (limit !== undefined && ++counter > limit) break;
	// Add entry
	entries.push({ key: cursor.primaryKey, data: cursor.value });
}
]] *)
Fixpoint getEntries_loop (from limit : option number)
  (isJumped : bool) (counter : Z) (pending : N)
  (cursor : list (IDB.key * value))
  (entries : list ITranslationEntryWithKey)
  : completion (list ITranslationEntryWithKey) :=
  match cursor with
  | [] => Return entries
  | current :: next =>
      match pending with
      | Npos _ =>
          getEntries_loop from limit isJumped counter (N.pred pending) next
            entries
      | N0 =>
          if negb isJumped &&
             match from with Some n => positive n | None => false end
          then
            ahead <- advance (match from with Some n => n | None => NaN end) ;;
            getEntries_loop from limit true counter (N.pred ahead)
              next entries
          else
            match limit with
            | Some l =>
                let counter := counter + 1 in
                if exceeds counter l then Return entries
                else getEntries_loop from limit isJumped counter N0 next
                       (entries ++ [with_key current])
            | None =>
                getEntries_loop from limit isJumped counter N0 next
                  (entries ++ [with_key current])
            end
      end
  end.

(** [[
export const getEntries = async (
	from?: number,
	limit?: number,
	options?: { order: 'desc' | 'asc' },
) => {
	const { order = 'desc' } = options ?? {};
	...
	const startCursor = await transaction.store.openCursor(
		null,
		order === 'desc' ? 'prev' : 'next',
	);
	...
	return entries;
};
]] *)
Definition getEntries (from limit : option number) (options : option order)
  (db : store) : completion (list ITranslationEntryWithKey) :=
  let order := match options with Some o => o | None => desc end in
  let startCursor :=
    match order with
    | desc => rev (records db)
    | asc => records db
    end in
  getEntries_loop from limit false 0 N0 startCursor [].

(** *** Calls to the database

    What an operation does to the database before it returns or raises:
    the calls it makes, in order. *)
Inductive mode : Type := readonly | readwrite.

Inductive db_call : Type :=
| open_database                     (* await getDB() *)
| begin_transaction (m : mode)      (* db.transaction('translations', m) *)
| open_index                        (* ....index('originalText') *)
| iterate (query : found)           (* index.iterate(query) *)
| read_value (k : IDB.key)          (* cursor.value, at the record under k *)
| await_done.                       (* await transaction.done *)

(** An outcome together with the calls made on the way to it. *)
Definition traced (A : Type) : Type := list db_call * completion A.

Definition traced_ret {A : Type} (a : A) : traced A := ([], Return a).

(** A step that makes no call. *)
Definition untraced {A : Type} (c : completion A) : traced A := ([], c).

(** A call and its outcome. *)
Definition call {A : Type} (c : db_call) (r : completion A) : traced A :=
  ([c], r).

Definition traced_bind {A B : Type} (m : traced A) (k : A -> traced B)
  : traced B :=
  match m with
  | (calls, Return a) => ((calls ++ fst (k a))%list, snd (k a))
  | (calls, Throw e) => (calls, Throw e)
  | (calls, Unknown) => (calls, Unknown)
  end.

Declare Scope traced_scope.
Delimit Scope traced_scope with traced.
Notation "x <~ m ;; k" := (traced_bind m (fun x => k))
  (at level 61, m at next level, right associativity) : traced_scope.

Definition calls {A : Type} (t : traced A) : list db_call := fst t.

Definition outcome {A : Type} (t : traced A) : completion A := snd t.

(** The loop of [findEntry]:
[[
for await (const cursor of index.iterate(originalText)) {
	const currentEntry = cursor.value;
	const isMatch = isEqualIntersection(entry, currentEntry);
	if (isMatch) {
		result = { key: cursor.primaryKey, data: currentEntry };
		break;
	}
}
]] *)
Fixpoint findEntry_loop (entry : value) (cursor : list (IDB.key * value))
  : traced (option ITranslationEntryWithKey) :=
  match cursor with
  | [] => traced_ret None
  | current :: next =>
      (currentEntry <~ call (read_value (fst current)) (Return (snd current)) ;;
       isMatch <~ untraced (isEqualIntersection entry currentEntry) ;;
       if isMatch then traced_ret (Some (with_key current))
       else findEntry_loop entry next)%traced
  end.

Definition originalText_required : exn :=
  Error "Parameter `originalText` is required to search".

(** [[
export const findEntry = async (entry: DeepPartial<ITranslationEntry>) => {
	...
	let result: ITranslationEntryWithKey | null = null;
	const originalText = entry?.translation?.originalText;
	if (originalText === undefined) {
		throw new Error('Parameter `originalText` is required to search');
	}
	...
	return result;
};
]]
    [None] stands for the result [null].  The result comes with the calls
    the function made to the database on its way. *)
Definition findEntry (entry : value) (db : store)
  : traced (option ITranslationEntryWithKey) :=
  (_ <~ call open_database (Return tt) ;;
   _ <~ call (begin_transaction readonly) (Return tt) ;;
   originalText <~ untraced (translation <- get_opt entry "translation" ;;
                             get_opt translation "originalText") ;;
   match originalText with
   | Data JUndefined => untraced (Throw originalText_required)
   | _ =>
       _ <~ call open_index (Return tt) ;;
       cursor <~ call (iterate originalText) (index_cursor originalText db) ;;
       result <~ findEntry_loop entry cursor ;;
       _ <~ call await_done (Return tt) ;;
       traced_ret result
   end)%traced.

End Data.

(** ** Shapes of values used in the statements *)

Module Shape.
Import JS IDB Matcher Data.

(** A value that is neither an object, an array nor [null]:
    [typeof v !== 'object']. *)
Definition scalar (v : value) : bool := negb (typeof_object v).

(** The same of something found: a value as above, or a function. *)
Definition not_object (v : found) : bool := negb (typeof_object v).

(** The primitives: everything but arrays and objects. *)
Definition primitive (v : value) : bool :=
  match v with
  | JArr _ | JObj _ => false
  | _ => true
  end.

Fixpoint distinct (names : list string) : bool :=
  match names with
  | [] => true
  | n :: rest => negb (existsb (String.eqb n) rest) && distinct rest
  end.

(** The own property of that name in a property list, [undefined] when
    there is none. *)
Definition field (fields : list (string * value)) (name : string) : value :=
  match own fields name with
  | Some x => x
  | None => JUndefined
  end.

(** An object whose property names are distinct (at the top level). *)
Definition wf_object (v : value) : bool :=
  match v with
  | JObj f => distinct (map fst f)
  | _ => true
  end.

(** An object all of whose members are scalars, as [ITranslation] is
    declared: a flat record of strings. *)
Definition flat_object (v : value) : bool :=
  match v with
  | JObj f => forallb (fun kv => scalar (snd kv)) f
  | _ => false
  end.

(** The shape [ITranslationEntry] and [DeepPartial<ITranslationEntry>]
    declare: an object whose member [translation], when present, is a flat
    object and whose other members are scalars. *)
Definition entry_shape (v : value) : bool :=
  match v with
  | JObj f =>
      forallb (fun kv => if String.eqb (fst kv) "translation"
                         then flat_object (snd kv)
                         else scalar (snd kv)) f
  | _ => false
  end.

(** A value none of whose objects, at any depth, has a member named
    [__proto__], the one name under which [Object.prototype] answers with
    an object. *)
Fixpoint ordinary (v : value) : bool :=
  match v with
  | JArr l => forallb ordinary l
  | JObj f =>
      forallb (fun kv => negb (String.eqb (fst kv) "__proto__") &&
                         ordinary (snd kv)) f
  | _ => true
  end.

(** [entry?.translation?.originalText], which is a value: no prototype
    holds a member of either name ([FindFacts.originalText_value]). *)
Definition criteria_originalText (entry : value) : value :=
  match (translation <- get_opt entry "translation" ;;
         get_opt translation "originalText")%js with
  | Return (Data x) => x
  | _ => JUndefined
  end.

(** The records of the store whose [translation.originalText] is the key
    [q], in key order. *)
Definition candidates (q : IDB.key) (db : store) : list (IDB.key * value) :=
  filter (has_index_key q) (records db).

(** The matcher answers [false] on the record. *)
Definition rejects (entry : value) (r : IDB.key * value) : Prop :=
  isEqualIntersection entry (snd r) = Return false.

(** The keys of the records [deleteEntries] is to delete: the records the
    index cursor passes on which the test succeeds. *)
Definition qualifying (entry : value) (cursor : list (IDB.key * value))
  : list IDB.key :=
  map fst
    (filter (fun r => match deleteEntries_test entry (snd r) with
                      | Return true => true
                      | _ => false
                      end) cursor).

(** The store without the records that carry one of the keys [ks]. *)
Definition without (ks : list IDB.key) (db : store) : store :=
  {| records := filter (fun r => negb (existsb (eqb (fst r)) ks)) (records db);
     generator := generator db |}.

(** A store after adding the entries [es] one after the other. *)
Definition add_all (es : list (list (string * value))) (db : store) : store :=
  fold_left (fun db e => snd (addEntry e db)) es db.

(** The keys [deleteEntries] is to delete from a store. *)
Definition to_delete (entry : value) (db : store) : list IDB.key :=
  match get entry "originalText" with
  | Return originalText =>
      match index_cursor originalText db with
      | Return cursor => qualifying entry cursor
      | _ => []
      end
  | _ => []
  end.

(** Offset and limit on a sequence of records: pass over the first [from]
    records when [from] is a positive number, keep the first [limit] records
    when [limit] is a number. *)
Definition skip {A : Type} (from : option number) (l : list A) : list A :=
  match from with
  | Some (Fin z) => if 0 <? z then skipn (Z.to_nat z) l else l
  | _ => l
  end.

Definition take {A : Type} (limit : option number) (l : list A) : list A :=
  match limit with
  | Some (Fin z) => firstn (Z.to_nat z) l
  | _ => l
  end.

(** The records in the order a cursor of the given direction passes them. *)
Definition in_order (options : option order) (db : store)
  : list (IDB.key * value) :=
  match options with
  | Some asc => records db
  | _ => rev (records db)
  end.

(** An offset above the counts [cursor.advance] accepts. *)
Definition overflows (from : option number) : bool :=
  match from with
  | Some (Fin z) => advance_max <? z
  | _ => false
  end.

(** The condition under which the loop of [getEntries] jumps:
    [!isJumped && from !== undefined && from > 0]. *)
Definition jumps (from : option number) (isJumped : bool) : bool :=
  negb isJumped && match from with Some n => positive n | None => false end.

Definition descending (ks : list IDB.key) : Prop :=
  StronglySorted (fun a b => IDB.lt b a) ks.

Definition ascending (ks : list IDB.key) : Prop :=
  StronglySorted IDB.lt ks.

Definition num (z : Z) : value := JNum (Fin z).

Definition size (db : store) : Z := Z.of_nat (List.length (records db)).

(** A sample store: three entries added to the empty store. *)
Definition translation_of (originalText lang : string) : value :=
  JObj [("originalText", JStr originalText); ("lang", JStr lang)].

Definition entry_of (originalText lang : string) (timestamp : Z)
  : list (string * value) :=
  [("translation", translation_of originalText lang);
   ("timestamp", num timestamp)].

(** A store with one entry whose [translation] has an array member. *)
Definition tagged : store :=
  add_all
    [[("translation",
       JObj [("originalText", JStr "x"); ("tags", JArr [])]);
      ("timestamp", num 1)]]
    empty.

(** A store with two entries of the same [originalText], the second with
    [null] as [translator]. *)
Definition mixed : store :=
  add_all
    [[("translation", JObj [("originalText", JStr "x")]);
      ("translator", JStr "g")];
     [("translation", JObj [("originalText", JStr "x")]);
      ("translator", JNull)]]
    empty.

(** An engine that fails its [n]-th request. *)
Definition fails_at (n : nat) : engine := fun i => negb (Nat.eqb i n).

Definition sample : store :=
  add_all [entry_of "x" "en" 1; entry_of "x" "fr" 2; entry_of "y" "en" 3]
    empty.

End Shape.

(** ** The life of a store *)

Module Lifetime.
Import JS IDB Matcher Data Shape.

(** One operation that changes the store: [addEntry] of an entry without
    [id], [deleteEntry], [deleteEntries] on any engine, [flush]. *)
Inductive step : store -> store -> Prop :=
| step_addEntry (e : list (string * value)) (db : store) :
    own e "id" = None -> step db (snd (addEntry e db))
| step_deleteEntry (entryId : value) (db : store) :
    step db (snd (deleteEntry entryId db))
| step_deleteEntries (eng : engine) (entry : value) (db : store) :
    step db (snd (deleteEntries_on eng entry db))
| step_flush (db : store) :
    step db (flush db).

(** Any number of such operations, one after the other. *)
Inductive evolves : store -> store -> Prop :=
| evolves_refl (db : store) : evolves db db
| evolves_step (db db' db'' : store) :
    evolves db db' -> step db' db'' -> evolves db db''.

(** The stores these operations make of the empty store. *)
Definition reachable (db : store) : Prop := evolves empty db.

(** A record of such a store: its key is a positive number and its value
    carries the key as [id]. *)
Definition record_ok (r : IDB.key * value) : Prop :=
  (exists z, fst r = KNum z /\ 0 < z) /\
  extract keyPath (snd r) = Key (fst r).

Definition store_inv (db : store) : Prop :=
  store_ok db /\ Forall record_ok (records db).

(** The test of [deleteEntries] succeeds on the record. *)
Definition passes (entry : value) (r : IDB.key * value) : bool :=
  match deleteEntries_test entry (snd r) with
  | Return true => true
  | _ => false
  end.

(** The number of records the offset [from] passes over: none unless
    [from] is a positive number. *)
Definition offset (from : option number) : nat :=
  match from with
  | Some (Fin z) => if 0 <? z then Z.to_nat z else 0%nat
  | _ => 0%nat
  end.

(** The number of records a limit lets through, of [n] at hand. *)
Definition allowed (limit : option number) (n : nat) : nat :=
  match limit with
  | Some (Fin z) => Nat.min (Z.to_nat z) n
  | _ => n
  end.

(** A value in whose objects, at every depth, the member names are
    distinct. *)
Fixpoint regular (v : value) : bool :=
  match v with
  | JArr l => forallb regular l
  | JObj f =>
      distinct (map fst f) && forallb (fun kv => regular (snd kv)) f
  | _ => true
  end.

(** A regular value that holds neither [null] nor [NaN] outside its
    arrays. *)
Fixpoint clean (v : value) : bool :=
  match v with
  | JNull => false
  | JNum NaN => false
  | JArr l => forallb regular l
  | JObj f =>
      distinct (map fst f) && forallb (fun kv => clean (snd kv)) f
  | _ => true
  end.

(** The records the index cursor of [deleteEntries] passes for the
    criteria's [originalText]: the whole index when it is [undefined] or
    [null], the records under that key otherwise. *)
Definition in_range (originalText : found) (r : IDB.key * value) : bool :=
  match originalText with
  | Data (JUndefined | JNull) => indexed r
  | _ =>
      match valid_key originalText with
      | Some q => has_index_key q r
      | None => false
      end
  end.

End Lifetime.

(** * Properties *)

(** ** The matcher *)

Module MatcherFacts.
Import JS IDB Matcher Data Shape.
Local Open Scope js_scope.

(** Case analysis on the scrutinee of a [match] in the goal. *)
Ltac case_match :=
  match goal with
  | |- context [match ?x with _ => _ end] => destruct x
  end.

Lemma bind_return {A B : Type} (a : A) (k : A -> completion B) :
  bind (Return a) k = k a.
Proof. reflexivity. Qed.

(** On two operands that are not of type ['object'] the matcher is
    [===]. *)
Lemma isEqualIntersection_not_object (a : value) (b : found) :
  scalar a = true -> not_object b = true ->
  isEqualIntersection a b = Return (strict_equals a b).
Proof.
  unfold scalar, not_object.
  destruct a; simpl; try discriminate; intros _ Hb;
    destruct b as [[]| |]; simpl in *; try discriminate; reflexivity.
Qed.

Lemma isEqualIntersection_scalars (a b : value) :
  scalar a = true -> scalar b = true ->
  isEqualIntersection a b = Return (strict_equals a b).
Proof. apply isEqualIntersection_not_object. Qed.

(** An array on exactly one side never matches. *)
Lemma isEqualIntersection_one_array (a b : value) :
  xorb (isArray a) (isArray b) = true ->
  isEqualIntersection a b = Return false.
Proof.
  destruct a, b; simpl; intros H; try discriminate; reflexivity.
Qed.

(** Two arrays are compared by [isEqual]. *)
Lemma isEqualIntersection_arrays (l m : list value) :
  isEqualIntersection (JArr l) (JArr m) = Return (isEqual (JArr l) (JArr m)).
Proof. reflexivity. Qed.

(** The property names of a string are its indices, read back as such. *)
Lemma name_index_name (i : nat) : name_index (index_name i) = Some i.
Proof.
  unfold name_index, index_name.
  assert (Hnil : Nat.to_uint i <> Decimal.Nil).
  { pose proof (Unsigned.to_of (Nat.to_uint i)) as H.
    rewrite Unsigned.of_to in H. rewrite H.
    apply DecimalFacts.unorm_nonnil. }
  rewrite NilEmpty.usu by exact Hnil.
  rewrite Unsigned.of_to, String.eqb_refl. reflexivity.
Qed.

Lemma index_name_inj (i j : nat) : index_name i = index_name j -> i = j.
Proof.
  intros H. apply (f_equal name_index) in H.
  rewrite !name_index_name in H. congruence.
Qed.

Lemma bind_test (m : completion bool) :
  (b <- m ;; if b then Return true else Return false) = m.
Proof. destruct m as [[|]| |]; reflexivity. Qed.

Lemma match_char_object (c : ascii) (g : list (string * value)) :
  match_char c (JObj g) =
  match own g (index_name 0) with
  | Some x => match_char c x
  | None => Return false
  end.
Proof.
  induction g as [| [k x] g' IH]; [reflexivity|].
  simpl own. destruct (String.eqb k (index_name 0)) eqn:E.
  - simpl. rewrite E. reflexivity.
  - rewrite <- IH. simpl. rewrite E. reflexivity.
Qed.

(** No prototype holds a member under the name of an array index. *)
Lemma inherited_index (c : class) (proto : found) (i : nat) :
  inherited c proto (index_name i) = Data JUndefined.
Proof.
  assert (H : forall k, name_index k = None ->
                        name_index k <> Some i) by congruence.
  unfold inherited.
  destruct (String.eqb (index_name i) "__proto__") eqn:E1.
  { apply String.eqb_eq in E1. exfalso.
    apply (H "__proto__"); [reflexivity|]. rewrite <- E1.
    apply name_index_name. }
  destruct (existsb (String.eqb (index_name i)) (methods c)) eqn:E2.
  { apply existsb_exists in E2 as (k & Hk & Ek).
    apply String.eqb_eq in Ek. exfalso.
    apply (H k); [|rewrite <- Ek; apply name_index_name].
    destruct c; cbn in Hk;
      repeat (destruct Hk as [<-|Hk]; [reflexivity|]); destruct Hk. }
  destruct (String.eqb (index_name i) "length") eqn:E3; [|reflexivity].
  apply String.eqb_eq in E3. exfalso.
  apply (H "length"); [reflexivity|]. rewrite <- E3. apply name_index_name.
Qed.

Lemma member_index (g : list (string * value)) (i : nat) :
  member g (index_name i) =
  match own g (index_name i) with
  | Some x => Data x
  | None => Data JUndefined
  end.
Proof.
  unfold member. destruct (own g (index_name i)); [reflexivity|].
  apply inherited_index.
Qed.

(** Below a one-character string the matcher is [match_char]. *)
Lemma isEqualIntersection_char (c : ascii) (w : found) :
  isEqualIntersection (JStr (str1 c)) w = match_char c w.
Proof.
  destruct w as [[| | b | n | s | l | g]| |c']; try reflexivity.
  - rewrite match_char_object.
    change (isEqualIntersection (JStr (str1 c)) (JObj g))
      with (w <- get (JObj g) (index_name 0) ;;
            b <- match_char c w ;;
            if b then Return true else Return false).
    unfold get. rewrite member_index.
    destruct (own g (index_name 0)); rewrite bind_return;
      [apply bind_test | reflexivity].
  - destruct c'; reflexivity.
Qed.

Lemma own_app (pre l : list (string * value)) (k : string) :
  own (pre ++ l) k =
  match own pre k with
  | Some v => Some v
  | None => own l k
  end.
Proof.
  induction pre as [| [k' v'] pre IH]; simpl; [reflexivity|].
  destruct (String.eqb k' k); [reflexivity | exact IH].
Qed.

Lemma own_absent (f : list (string * value)) (k : string) :
  existsb (String.eqb k) (map fst f) = false -> own f k = None.
Proof.
  induction f as [| [k' v'] f IH]; simpl; [reflexivity|].
  intros H. apply orb_false_elim in H as [H1 H2].
  rewrite String.eqb_sym, H1. auto.
Qed.

Lemma distinct_app_head (pre : list (string * value)) (k : string)
  (rest : list string) :
  distinct (map fst pre ++ k :: rest) = true -> own pre k = None.
Proof.
  induction pre as [| [k' v'] pre IH]; simpl; [reflexivity|].
  intros H. apply andb_prop in H as [H1 H2].
  apply negb_true_iff in H1. rewrite existsb_app in H1.
  apply orb_false_elim in H1 as [_ H1]. simpl in H1.
  apply orb_false_elim in H1 as [H1 _].
  rewrite H1. auto.
Qed.

Lemma get_char_app (pre : string) (c : ascii) (rest : string) :
  char_at (pre ++ String c rest) (String.length pre) = Some c.
Proof.
  unfold char_at. induction pre as [| a pre IH]; simpl; [reflexivity | exact IH].
Qed.

Lemma append_assoc_char (pre : string) (c : ascii) (rest : string) :
  ((pre ++ str1 c) ++ rest)%string = (pre ++ String c rest)%string.
Proof.
  induction pre as [| a pre IH]; simpl; [reflexivity | now rewrite IH].
Qed.

Lemma length_append_char (pre : string) (c : ascii) :
  String.length (pre ++ str1 c) = S (String.length pre).
Proof.
  induction pre as [| a pre IH]; simpl; [reflexivity | now rewrite IH].
Qed.

Lemma member_own (f : list (string * value)) (k : string) (x : value) :
  own f k = Some x -> member f k = Data x.
Proof. intros H. unfold member. now rewrite H. Qed.

Lemma get_object (f : list (string * value)) (k : string) (x : value) :
  own f k = Some x -> get (JObj f) k = Return (Data x).
Proof. intros H. unfold get. now rewrite (member_own _ _ _ H). Qed.

Lemma get_string (s : string) (i : nat) (c : ascii) :
  char_at s i = Some c ->
  get (JStr s) (index_name i) = Return (Data (JStr (str1 c))).
Proof. intros H. unfold get. now rewrite name_index_name, H. Qed.

(** The [every] of the source over the property names of a string. *)
Lemma match_chars_every (obj2 : found) (s pre : string) :
  match_chars s (String.length pre) obj2 =
  every (fun key =>
           x <- get (JStr (pre ++ s)) key ;;
           y <- get obj2 key ;;
           isEqualIntersection_self x y)
        (map index_name (seq (String.length pre) (String.length s))).
Proof.
  revert pre. induction s as [| c rest IH]; intros pre; [reflexivity|].
  cbn [match_chars String.length seq map every].
  rewrite (get_string _ _ c (get_char_app pre c rest)), bind_return.
  destruct (get obj2 (index_name (String.length pre))) as [y|e|];
    [|reflexivity|reflexivity].
  rewrite !bind_return. cbn [isEqualIntersection_self].
  rewrite isEqualIntersection_char.
  destruct (match_char c y) as [[|]| |]; try reflexivity.
  rewrite !bind_return.
  rewrite <- (length_append_char pre c), IH, append_assoc_char.
  reflexivity.
Qed.

(** The [every] of the source over the property names of an object. *)
Lemma props_every (obj2 : found) (f pre : list (string * value)) :
  distinct (map fst (pre ++ f)) = true ->
  (fix props (f : list (string * value)) : completion bool :=
     match f with
     | [] => Return true
     | (key, x) :: f' =>
         y <- get obj2 key ;;
         b <- isEqualIntersection x y ;;
         if b then props f' else Return false
     end) f =
  every (fun key =>
           x <- get (JObj (pre ++ f)) key ;;
           y <- get obj2 key ;;
           isEqualIntersection_self x y)
        (map fst f).
Proof.
  revert pre. induction f as [| [k x] f IH]; intros pre Hd; [reflexivity|].
  cbn [map fst every].
  rewrite map_app in Hd. cbn [map fst] in Hd.
  assert (Hown : own (pre ++ (k, x) :: f) k = Some x).
  { rewrite own_app, (distinct_app_head pre k _ Hd).
    cbn [own]. now rewrite String.eqb_refl. }
  rewrite (get_object _ _ _ Hown), bind_return.
  destruct (get obj2 k) as [y|e|]; [|reflexivity|reflexivity].
  rewrite !bind_return. cbn [isEqualIntersection_self].
  destruct (isEqualIntersection x y) as [[|]| |]; try reflexivity.
  rewrite !bind_return.
  specialize (IH (pre ++ [(k, x)])%list).
  rewrite <- app_assoc in IH. cbn [app] in IH.
  apply IH. rewrite map_app. exact Hd.
Qed.

(** The embedding satisfies the equation of the source: on every first
    argument whose property names are distinct, [isEqualIntersection] is
    the body of the source applied to itself. *)
Lemma isEqualIntersection_unfold (obj1 : value) (obj2 : found) :
  wf_object obj1 = true ->
  isEqualIntersection obj1 obj2 =
  isEqualIntersection_body isEqualIntersection_self obj1 obj2.
Proof.
  intros Hwf. unfold isEqualIntersection_body.
  destruct obj1 as [| | b | n | s | l | f].
  - destruct obj2 as [[]| |[]]; reflexivity.
  - destruct obj2 as [[]| |[]]; reflexivity.
  - destruct obj2 as [[]| |[]]; reflexivity.
  - destruct obj2 as [[]| |[]]; reflexivity.
  - pose proof (match_chars_every obj2 s EmptyString) as H.
    cbn [String.length String.append] in H.
    destruct obj2 as [[]| |[]]; try reflexivity; exact H.
  - destruct obj2 as [[]| |[]]; reflexivity.
  - pose proof (props_every obj2 f [] Hwf) as H.
    destruct obj2 as [[]| |[]]; try reflexivity; exact H.
Qed.

End MatcherFacts.

(** ** The object store *)

Module StoreFacts.
Import JS IDB Matcher Data Shape MatcherFacts.
Local Open Scope js_scope.

Lemma string_compare_refl (s : string) : String.compare s s = Eq.
Proof.
  induction s as [| a s IH]; [reflexivity|].
  simpl. unfold Ascii.compare. now rewrite N.compare_refl.
Qed.

Lemma compare_refl (k : IDB.key) : compare k k = Eq.
Proof.
  induction k as [z | s | ks IH] using key_ind.
  - apply Z.compare_refl.
  - apply string_compare_refl.
  - simpl. induction IH as [| x r Hx _ IHr]; [reflexivity|].
    now rewrite Hx.
Qed.

Lemma eqb_refl (k : IDB.key) : eqb k k = true.
Proof. unfold eqb. now rewrite compare_refl. Qed.

(** A key presented as a value converts back to the key. *)
Lemma to_key_of_key (k : IDB.key) : to_key (of_key k) = Some k.
Proof.
  induction k as [z | s | ks IH] using key_ind; try reflexivity.
  simpl. induction IH as [| x r Hx _ IHr]; [reflexivity|].
  simpl. rewrite Hx.
  destruct ((fix all (l : list value) : option (list IDB.key) :=
               match l with
               | [] => Some []
               | x :: l' =>
                   match to_key x, all l' with
                   | Some k, Some ks => Some (k :: ks)
                   | _, _ => None
                   end
               end) (map of_key r)) as [ks'|]; simpl in IHr |- *;
    congruence.
Qed.

Lemma lookup_remove (k : IDB.key) (recs : list (IDB.key * value)) :
  lookup k (remove k recs) = None.
Proof.
  induction recs as [| [k' v] recs IH]; [reflexivity|].
  unfold remove in *. simpl.
  destruct (eqb k' k) eqn:E; simpl; [exact IH|].
  now rewrite E.
Qed.

Lemma remove_absent (k : IDB.key) (recs : list (IDB.key * value)) :
  lookup k recs = None -> remove k recs = recs.
Proof.
  induction recs as [| [k' v] recs IH]; [reflexivity|].
  unfold remove in *. simpl.
  destruct (eqb k' k) eqn:E; simpl; [discriminate|].
  intros H. now rewrite IH.
Qed.

(** *** The loop of [getEntries] *)

(** While the cursor advances the loop body does not run. *)
Lemma getEntries_loop_pending (from limit : option number) (isJumped : bool)
  (counter : Z) (cursor : list (IDB.key * value)) :
  forall (pending : N) (entries : list ITranslationEntryWithKey),
  getEntries_loop from limit isJumped counter pending cursor entries =
  getEntries_loop from limit isJumped counter N0
    (skipn (N.to_nat pending) cursor) entries.
Proof.
  induction cursor as [| r next IH]; intros pending entries.
  - now rewrite skipn_nil.
  - destruct pending as [| p]; [reflexivity|].
    replace (N.to_nat (Npos p)) with (S (N.to_nat (N.pred (Npos p)))) by lia.
    simpl skipn. rewrite <- IH. reflexivity.
Qed.

(** Once the jump is behind, the loop collects up to the limit. *)
Lemma getEntries_loop_collect (from limit : option number) (isJumped : bool)
  (cursor : list (IDB.key * value)) :
  jumps from isJumped = false ->
  forall (counter : Z) (entries : list ITranslationEntryWithKey),
  getEntries_loop from limit isJumped counter N0 cursor entries =
  Return
    (entries ++
     map with_key
       match limit with
       | Some (Fin l) => firstn (Z.to_nat (l - counter)) cursor
       | _ => cursor
       end)%list.
Proof.
  unfold jumps. intros Hj.
  induction cursor as [| r next IH]; intros counter entries.
  - simpl. destruct limit as [[|l]|]; try rewrite firstn_nil;
      now rewrite List.app_nil_r.
  - cbn [getEntries_loop]. rewrite Hj.
    destruct limit as [[|l]|].
    + cbn [exceeds]. rewrite IH. simpl. now rewrite <- List.app_assoc.
    + cbn [exceeds]. destruct (l <? counter + 1) eqn:E.
      * apply Z.ltb_lt in E.
        replace (Z.to_nat (l - counter)) with 0%nat by lia.
        simpl. now rewrite List.app_nil_r.
      * apply Z.ltb_ge in E. rewrite IH.
        replace (Z.to_nat (l - counter))
          with (S (Z.to_nat (l - (counter + 1)))) by lia.
        simpl. now rewrite <- List.app_assoc.
    + rewrite IH. simpl. now rewrite <- List.app_assoc.
Qed.

Lemma getEntries_cursor (from limit : option number)
  (options : option order) (db : store) :
  getEntries from limit options db =
  getEntries_loop from limit false 0 N0 (in_order options db) [].
Proof. unfold getEntries. destruct options as [[|]|]; reflexivity. Qed.

(** [getEntries] returns the page that offset and limit cut out of the
    records in cursor order, when the offset is a count [advance]
    accepts. *)
Lemma getEntries_page (from limit : option number) (options : option order)
  (db : store) :
  overflows from = false ->
  getEntries from limit options db =
  Return (map with_key (take limit (skip from (in_order options db)))).
Proof.
  intros Hfit. rewrite getEntries_cursor.
  generalize (in_order options db) as cursor. intros cursor.
  destruct (jumps from false) eqn:Hj.
  - unfold jumps in Hj. simpl in Hj.
    destruct from as [[|z]|]; try discriminate. simpl in Hj.
    unfold skip. rewrite Hj.
    destruct cursor as [| r next].
    + rewrite skipn_nil. destruct limit as [[|l]|]; simpl;
        try rewrite firstn_nil; reflexivity.
    + cbn [getEntries_loop negb andb positive advance]. rewrite Hj.
      cbn [overflows] in Hfit. apply Z.ltb_ge in Hfit.
      replace (z <=? advance_max) with true
        by (symmetry; now apply Z.leb_le).
      cbn [andb]. rewrite bind_return.
      rewrite getEntries_loop_pending.
      rewrite getEntries_loop_collect by reflexivity.
      apply Z.ltb_lt in Hj.
      assert (Hs : skipn (Z.to_nat z) (r :: next) =
                   skipn (N.to_nat (N.pred (Z.to_N z))) next).
      { replace (Z.to_nat z) with (S (N.to_nat (N.pred (Z.to_N z)))) by lia.
        reflexivity. }
      rewrite Hs. unfold take.
      destruct limit as [[|l]|]; try reflexivity.
      now rewrite Z.sub_0_r.
  - rewrite getEntries_loop_collect by exact Hj.
    unfold jumps in Hj. simpl in Hj.
    assert (Hs : skip from cursor = cursor).
    { unfold skip. destruct from as [[|z]|]; try reflexivity.
      simpl in Hj. now rewrite Hj. }
    rewrite Hs. unfold take. destruct limit as [[|l]|]; try reflexivity.
    now rewrite Z.sub_0_r.
Qed.

(** On a store without records no cursor is opened and nothing is
    refused. *)
Lemma getEntries_empty (from limit : option number) (options : option order)
  (db : store) :
  records db = [] -> getEntries from limit options db = Return [].
Proof.
  intros H. rewrite getEntries_cursor.
  destruct options as [[|]|]; unfold in_order; rewrite H; reflexivity.
Qed.

(** An offset above the counts [advance] accepts is refused with a
    [TypeError] as soon as there is a record to stand on. *)
Lemma getEntries_refused (from limit : option number)
  (options : option order) (db : store) :
  overflows from = true -> records db <> [] ->
  getEntries from limit options db = Throw TypeError.
Proof.
  intros Hover Hne. rewrite getEntries_cursor.
  assert (Hc : in_order options db <> []).
  { destruct options as [[|]|]; unfold in_order; try exact Hne;
      intros H; apply Hne;
      apply (f_equal (@rev _)) in H; now rewrite rev_involutive in H. }
  destruct (in_order options db) as [| r next]; [congruence|].
  destruct from as [[|z]|]; try discriminate.
  cbn [overflows] in Hover. apply Z.ltb_lt in Hover.
  unfold advance_max in Hover.
  cbn [getEntries_loop negb andb positive advance].
  replace (0 <? z) with true by (symmetry; apply Z.ltb_lt; lia).
  replace (z <=? advance_max) with false
    by (symmetry; apply Z.leb_gt; unfold advance_max; lia).
  reflexivity.
Qed.

(** *** Key order *)

Lemma sorted_snoc {A : Type} (R : A -> A -> Prop) (l : list A) (a : A) :
  StronglySorted R l -> Forall (fun x => R x a) l ->
  StronglySorted R (l ++ [a]).
Proof.
  induction 1 as [| x l Hl IH Hx]; intros Ha; simpl.
  - repeat constructor.
  - inversion Ha; subst. constructor; [auto|].
    apply Forall_app. split; [exact Hx | now repeat constructor].
Qed.

Lemma sorted_rev {A : Type} (R : A -> A -> Prop) (l : list A) :
  StronglySorted R l -> StronglySorted (fun a b => R b a) (rev l).
Proof.
  induction 1 as [| x l Hl IH Hx]; simpl; [constructor|].
  apply sorted_snoc; [exact IH|].
  apply Forall_rev. exact Hx.
Qed.

Lemma key_with_key (l : list (IDB.key * value)) :
  map key (map with_key l) = map fst l.
Proof. rewrite map_map. reflexivity. Qed.

Lemma lt_num_trans (z z' : Z) (k : IDB.key) :
  z < z' -> IDB.lt (KNum z') k -> IDB.lt (KNum z) k.
Proof.
  unfold IDB.lt. destruct k as [z''| |]; simpl; try reflexivity.
  rewrite !Z.compare_lt_iff. lia.
Qed.

Lemma ascending_below_head (bound z : Z) (rest : list IDB.key) :
  ascending_below bound (KNum z :: rest) ->
  Forall (fun k => IDB.lt (KNum z) k) rest.
Proof.
  revert z. induction rest as [| k rest IH]; intros z H; [constructor|].
  destruct H as (_ & Hz & Hrest).
  destruct k as [z'| |]; try (simpl in Hrest; contradiction).
  constructor.
  - unfold IDB.lt. simpl. now apply Z.compare_lt_iff.
  - eapply Forall_impl; [|apply (IH z' Hrest)].
    intros k. now apply lt_num_trans.
Qed.

(** A store of generated keys is in ascending key order. *)
Lemma ascending_below_sorted (bound : Z) (ks : list IDB.key) :
  ascending_below bound ks -> ascending ks.
Proof.
  unfold ascending.
  induction ks as [| k ks IH]; intros H; [constructor|].
  destruct k as [z| |]; try (simpl in H; contradiction).
  constructor.
  - apply IH. apply H.
  - eapply ascending_below_head. exact H.
Qed.

Lemma store_ok_ascending (db : store) :
  store_ok db -> ascending (store_keys db).
Proof. intros [_ H]. eapply ascending_below_sorted. exact H. Qed.

(** *** Adding with a generated key *)

Lemma extract_no_id (e : list (string * value)) :
  own e "id" = None -> extract keyPath (JObj e) = Failure.
Proof.
  intros H. unfold extract, keyPath. cbn [eval_path path_step].
  now rewrite H.
Qed.

Lemma set_id_fresh (k : IDB.key) (e : list (string * value)) :
  own e "id" = None -> set_id k e = (e ++ [("id", of_key k)])%list.
Proof.
  induction e as [| [name x] e IH]; [reflexivity|].
  cbn [own set_id]. destruct (String.eqb name "id"); [discriminate|].
  intros H. cbn [app]. now rewrite IH.
Qed.

Lemma place_last (g : Z) (v : value) (recs : list (IDB.key * value)) :
  ascending_below g (map fst recs) ->
  place (KNum g) v recs = (recs ++ [(KNum g, v)])%list.
Proof.
  induction recs as [| [k v'] recs IH]; [reflexivity|].
  cbn [map fst]. destruct k as [z| |]; try (simpl; contradiction).
  intros (Hz & _ & Hrest). cbn [place IDB.compare].
  replace (g ?= z) with Gt by (symmetry; apply Z.compare_gt_iff; lia).
  cbn [app]. now rewrite IH.
Qed.

Lemma lookup_last (g : Z) (v : value) (recs : list (IDB.key * value)) :
  ascending_below g (map fst recs) ->
  lookup (KNum g) (recs ++ [(KNum g, v)]) = Some v.
Proof.
  induction recs as [| [k v'] recs IH].
  - intros _. cbn [app lookup]. now rewrite eqb_refl.
  - cbn [map fst]. destruct k as [z| |]; try (simpl; contradiction).
    intros (Hz & _ & Hrest). cbn [app lookup].
    unfold eqb at 1. cbn [IDB.compare].
    replace (z ?= g) with Lt by (symmetry; apply Z.compare_lt_iff; lia).
    now apply IH.
Qed.

Lemma lookup_fresh (g : Z) (recs : list (IDB.key * value)) :
  ascending_below g (map fst recs) -> lookup (KNum g) recs = None.
Proof.
  induction recs as [| [k v'] recs IH]; [reflexivity|].
  cbn [map fst]. destruct k as [z| |]; try (simpl; contradiction).
  intros (Hz & _ & Hrest). cbn [lookup].
  unfold eqb at 1. cbn [IDB.compare].
  replace (z ?= g) with Lt by (symmetry; apply Z.compare_lt_iff; lia).
  now apply IH.
Qed.

Lemma ascending_below_last (g : Z) (ks : list IDB.key) :
  ascending_below g ks -> ascending_below (g + 1) (ks ++ [KNum g]).
Proof.
  induction ks as [| k ks IH].
  - intros _. simpl. lia.
  - destruct k as [z| |]; try (simpl; contradiction).
    intros (Hz & Hnext & Hrest). cbn [app ascending_below].
    split; [lia|]. split; [|now apply IH].
    destruct ks as [| k' ks]; [exact Hz | exact Hnext].
Qed.

(** [addEntry] of an entry without [id], on a store of generated keys:
    while the generator has not run out, the entry is stored last, under
    the generator's current number and with that number as [id]. *)
Lemma addEntry_generated (e : list (string * value)) (db : store) :
  store_ok db -> own e "id" = None ->
  generator db <= generator_limit ->
  addEntry e db =
  (Return (KNum (generator db)),
   {| records :=
        (records db ++
         [(KNum (generator db),
           JObj (e ++ [("id", of_key (KNum (generator db)))]))])%list;
      generator := generator db + 1 |}).
Proof.
  intros [Hg H] He Hlim. unfold addEntry, generate.
  rewrite (extract_no_id _ He).
  replace (generator_limit <? generator db) with false
    by (symmetry; now apply Z.ltb_ge).
  rewrite (lookup_fresh _ _ H), (set_id_fresh _ _ He), (place_last _ _ _ H).
  reflexivity.
Qed.

(** Once the generator has run out, an entry without [id] is refused. *)
Lemma addEntry_exhausted (e : list (string * value)) (db : store) :
  own e "id" = None ->
  generator_limit < generator db ->
  addEntry e db = (Throw ConstraintError, db).
Proof.
  intros He Hlim. unfold addEntry, generate.
  rewrite (extract_no_id _ He).
  replace (generator_limit <? generator db) with true
    by (symmetry; now apply Z.ltb_lt).
  reflexivity.
Qed.

(** What [addEntry] of an entry without [id] returns is the generator's
    current number, and the generator moves on by one. *)
Lemma addEntry_returns (e : list (string * value)) (db : store)
  (k : IDB.key) :
  own e "id" = None ->
  fst (addEntry e db) = Return k ->
  k = KNum (generator db) /\
  generator db <= generator_limit /\
  generator (snd (addEntry e db)) = generator db + 1.
Proof.
  intros He. unfold addEntry, generate. rewrite (extract_no_id _ He).
  destruct (generator_limit <? generator db) eqn:E; [discriminate|].
  apply Z.ltb_ge in E.
  destruct (lookup (KNum (generator db)) (records db)); [discriminate|].
  cbn [fst snd generator]. intros [= <-]. auto.
Qed.

(** [addEntry] of an entry without [id] never sets the generator back. *)
Lemma addEntry_generator (e : list (string * value)) (db : store) :
  own e "id" = None ->
  generator db <= generator (snd (addEntry e db)).
Proof.
  intros He. unfold addEntry, generate. rewrite (extract_no_id _ He).
  destruct (generator_limit <? generator db); [cbn; lia|].
  destruct (lookup (KNum (generator db)) (records db)); cbn; lia.
Qed.

(** *** The invariant of a store of generated keys *)

Lemma store_ok_empty : store_ok empty.
Proof. split; simpl; [lia | exact I]. Qed.

Lemma ascending_below_filter (P : IDB.key -> bool) (g : Z)
  (ks : list IDB.key) :
  ascending_below g ks -> ascending_below g (filter P ks).
Proof.
  induction ks as [| k ks IH]; [auto|].
  destruct k as [z| |]; try (simpl; contradiction).
  intros H. pose proof (ascending_below_head _ _ _ H) as Hhead.
  destruct H as (Hz & _ & Hrest). specialize (IH Hrest).
  cbn [filter]. destruct (P (KNum z)); [|exact IH].
  cbn [ascending_below]. split; [exact Hz|]. split; [|exact IH].
  assert (Hf : Forall (fun k => IDB.lt (KNum z) k) (filter P ks)).
  { apply Forall_forall. intros k Hin. apply filter_In in Hin.
    exact (proj1 (Forall_forall _ _) Hhead k (proj1 Hin)). }
  destruct (filter P ks) as [| k' ks']; [exact I|].
  destruct k' as [z'| |]; try exact I.
  inversion Hf as [| ? ? Hlt _]; subst.
  unfold IDB.lt in Hlt. simpl in Hlt. now apply Z.compare_lt_iff.
Qed.

Lemma keys_filter (P : IDB.key -> bool) (recs : list (IDB.key * value)) :
  map fst (filter (fun r => P (fst r)) recs) = filter P (map fst recs).
Proof.
  induction recs as [| r recs IH]; [reflexivity|].
  simpl. destruct (P (fst r)); simpl; now rewrite IH.
Qed.

Lemma store_ok_filter (P : IDB.key -> bool) (db : store) :
  store_ok db ->
  store_ok {| records := filter (fun r => P (fst r)) (records db);
              generator := generator db |}.
Proof.
  intros [Hg H]. split; [exact Hg|].
  unfold store_keys. cbn [records generator].
  rewrite keys_filter. now apply ascending_below_filter.
Qed.

(** Adding an entry that carries no [id] keeps the invariant. *)
Lemma store_ok_addEntry (e : list (string * value)) (db : store) :
  store_ok db -> own e "id" = None -> store_ok (snd (addEntry e db)).
Proof.
  intros Hok He.
  destruct (Z.le_gt_cases (generator db) generator_limit) as [Hlim|Hlim].
  - rewrite (addEntry_generated _ _ Hok He Hlim).
    destruct Hok as [Hg H].
    cbn [snd]. split; cbn [generator records]; [lia|].
    unfold store_keys. cbn [records].
    rewrite map_app. cbn [map fst].
    now apply ascending_below_last.
  - now rewrite (addEntry_exhausted _ _ He Hlim).
Qed.

(** Every store obtained by adding entries without [id] to the empty store
    satisfies the invariant. *)
Lemma store_ok_add_all (es : list (list (string * value))) (db : store) :
  Forall (fun e => own e "id" = None) es ->
  store_ok db -> store_ok (add_all es db).
Proof.
  intros Hes. revert db. unfold add_all.
  induction Hes as [| e es He _ IH]; intros db Hdb; [exact Hdb|].
  cbn [fold_left]. apply IH. now apply store_ok_addEntry.
Qed.

Lemma store_ok_deleteEntry (entryId : value) (db : store) :
  store_ok db -> store_ok (snd (deleteEntry entryId db)).
Proof.
  intros H. unfold deleteEntry. destruct (to_key entryId) as [k|]; [|exact H].
  cbn [snd]. unfold remove.
  exact (store_ok_filter (fun k' => negb (eqb k' k)) db H).
Qed.

Lemma store_ok_flush (db : store) : store_ok db -> store_ok (flush db).
Proof.
  intros H. unfold flush.
  exact (store_ok_filter
           (fun k => match compare k (KNum 0) with Lt => true | _ => false end)
           db H).
Qed.

End StoreFacts.

(** ** Matching entries *)

Module FindFacts.
Import JS IDB Matcher Data Shape MatcherFacts StoreFacts.
Local Open Scope js_scope.

(** The equations of the matcher on an object criterion. *)
Lemma isEqualIntersection_object_nil (obj2 : found) :
  isArray obj2 = false -> isEqualIntersection (JObj []) obj2 = Return true.
Proof. destruct obj2 as [[]| |[]]; intros H; try discriminate; reflexivity. Qed.

Lemma isEqualIntersection_object_cons (k : string) (x : value)
  (f : list (string * value)) (obj2 : found) :
  isArray obj2 = false ->
  isEqualIntersection (JObj ((k, x) :: f)) obj2 =
  (y <- get obj2 k ;;
   b <- isEqualIntersection x y ;;
   if b then isEqualIntersection (JObj f) obj2 else Return false).
Proof. destruct obj2 as [[]| |[]]; intros H; try discriminate; reflexivity. Qed.

Lemma own_forallb (P : string * value -> bool) (f : list (string * value))
  (k : string) (v : value) :
  forallb P f = true -> own f k = Some v -> P (k, v) = true.
Proof.
  induction f as [| [k' v'] f IH]; simpl; [discriminate|].
  intros H. apply andb_prop in H as [H1 H2].
  destruct (String.eqb k' k) eqn:E.
  - apply String.eqb_eq in E. subst. now intros [= <-].
  - auto.
Qed.

(** An object criterion with scalar members against an object under whose
    members of these names nothing of type ['object'] is found: the members
    are compared with [===]. *)
Lemma isEqualIntersection_flat (xf tf : list (string * value)) :
  forallb (fun kv => scalar (snd kv) && not_object (member tf (fst kv))) xf
  = true ->
  isEqualIntersection (JObj xf) (JObj tf) =
  Return (forallb (fun kv => strict_equals (snd kv) (member tf (fst kv))) xf).
Proof.
  induction xf as [| [k x] xf IH]; intros H; [reflexivity|].
  cbn [forallb fst snd] in H |- *.
  apply andb_prop in H as [Hkx H]. apply andb_prop in Hkx as [Hx Hy].
  rewrite isEqualIntersection_object_cons by reflexivity.
  cbn [get]. rewrite bind_return.
  rewrite (isEqualIntersection_not_object _ _ Hx Hy).
  rewrite bind_return, (IH H).
  destruct (strict_equals x (member tf k)); reflexivity.
Qed.

(** What a prototype chain holds is no object, but under [__proto__]. *)
Lemma inherited_not_object (c : class) (proto : found) (k : string) :
  String.eqb k "__proto__" = false ->
  not_object (inherited c proto k) = true.
Proof.
  intros H. unfold inherited. rewrite H.
  destruct (existsb (String.eqb k) (methods c)); [reflexivity|].
  destruct (String.eqb k "length"); [|reflexivity].
  destruct c; reflexivity.
Qed.

Lemma member_not_object (f : list (string * value)) (k : string) :
  forallb (fun kv => scalar (snd kv)) f = true ->
  String.eqb k "__proto__" = false ->
  not_object (member f k) = true.
Proof.
  intros H Hk. unfold member. destruct (own f k) as [v|] eqn:E.
  - exact (own_forallb _ f k v H E).
  - now apply inherited_not_object.
Qed.

(** A record that is in the index has an object as [translation]. *)
Lemma indexed_translation (v : value) (q : IDB.key) :
  index_key v = Some q ->
  exists rf tf, v = JObj rf /\ own rf "translation" = Some (JObj tf).
Proof.
  unfold index_key, extract, index_path. cbn [eval_path].
  destruct v as [| | | | s | l | rf]; try discriminate.
  cbn [path_step].
  destruct (own rf "translation") as [t|] eqn:E; [|discriminate].
  destruct t as [| | | | s | l | tf]; try discriminate.
  intros _. now exists rf, tf.
Qed.

Lemma ordinary_names (f : list (string * value)) (k : string) (x : value) :
  ordinary (JObj f) = true -> In (k, x) f ->
  String.eqb k "__proto__" = false /\ ordinary x = true.
Proof.
  cbn [ordinary]. intros H Hin.
  pose proof (proj1 (forallb_forall _ _) H _ Hin) as Hk. cbn [fst snd] in Hk.
  apply andb_prop in Hk as [Hk Hx]. apply negb_true_iff in Hk. auto.
Qed.

(** The matcher returns on a criterion of the declared shape without
    members named [__proto__] and an indexed record of the declared
    shape. *)
Lemma isEqualIntersection_entries (ef rf tf : list (string * value)) :
  entry_shape (JObj ef) = true ->
  ordinary (JObj ef) = true ->
  entry_shape (JObj rf) = true ->
  own rf "translation" = Some (JObj tf) ->
  exists b, isEqualIntersection (JObj ef) (JObj rf) = Return b.
Proof.
  intros Hef Hord Hrf Htr. cbn [entry_shape] in Hef, Hrf.
  assert (Htf : forallb (fun kv => scalar (snd kv)) tf = true).
  { pose proof (own_forallb _ rf _ _ Hrf Htr) as H. exact H. }
  induction ef as [| [k x] ef IH]; [now exists true|].
  cbn [forallb fst snd] in Hef. apply andb_prop in Hef as [Hx Hef].
  destruct (ordinary_names _ k x Hord (or_introl eq_refl)) as [Hk Hox].
  assert (Hord' : ordinary (JObj ef) = true).
  { cbn [ordinary forallb] in Hord |- *. now apply andb_prop in Hord. }
  destruct (IH Hef Hord') as [b' Hb'].
  rewrite isEqualIntersection_object_cons by reflexivity.
  cbn [get]. rewrite bind_return.
  assert (Hstep : exists b, isEqualIntersection x (member rf k) = Return b).
  { destruct (String.eqb k "translation") eqn:E.
    - apply String.eqb_eq in E. subst k.
      rewrite (member_own _ _ _ Htr).
      destruct x as [| | | | | | xf]; try discriminate.
      cbn [flat_object] in Hx.
      rewrite isEqualIntersection_flat; [eauto|].
      apply forallb_forall. intros [k2 x2] Hin. cbn [fst snd].
      pose proof (proj1 (forallb_forall _ _) Hx _ Hin) as Hs.
      cbn [snd] in Hs. rewrite Hs. cbn [andb].
      apply member_not_object; [exact Htf|].
      exact (proj1 (ordinary_names _ k2 x2 Hox Hin)).
    - assert (Hy : not_object (member rf k) = true).
      { unfold member. destruct (own rf k) as [y|] eqn:Ey.
        - pose proof (own_forallb _ rf _ _ Hrf Ey) as Hy.
          cbn [fst snd] in Hy. now rewrite E in Hy.
        - now apply inherited_not_object. }
      rewrite (isEqualIntersection_not_object _ _ Hx Hy). eauto. }
  destruct Hstep as [b Hb]. rewrite Hb, bind_return.
  destruct b; eauto.
Qed.

(** *** What the matcher can throw *)

Lemma get_throws (v : found) (k : string) (e : exn) :
  get v k = Throw e -> e = TypeError.
Proof.
  destruct v as [[]| |]; simpl; try congruence;
    repeat case_match; congruence.
Qed.

Lemma own_In (f : list (string * value)) (k : string) (v : value) :
  own f k = Some v -> In (k, v) f.
Proof.
  induction f as [| [k' v'] f IH]; simpl; [discriminate|].
  destruct (String.eqb k' k) eqn:E.
  - apply String.eqb_eq in E. subst. intros [= <-]. now left.
  - auto.
Qed.

Lemma match_value_throws (c : ascii) (w : value) (e : exn) :
  match_value c w = Throw e -> e = TypeError.
Proof.
  induction w as [| | b | n | s | l _ | g IH] using value_ind;
    try (simpl; congruence).
  change (match_value c (JObj g)) with (match_char c (JObj g)).
  rewrite match_char_object.
  destruct (own g (index_name 0)) as [x|] eqn:E; [|discriminate].
  apply own_In in E.
  exact (proj1 (Forall_forall _ _) IH _ E).
Qed.

Lemma match_char_throws (c : ascii) (w : found) (e : exn) :
  match_char c w = Throw e -> e = TypeError.
Proof.
  destruct w as [v| |]; try discriminate. apply match_value_throws.
Qed.

Lemma match_chars_throws (obj2 : found) (s : string) (i : nat) (e : exn) :
  match_chars s i obj2 = Throw e -> e = TypeError.
Proof.
  revert i. induction s as [| c rest IH]; intros i; simpl; [discriminate|].
  destruct (get obj2 (index_name i)) as [w|e'|] eqn:Eg.
  - rewrite bind_return.
    destruct (match_char c w) as [[|]|e'|] eqn:Ec; simpl.
    + apply IH.
    + discriminate.
    + intros [= <-]. eapply match_char_throws; eauto.
    + discriminate.
  - simpl. intros [= <-]. eapply get_throws; eauto.
  - discriminate.
Qed.

(** The matcher throws nothing but a [TypeError]. *)
Lemma isEqualIntersection_throws (obj1 : value) (obj2 : found) (e : exn) :
  isEqualIntersection obj1 obj2 = Throw e -> e = TypeError.
Proof.
  revert obj2.
  induction obj1 as [| | b | n | s | l _ | f IH] using value_ind; intros obj2.
  - destruct obj2 as [[]| |[]]; simpl; congruence.
  - destruct obj2 as [[]| |[]]; simpl; congruence.
  - destruct obj2 as [[]| |[]]; simpl; congruence.
  - destruct obj2 as [[]| |[]]; simpl; congruence.
  - destruct obj2 as [[]| |[]]; try (simpl; congruence);
      apply match_chars_throws.
  - destruct obj2 as [[]| |[]]; simpl; congruence.
  - destruct (isArray obj2) eqn:Ha.
    { destruct obj2 as [[]| |[]]; discriminate. }
    induction f as [| [k x] f IHf].
    + now rewrite isEqualIntersection_object_nil.
    + rewrite isEqualIntersection_object_cons by exact Ha.
      inversion IH as [| ? ? Hx Hf]; subst. cbn [snd] in Hx.
      destruct (get obj2 k) as [y|e'|] eqn:Eg.
      * rewrite bind_return.
        destruct (isEqualIntersection x y) as [[|]|e'|] eqn:Ex; simpl.
        -- now apply IHf.
        -- discriminate.
        -- intros [= <-]. eapply Hx; eauto.
        -- discriminate.
      * simpl. intros [= <-]. eapply get_throws; eauto.
      * discriminate.
Qed.

(** *** [findEntry] *)

Lemma index_cursor_key (originalText : value) (q : IDB.key) (db : store) :
  to_key originalText = Some q ->
  index_cursor originalText db = Return (candidates q db).
Proof.
  unfold index_cursor, candidates, valid_key.
  destruct originalText; intros H; try discriminate; now rewrite H.
Qed.

(** No value finds anything but a value under [translation] or
    [originalText]. *)
Lemma get_opt_value (v : value) (k : string) :
  k = "translation" \/ k = "originalText" ->
  exists x : value, get_opt v k = Return (Data x).
Proof.
  intros Hk.
  assert (Hi : forall c proto,
             exists x : value, inherited c proto k = Data x).
  { intros c proto. exists JUndefined.
    destruct Hk as [-> | ->]; destruct c; reflexivity. }
  destruct v as [| | b | n | s | l | f]; cbn [get_opt get].
  - eauto.
  - eauto.
  - destruct (Hi BooleanClass (HostPrototype BooleanClass)) as [x ->]. eauto.
  - destruct (Hi NumberClass (HostPrototype NumberClass)) as [x ->]. eauto.
  - replace (name_index k) with (@None nat)
      by (destruct Hk as [-> | ->]; reflexivity).
    replace (String.eqb k "length") with false
      by (destruct Hk as [-> | ->]; reflexivity).
    destruct (Hi StringClass (HostPrototype StringClass)) as [x ->]. eauto.
  - replace (name_index k) with (@None nat)
      by (destruct Hk as [-> | ->]; reflexivity).
    replace (String.eqb k "length") with false
      by (destruct Hk as [-> | ->]; reflexivity).
    destruct (Hi ArrayClass (HostPrototype ArrayClass)) as [x ->]. eauto.
  - unfold member. destruct (own f k); [eauto|].
    destruct (Hi ObjectClass (HostPrototype ObjectClass)) as [x ->]. eauto.
Qed.

(** [entry?.translation?.originalText] is the value
    [criteria_originalText]. *)
Lemma originalText_value (entry : value) :
  (translation <- get_opt entry "translation" ;;
   get_opt translation "originalText")
  = Return (Data (criteria_originalText entry)).
Proof.
  unfold criteria_originalText.
  destruct (get_opt_value entry "translation" (or_introl eq_refl)) as [t ->].
  rewrite bind_return.
  destruct (get_opt_value t "originalText" (or_intror eq_refl)) as [x ->].
  reflexivity.
Qed.

Lemma outcome_bind {A B : Type} (m : traced A) (k : A -> traced B) :
  outcome (traced_bind m k) = (a <- outcome m ;; outcome (k a)).
Proof. destruct m as [log [a|e|]]; reflexivity. Qed.

(** One turn of the loop of [findEntry]. *)
Lemma findEntry_loop_cons (entry : value) (current : IDB.key * value)
  (next : list (IDB.key * value)) :
  outcome (findEntry_loop entry (current :: next)) =
  (isMatch <- isEqualIntersection entry (snd current) ;;
   if isMatch then Return (Some (with_key current))
   else outcome (findEntry_loop entry next)).
Proof.
  cbn [findEntry_loop]. rewrite outcome_bind. cbn [call outcome snd bind].
  rewrite outcome_bind. cbn [untraced outcome snd].
  destruct (isEqualIntersection entry (snd current)) as [[|]|e|]; reflexivity.
Qed.

(** The calls of the loop of [findEntry]: it reads the records up to the
    one it stops at. *)
Lemma findEntry_loop_calls (entry : value) (cursor : list (IDB.key * value)) :
  exists n,
    calls (findEntry_loop entry cursor)
    = map (fun r => read_value (fst r)) (firstn n cursor).
Proof.
  induction cursor as [| current next [n IH]]; [now exists 0%nat|].
  cbn [findEntry_loop]. unfold traced_bind, call, untraced, calls in *.
  cbn [fst snd].
  destruct (isEqualIntersection entry (snd current)) as [[|]|e|].
  - now exists 1%nat.
  - exists (S n). cbn [fst app firstn map]. now rewrite IH.
  - now exists 1%nat.
  - now exists 1%nat.
Qed.

Lemma findEntry_outcome (entry : value) (db : store) :
  outcome (findEntry entry db) =
  match criteria_originalText entry with
  | JUndefined => Throw originalText_required
  | originalText =>
      cursor <- index_cursor originalText db ;;
      outcome (findEntry_loop entry cursor)
  end.
Proof.
  unfold findEntry. rewrite !outcome_bind. cbn [call outcome snd bind].
  rewrite originalText_value. cbn [untraced snd bind].
  assert (H : forall x : value,
             outcome
               (_ <~ call open_index (Return tt) ;;
                cursor <~ call (iterate x) (index_cursor x db) ;;
                result <~ findEntry_loop entry cursor ;;
                _ <~ call await_done (Return tt) ;;
                traced_ret result)%traced
             = (cursor <- index_cursor x db ;;
                outcome (findEntry_loop entry cursor))).
  { intros x. rewrite !outcome_bind. cbn [call outcome snd bind].
    destruct (index_cursor x db) as [cursor|e|]; try reflexivity.
    rewrite !bind_return, outcome_bind. unfold outcome.
    destruct (snd (findEntry_loop entry cursor)) as [r|e|]; reflexivity. }
  destruct (criteria_originalText entry); try apply H. reflexivity.
Qed.

Lemma findEntry_absent (entry : value) (db : store) :
  criteria_originalText entry = JUndefined ->
  outcome (findEntry entry db) = Throw originalText_required.
Proof. intros H. now rewrite findEntry_outcome, H. Qed.

(** Without [originalText], [findEntry] raises after [getDB()] and
    [db.transaction()], and makes no other call. *)
Lemma findEntry_absent_calls (entry : value) (db : store) :
  criteria_originalText entry = JUndefined ->
  calls (findEntry entry db) = [open_database; begin_transaction readonly].
Proof.
  intros H. unfold findEntry, calls, traced_bind, call.
  cbn [fst snd]. unfold untraced at 1. rewrite originalText_value, H.
  reflexivity.
Qed.

Lemma findEntry_present (entry : value) (db : store) :
  criteria_originalText entry <> JUndefined ->
  outcome (findEntry entry db) =
  (cursor <- index_cursor (criteria_originalText entry) db ;;
   outcome (findEntry_loop entry cursor)).
Proof.
  intros H. rewrite findEntry_outcome.
  destruct (criteria_originalText entry); try reflexivity.
  now contradiction H.
Qed.

(** With a key as [originalText], [findEntry] is its loop over the records
    that have this key in the index. *)
Lemma findEntry_key (entry : value) (db : store) (q : IDB.key) :
  to_key (criteria_originalText entry) = Some q ->
  outcome (findEntry entry db)
  = outcome (findEntry_loop entry (candidates q db)).
Proof.
  intros H. rewrite findEntry_present.
  - now rewrite (index_cursor_key _ _ _ H).
  - intros E. rewrite E in H. discriminate.
Qed.

Lemma findEntry_loop_first (entry : value) (pre : list (IDB.key * value))
  (x : IDB.key * value) (post : list (IDB.key * value)) :
  Forall (rejects entry) pre ->
  isEqualIntersection entry (snd x) = Return true ->
  outcome (findEntry_loop entry (pre ++ x :: post))
  = Return (Some (with_key x)).
Proof.
  intros Hpre Hx. induction Hpre as [| y pre Hy _ IH]; cbn [app];
    rewrite findEntry_loop_cons.
  - now rewrite Hx.
  - unfold rejects in Hy. now rewrite Hy.
Qed.

(** The loop raises what the matcher raises on the first record on which
    it does not answer [false]. *)
Lemma findEntry_loop_raise (entry : value) (pre : list (IDB.key * value))
  (x : IDB.key * value) (post : list (IDB.key * value)) (e : exn) :
  Forall (rejects entry) pre ->
  isEqualIntersection entry (snd x) = Throw e ->
  outcome (findEntry_loop entry (pre ++ x :: post)) = Throw e.
Proof.
  intros Hpre Hx. induction Hpre as [| y pre Hy _ IH]; cbn [app];
    rewrite findEntry_loop_cons.
  - now rewrite Hx.
  - unfold rejects in Hy. now rewrite Hy.
Qed.

(** The calls of [findEntry] when [originalText] is a key: it opens the
    index, iterates over the records under that key, and awaits the end of
    the transaction if the loop returns. *)
Lemma findEntry_key_calls (entry : value) (db : store) (q : IDB.key) :
  to_key (criteria_originalText entry) = Some q ->
  calls (findEntry entry db) =
  ([open_database; begin_transaction readonly; open_index;
    iterate (criteria_originalText entry)] ++
   calls (findEntry_loop entry (candidates q db)) ++
   match outcome (findEntry_loop entry (candidates q db)) with
   | Return _ => [await_done]
   | _ => []
   end)%list.
Proof.
  intros H. unfold findEntry, calls, traced_bind, call.
  cbn [fst snd]. unfold untraced at 1. rewrite originalText_value.
  assert (Hu : criteria_originalText entry <> JUndefined)
    by (intros E; rewrite E in H; discriminate).
  rewrite (index_cursor_key _ _ db H).
  unfold outcome.
  destruct (findEntry_loop entry (candidates q db)) as [log [r|e|]];
    destruct (criteria_originalText entry); try contradiction;
    cbn [fst snd app]; rewrite ?List.app_nil_r; reflexivity.
Qed.

(** Up to its first match the loop reads every record, and none after
    it. *)
Lemma findEntry_loop_first_calls (entry : value)
  (pre : list (IDB.key * value)) (x : IDB.key * value)
  (post : list (IDB.key * value)) :
  Forall (rejects entry) pre ->
  isEqualIntersection entry (snd x) = Return true ->
  calls (findEntry_loop entry (pre ++ x :: post))
  = map (fun r => read_value (fst r)) (pre ++ [x]).
Proof.
  intros Hpre Hx. unfold calls.
  induction Hpre as [| y pre Hy _ IH]; cbn [app findEntry_loop];
    unfold traced_bind, call, untraced; cbn [fst snd].
  - now rewrite Hx.
  - unfold rejects in Hy. rewrite Hy. cbn [fst snd app map].
    now rewrite IH.
Qed.

Lemma findEntry_loop_none (entry : value) (cursor : list (IDB.key * value)) :
  Forall (rejects entry) cursor ->
  outcome (findEntry_loop entry cursor) = Return None.
Proof.
  induction 1 as [| y l Hy _ IH]; [reflexivity|].
  rewrite findEntry_loop_cons.
  unfold rejects in Hy. now rewrite Hy.
Qed.

Lemma findEntry_loop_some (entry : value) (cursor : list (IDB.key * value))
  (r : ITranslationEntryWithKey) :
  outcome (findEntry_loop entry cursor) = Return (Some r) ->
  exists pre x post,
    cursor = (pre ++ x :: post)%list /\ r = with_key x /\
    Forall (rejects entry) pre /\
    isEqualIntersection entry (snd x) = Return true.
Proof.
  induction cursor as [| y l IH]; [discriminate|].
  rewrite findEntry_loop_cons.
  destruct (isEqualIntersection entry (snd y)) as [[|]|e|] eqn:E; simpl.
  - intros [= <-]. exists [], y, l. repeat split; auto.
  - intros H. destruct (IH H) as (pre & x & post & -> & -> & Hpre & Hx).
    exists (y :: pre), x, post. repeat split; auto.
  - discriminate.
  - discriminate.
Qed.

Lemma index_cursor_throws (query : found) (db : store) (e : exn) :
  index_cursor query db = Throw e -> e = DataError.
Proof.
  unfold index_cursor.
  destruct query as [[]| |]; try discriminate;
    destruct (valid_key _); congruence.
Qed.

Lemma findEntry_loop_throws (entry : value) (cursor : list (IDB.key * value))
  (e : exn) :
  outcome (findEntry_loop entry cursor) = Throw e -> e = TypeError.
Proof.
  induction cursor as [| y l IH]; [discriminate|].
  rewrite findEntry_loop_cons.
  destruct (isEqualIntersection entry (snd y)) as [[|]|e'|] eqn:Ey; simpl.
  - discriminate.
  - exact IH.
  - intros [= <-]. eapply isEqualIntersection_throws; eauto.
  - discriminate.
Qed.

(** With [originalText] present, [findEntry] does not raise its own error. *)
Lemma findEntry_present_other (entry : value) (db : store) :
  criteria_originalText entry <> JUndefined ->
  outcome (findEntry entry db) <> Throw originalText_required.
Proof.
  intros H. rewrite (findEntry_present _ _ H).
  destruct (index_cursor (criteria_originalText entry) db)
    as [cursor|e|] eqn:Ec.
  - rewrite bind_return. intros Hl.
    apply findEntry_loop_throws in Hl. discriminate.
  - simpl. intros [= ->].
    apply index_cursor_throws in Ec. discriminate.
  - discriminate.
Qed.

End FindFacts.

(** ** Bulk deletion *)

Module DeleteFacts.
Import JS IDB Matcher Data Shape MatcherFacts StoreFacts FindFacts.
Local Open Scope js_scope.

(** A value that answers a property access has keys. *)
Lemma get_keys (v : value) (k0 : string) (x0 : found) :
  get v k0 = Return x0 -> exists ks, keys v = Return ks.
Proof. destruct v; try discriminate; intros _; simpl; eauto. Qed.

Lemma char_at_lt (s : string) (i : nat) :
  (i < String.length s)%nat -> exists c, char_at s i = Some c.
Proof.
  unfold char_at. revert i. induction s as [| a s IH]; intros i Hi.
  - simpl in Hi. lia.
  - destruct i as [| i]; [now exists a|].
    simpl. apply IH. simpl in Hi. lia.
Qed.

Lemma own_names (f : list (string * value)) (k : string) :
  In k (map fst f) -> exists x, own f k = Some x.
Proof.
  induction f as [| [k' x'] f IH]; [intros []|].
  cbn [map fst own]. destruct (String.eqb k' k) eqn:E; [eauto|].
  intros [H|H]; [|auto].
  subst. rewrite String.eqb_refl in E. discriminate.
Qed.

(** Under one of its keys a value finds a value of its own. *)
Lemma keys_get (v : value) (ks : list string) (k : string) :
  keys v = Return ks -> In k ks ->
  exists x : value, get v k = Return (Data x).
Proof.
  destruct v as [| | b | n | s | l | f]; try discriminate;
    intros [= <-] Hin; try destruct Hin.
  - apply in_map_iff in Hin as (i & <- & Hi). apply in_seq in Hi.
    destruct (char_at_lt s i) as [c Hc]; [lia|].
    rewrite (get_string _ _ _ Hc). eauto.
  - apply in_map_iff in Hin as (i & <- & Hi).
    cbn [get]. rewrite name_index_name. eauto.
  - destruct (own_names _ _ Hin) as [x Hx].
    rewrite (get_object _ _ _ Hx). eauto.
Qed.

Lemma every_returns {A : Type} (f : A -> completion bool) (l : list A) :
  (forall x, In x l -> exists b, f x = Return b) ->
  exists b, every f l = Return b.
Proof.
  induction l as [| x l IH]; intros H; [now exists true|].
  destruct (H x (or_introl eq_refl)) as [b Hb].
  destruct IH as [b' Hb']; [intros y Hy; apply H; now right|].
  simpl. rewrite Hb, bind_return. destruct b; eauto.
Qed.

(** On a record of the index, the test of [deleteEntries] returns. *)
Lemma deleteEntries_test_returns (entry : value) (originalText : found)
  (v : value) (q : IDB.key) :
  get entry "originalText" = Return originalText ->
  index_key v = Some q ->
  exists b, deleteEntries_test entry v = Return b.
Proof.
  intros He Hv.
  destruct (get_keys _ _ _ He) as [ks Hks].
  destruct (indexed_translation _ _ Hv) as (rf & tf & -> & Htr).
  unfold deleteEntries_test. rewrite Hks, bind_return.
  apply every_returns. intros k Hk.
  destruct (keys_get _ _ _ Hks Hk) as [a Ha]. rewrite Ha, bind_return.
  rewrite (get_object _ _ _ Htr), bind_return.
  cbn [get]. rewrite bind_return. cbn [identical]. eauto.
Qed.

Lemma place_by_index_In (r r' : IDB.key * value)
  (sorted : list (IDB.key * value)) :
  In r' (place_by_index r sorted) -> r' = r \/ In r' sorted.
Proof.
  induction sorted as [| x sorted IH]; simpl.
  - intros [H|[]]; auto.
  - destruct (index_key (snd r)), (index_key (snd x));
      try (intros [H|H]; auto).
    destruct (compare k k0); intros [H|H]; auto;
      destruct (IH H); auto.
Qed.

Lemma by_index_key_In (r : IDB.key * value) (recs : list (IDB.key * value)) :
  In r (by_index_key recs) -> In r recs.
Proof.
  unfold by_index_key.
  assert (H : forall acc, In r (fold_left (fun sorted x => place_by_index x sorted)
                                  recs acc) -> In r recs \/ In r acc).
  { induction recs as [| x recs IH]; intros acc; simpl; [auto|].
    intros Hin. destruct (IH _ Hin) as [H|H]; [auto|].
    destruct (place_by_index_In _ _ _ H); subst; auto. }
  intros Hin. destruct (H [] Hin) as [H'|[]]. exact H'.
Qed.

(** The records an index cursor passes are records of the index. *)
Lemma index_cursor_indexed (query : found) (db : store)
  (cursor : list (IDB.key * value)) :
  index_cursor query db = Return cursor ->
  Forall (fun r => exists q, index_key (snd r) = Some q) cursor.
Proof.
  assert (Hall : Forall (fun r => exists q, index_key (snd r) = Some q)
                   (by_index_key (filter indexed (records db)))).
  { apply Forall_forall. intros r Hr. apply by_index_key_In in Hr.
    apply filter_In in Hr as [_ Hr]. unfold indexed in Hr.
    destruct (index_key (snd r)); [eauto | discriminate]. }
  assert (Hkey : forall q,
             Forall (fun r => exists q, index_key (snd r) = Some q)
               (filter (has_index_key q) (records db))).
  { intros q. apply Forall_forall. intros r Hr.
    apply filter_In in Hr as [_ Hr]. unfold has_index_key in Hr.
    destruct (index_key (snd r)); [eauto | discriminate]. }
  unfold index_cursor.
  destruct query as [[]| |]; try (intros [= <-]; exact Hall);
    destruct (valid_key _); try discriminate; intros [= <-]; apply Hkey.
Qed.

Lemma without_nil (db : store) : without [] db = db.
Proof.
  unfold without. simpl. destruct db as [recs g]. cbn [records generator].
  f_equal. induction recs as [| r recs IH]; simpl; congruence.
Qed.

Lemma without_cons (k : IDB.key) (ks : list IDB.key) (db : store) :
  without ks {| records := remove k (records db); generator := generator db |}
  = without (k :: ks) db.
Proof.
  unfold without, remove. cbn [records generator]. f_equal.
  induction (records db) as [| r recs IH]; [reflexivity|].
  cbn [filter existsb].
  destruct (eqb (fst r) k); cbn [negb orb filter]; [exact IH|].
  destruct (existsb (eqb (fst r)) ks); cbn [negb]; now rewrite IH.
Qed.

(** One turn of the loop of [deleteEntries]. *)
Lemma deleteEntries_loop_cons (eng : engine) (entry : value) (k : IDB.key)
  (v : value) (next : list (IDB.key * value)) (st : txstate) (b : bool) :
  deleteEntries_test entry v = Return b ->
  deleteEntries_loop entry ((k, v) :: next) eng st =
  if b then
    if eng (issued st) then
      if eng (S (issued st)) then
        deleteEntries_loop entry next eng
          {| now := {| records := remove k (records (now st));
                       generator := generator (now st) |};
             issued := S (S (issued st));
             aborted := aborted st |}
      else
        (Throw AbortError,
         {| now := {| records := remove k (records (now st));
                      generator := generator (now st) |};
            issued := S (S (issued st));
            aborted := true |})
    else
      (Throw AbortError,
       {| now := now st; issued := S (issued st); aborted := true |})
  else
    if eng (issued st) then
      deleteEntries_loop entry next eng
        {| now := now st; issued := S (issued st); aborted := aborted st |}
    else
      (Throw AbortError,
       {| now := now st; issued := S (issued st); aborted := true |}).
Proof.
  intros Hb. cbn [deleteEntries_loop].
  unfold tx_bind, script, request, tx_ret. rewrite Hb.
  destruct b; destruct (eng (issued st)); cbn [issued now aborted];
    try reflexivity.
  destruct (eng (S (issued st))); reflexivity.
Qed.

(** The loop of [deleteEntries] on any engine: it completes with every
    qualifying record deleted from the working store, or a request failed
    and the transaction is aborted. *)
Lemma deleteEntries_loop_outcome (eng : engine) (entry : value)
  (cursor : list (IDB.key * value)) :
  Forall (fun r => exists b, deleteEntries_test entry (snd r) = Return b)
    cursor ->
  forall st : txstate,
  aborted st = false ->
  (fst (deleteEntries_loop entry cursor eng st) = Return tt /\
   aborted (snd (deleteEntries_loop entry cursor eng st)) = false /\
   now (snd (deleteEntries_loop entry cursor eng st))
   = without (qualifying entry cursor) (now st)) \/
  (exists i,
     fst (deleteEntries_loop entry cursor eng st) = Throw AbortError /\
     aborted (snd (deleteEntries_loop entry cursor eng st)) = true /\
     eng i = false).
Proof.
  induction 1 as [| [k v] next [b Hb] _ IH]; intros st Hst.
  - left. cbn. rewrite without_nil. auto.
  - cbn [snd] in Hb. rewrite (deleteEntries_loop_cons _ _ _ _ _ _ _ Hb).
    assert (Hq : qualifying entry ((k, v) :: next)
                 = if b then k :: qualifying entry next
                   else qualifying entry next).
    { unfold qualifying. cbn [filter snd]. rewrite Hb.
      destruct b; reflexivity. }
    rewrite Hq. clear Hq Hb.
    destruct b.
    + destruct (eng (issued st)) eqn:E1;
        [|right; exists (issued st); auto].
      destruct (eng (S (issued st))) eqn:E2;
        [|right; exists (S (issued st)); auto].
      match goal with
      | |- context [deleteEntries_loop entry next eng ?s] =>
          destruct (IH s Hst) as [(Hr & Ha & Hn)|Hfail]
      end.
      * left. rewrite Hr, Ha, Hn. cbn [now].
        now rewrite without_cons.
      * right. exact Hfail.
    + destruct (eng (issued st)) eqn:E1;
        [|right; exists (issued st); auto].
      match goal with
      | |- context [deleteEntries_loop entry next eng ?s] =>
          destruct (IH s Hst) as [(Hr & Ha & Hn)|Hfail]
      end.
      * left. rewrite Hr, Ha, Hn. auto.
      * right. exact Hfail.
Qed.

(** No value finds a built-in function under [originalText]. *)
Lemma get_originalText (entry : value) :
  get entry "originalText" <> Unknown.
Proof. destruct entry; discriminate. Qed.

(** The outcome of [deleteEntries] on any engine: every qualifying record
    is removed; or a request failed and the store is as it was; or the
    criteria or the index raised, before any deletion, and the store is as
    it was. *)
Lemma deleteEntries_on_outcome (eng : engine) (entry : value) (db : store) :
  deleteEntries_on eng entry db
  = (Return tt, without (to_delete entry db) db) \/
  (deleteEntries_on eng entry db = (Throw AbortError, db) /\
   exists i, eng i = false) \/
  (exists e, deleteEntries_on eng entry db = (Throw e, db) /\
             (get entry "originalText" = Throw e \/
              exists originalText,
                get entry "originalText" = Return originalText /\
                index_cursor originalText db = Throw e)).
Proof.
  unfold deleteEntries_on, transaction, to_delete.
  unfold tx_bind, script, request. cbv beta.
  destruct (get entry "originalText") as [originalText|e|] eqn:Eo.
  2:{ right. right. exists e. cbn [aborted issued now].
      split; [destruct (eng 0%nat); reflexivity | auto]. }
  2:{ now destruct (get_originalText entry). }
  cbn [now].
  destruct (index_cursor originalText db) as [cursor|e|] eqn:Ec.
  2:{ right. right. exists e. cbn [aborted issued now].
      split; [destruct (eng 0%nat); reflexivity | eauto]. }
  2:{ unfold index_cursor in Ec.
      destruct originalText as [[]| |]; try discriminate;
        destruct (valid_key _); discriminate. }
  cbn [issued now aborted].
  destruct (eng 0%nat) eqn:E0.
  2:{ right. left. cbn [aborted]. split; [reflexivity | eauto]. }
  assert (Htests : Forall (fun r => exists b,
                             deleteEntries_test entry (snd r) = Return b)
                     cursor).
  { eapply Forall_impl; [|exact (index_cursor_indexed _ _ _ Ec)].
    intros r [q Hq]. eapply deleteEntries_test_returns; eauto. }
  match goal with
  | |- context [deleteEntries_loop entry cursor eng ?s] =>
      destruct (deleteEntries_loop_outcome eng entry cursor Htests s eq_refl)
        as [(Hr & Ha & Hn)|(i & Hr & Ha & Hi)];
      destruct (deleteEntries_loop entry cursor eng s) as [r st']
  end; cbn [fst snd] in *; subst r; rewrite Ha.
  - destruct (eng (issued st')) eqn:E.
    + left. now rewrite Hn.
    + right. left. split; [reflexivity | eauto].
  - right. left. split; [reflexivity | eauto].
Qed.

(** On an engine that fails no request, [deleteEntries] deletes the
    qualifying records whenever the index accepts the criteria's
    [originalText]. *)
Lemma deleteEntries_unfailing (eng : engine) (entry : value)
  (originalText : found) (db : store) (cursor : list (IDB.key * value)) :
  (forall i, eng i = true) ->
  get entry "originalText" = Return originalText ->
  index_cursor originalText db = Return cursor ->
  deleteEntries_on eng entry db
  = (Return tt, without (qualifying entry cursor) db).
Proof.
  intros Heng Ho Hc.
  destruct (deleteEntries_on_outcome eng entry db)
    as [H|[(_ & i & Hi)|(e & H & [H'|(o & H1 & H2)])]].
  - rewrite H. unfold to_delete. now rewrite Ho, Hc.
  - rewrite Heng in Hi. discriminate.
  - congruence.
  - congruence.
Qed.

Lemma deleteEntries_reliable (entry : value) (originalText : found)
  (db : store) (cursor : list (IDB.key * value)) :
  get entry "originalText" = Return originalText ->
  index_cursor originalText db = Return cursor ->
  deleteEntries entry db = (Return tt, without (qualifying entry cursor) db).
Proof.
  intros Ho Hc. unfold deleteEntries.
  now apply (deleteEntries_unfailing reliable entry originalText).
Qed.

(** The test of [deleteEntries] is the member-wise [===] of the criteria
    and the record's [translation]. *)
Lemma deleteEntries_test_every (v : value) (tf : list (string * value))
  (f pre : list (string * value)) :
  get v "translation" = Return (Data (JObj tf)) ->
  distinct (map fst (pre ++ f)) = true ->
  every (fun key =>
           a <- get (JObj (pre ++ f)) key ;;
           translation <- get v "translation" ;;
           b <- get translation key ;;
           identical a b) (map fst f)
  = Return (forallb (fun kv => strict_equals (snd kv) (member tf (fst kv))) f).
Proof.
  intros Htr. rewrite Htr. revert pre.
  induction f as [| [k x] f IH]; intros pre Hd; [reflexivity|].
  cbn [map fst snd every forallb].
  rewrite map_app in Hd. cbn [map fst] in Hd.
  assert (Hown : own (pre ++ (k, x) :: f) k = Some x).
  { rewrite own_app, (distinct_app_head pre k _ Hd).
    cbn [own]. now rewrite String.eqb_refl. }
  rewrite (get_object _ _ _ Hown), !bind_return.
  change (get (Data (JObj tf)) k) with (Return (member tf k)).
  rewrite bind_return.
  change (identical (Data x) (member tf k))
    with (Return (strict_equals x (member tf k))).
  rewrite bind_return.
  specialize (IH (pre ++ [(k, x)])%list).
  rewrite <- List.app_assoc in IH. cbn [app] in IH.
  rewrite IH by (rewrite map_app; exact Hd).
  destruct (strict_equals x (member tf k)); reflexivity.
Qed.

Lemma deleteEntries_test_shallow (cf tf : list (string * value)) (v : value) :
  distinct (map fst cf) = true ->
  get v "translation" = Return (Data (JObj tf)) ->
  deleteEntries_test (JObj cf) v
  = Return (forallb (fun kv => strict_equals (snd kv) (member tf (fst kv))) cf).
Proof.
  intros Hd Htr. unfold deleteEntries_test. cbn [keys]. rewrite bind_return.
  exact (deleteEntries_test_every v tf cf [] Htr Hd).
Qed.

(** Whether [deleteEntries] leaves a record in the store. *)
Lemma deleteEntries_removes (entry originalText : value) (db : store)
  (q k : IDB.key) (v : value) :
  get entry "originalText" = Return (Data originalText) ->
  to_key originalText = Some q ->
  In (k, v) (records db) ->
  (forall r, In r (records db) -> eqb k (fst r) = true -> r = (k, v)) ->
  has_index_key q (k, v) = true ->
  (~ In (k, v) (records (snd (deleteEntries entry db))) <->
   deleteEntries_test entry v = Return true).
Proof.
  intros Ho Hq Hin Huniq Hidx.
  rewrite (deleteEntries_reliable _ _ _ _ Ho (index_cursor_key _ _ db Hq)).
  cbn [snd]. unfold without. cbn [records]. rewrite filter_In. cbn [fst].
  set (ks := qualifying entry (candidates q db)).
  assert (Hks : existsb (eqb k) ks = true <->
                deleteEntries_test entry v = Return true).
  { unfold ks, qualifying. rewrite existsb_exists. split.
    - intros (k' & Hk' & He). apply in_map_iff in Hk' as (r & <- & Hr).
      apply filter_In in Hr as [Hr Ht].
      apply filter_In in Hr as [Hr _].
      rewrite (Huniq r Hr He) in Ht. cbn [snd] in Ht.
      destruct (deleteEntries_test entry v) as [[|]| |]; congruence.
    - intros Ht. exists k. split; [|apply eqb_refl].
      apply in_map_iff. exists (k, v). split; [reflexivity|].
      apply filter_In. split.
      + apply filter_In. auto.
      + cbn [snd]. now rewrite Ht. }
  rewrite <- Hks.
  destruct (existsb (eqb k) ks); cbn [negb]; split.
  - reflexivity.
  - intros _ [_ H']. discriminate.
  - intros H. exfalso. apply H. auto.
  - discriminate.
Qed.

(** [deleteEntries] keeps the invariant of a store of generated keys. *)
Lemma store_ok_deleteEntries (eng : engine) (entry : value) (db : store) :
  store_ok db -> store_ok (snd (deleteEntries_on eng entry db)).
Proof.
  intros H.
  destruct (deleteEntries_on_outcome eng entry db)
    as [E|[(E & _)|(e & E & _)]];
    rewrite E; cbn [snd]; [|exact H|exact H].
  exact (store_ok_filter
           (fun k => negb (existsb (eqb k) (to_delete entry db))) db H).
Qed.

(** In a store of generated keys a key names one record. *)
Lemma ascending_below_unique (g : Z) (recs : list (IDB.key * value))
  (k : IDB.key) (v : value) :
  ascending_below g (map fst recs) ->
  In (k, v) recs ->
  forall r, In r recs -> eqb k (fst r) = true -> r = (k, v).
Proof.
  induction recs as [| [k0 v0] recs IH]; [intros _ []|].
  intros Hasc Hin r Hr He.
  pose proof Hasc as Hhead. cbn [map fst] in Hhead.
  destruct k0 as [z0| |]; try (simpl in Hhead; contradiction).
  apply ascending_below_head in Hhead.
  assert (Hrest : ascending_below g (map fst recs)) by apply Hasc.
  assert (Hne : forall k' v', In (k', v') recs ->
                eqb (KNum z0) k' = false /\ eqb k' (KNum z0) = false).
  { intros k' v' Hk'.
    pose proof (proj1 (Forall_forall _ _) Hhead k'
                  (in_map fst _ _ Hk')) as Hlt.
    unfold IDB.lt in Hlt. unfold eqb. rewrite Hlt.
    split; [reflexivity|].
    destruct k' as [z'| |]; try reflexivity.
    simpl in Hlt |- *.
    assert (Hz : z0 < z') by exact Hlt.
    replace (z' ?= z0) with Gt
      by (symmetry; apply Z.compare_gt_iff; exact Hz).
    reflexivity. }
  destruct Hin as [Hin|Hin], Hr as [Hr|Hr].
  - congruence.
  - injection Hin as <- <-. destruct r as [k' v'].
    destruct (Hne k' v' Hr) as [H1 _]. cbn [fst] in He. congruence.
  - subst r. cbn [fst] in He.
    destruct (Hne k v Hin) as [_ H2]. congruence.
  - now apply IH.
Qed.

Lemma store_ok_unique (db : store) (k : IDB.key) (v : value) :
  store_ok db ->
  In (k, v) (records db) ->
  forall r, In r (records db) -> eqb k (fst r) = true -> r = (k, v).
Proof. intros [_ H]. eapply ascending_below_unique. exact H. Qed.

End DeleteFacts.

(** ** Arrays *)

Module ArrayFacts.
Import JS IDB Matcher Data Shape.

(** [isEqual] on two arrays: the same length, and the elements equal one by
    one, in order. *)
Lemma isEqual_elements (a b : list value) :
  isEqual (JArr a) (JArr b) = true <->
  Forall2 (fun x y => isEqual x y = true) a b.
Proof.
  cbn [isEqual]. revert b.
  induction a as [| x a IH]; intros [| y b].
  - split; [constructor | reflexivity].
  - split; [discriminate | intros H; inversion H].
  - split; [discriminate | intros H; inversion H].
  - split; intros H.
    + apply andb_prop in H as [Hx Hrest].
      constructor; [exact Hx | now apply IH].
    + inversion H as [| ? ? ? ? Hx Hrest]; subst.
      apply andb_true_intro. split; [exact Hx | now apply IH].
Qed.

(** On arrays of numbers that is equality of the sequences. *)
Lemma numbers_equal (xs ys : list Z) :
  Forall2 (fun x y => isEqual x y = true) (map num xs) (map num ys) <->
  xs = ys.
Proof.
  revert ys. induction xs as [| x xs IH]; intros [| y ys]; cbn [map].
  - split; [reflexivity | constructor].
  - split; [intros H; inversion H | discriminate].
  - split; [intros H; inversion H | discriminate].
  - split; intros H.
    + inversion H as [| ? ? ? ? Hxy Hrest]; subst.
      apply IH in Hrest. cbn in Hxy. apply Z.eqb_eq in Hxy. congruence.
    + injection H as -> ->. constructor; [cbn; apply Z.eqb_refl|].
      now apply IH.
Qed.

End ArrayFacts.

(** ** Pagination *)

Import JS IDB Matcher Data Shape MatcherFacts StoreFacts.

(** C5, as stated, fails: an offset beyond the size of the collection does
    not always give the empty sequence.  [getEntries] hands the offset to
    [cursor.advance], which accepts counts up to [2 ^ 32 - 1] only: on a
    store with records, a larger offset raises a [TypeError], also with the
    limit [0]. *)
Lemma getEntries_offset_counterexample :
  size sample = 3 /\
  getEntries (Some (Fin 4294967296)) None None sample = Throw TypeError /\
  getEntries (Some (Fin 4294967296)) (Some (Fin 0)) None sample
  = Throw TypeError.
Proof. repeat split. Qed.

(** C5, amended.  Pagination completeness and ordering.  On a store whose
    records are in ascending key order and number [N]:
    [getEntries(0, N, 'desc')] returns all the records, in strictly
    decreasing key order; [getEntries] without offset and limit in order
    ['asc'] returns all of them in strictly increasing key order; for every
    [k <= N] that [advance] accepts and either order, the pages
    [getEntries(0, k)] and [getEntries(k, N - k)] are returned and
    concatenate to what [getEntries(0, N)] returns; an offset at or beyond
    [N] gives the empty sequence when it is at most [2 ^ 32 - 1] or the store
    is empty, and is refused with a [TypeError] otherwise; and the limit [0]
    gives the empty sequence for every offset that is not so refused. *)
Theorem getEntries_pagination (db : store) :
  ascending (store_keys db) ->
  let N := size db in
  (getEntries (Some (Fin 0)) (Some (Fin N)) (Some desc) db
     = Return (map with_key (rev (records db))) /\
   descending (map key (map with_key (rev (records db))))) /\
  (getEntries None None (Some asc) db = Return (map with_key (records db)) /\
   ascending (map key (map with_key (records db)))) /\
  (forall (k : Z) (options : option order),
     0 <= k <= N -> k <= advance_max ->
     exists first second,
       getEntries (Some (Fin 0)) (Some (Fin k)) options db = Return first /\
       getEntries (Some (Fin k)) (Some (Fin (N - k))) options db
       = Return second /\
       getEntries (Some (Fin 0)) (Some (Fin N)) options db
       = Return (first ++ second)%list) /\
  (forall (from : Z) (limit : option number) (options : option order),
     N <= from ->
     (from <= advance_max \/ N = 0 ->
      getEntries (Some (Fin from)) limit options db = Return []) /\
     (advance_max < from -> 0 < N ->
      getEntries (Some (Fin from)) limit options db = Throw TypeError)) /\
  (forall (from : option number) (options : option order),
     overflows from = false \/ N = 0 ->
     getEntries from (Some (Fin 0)) options db = Return []).
Proof.
  intros Hasc N.
  assert (Hlen : forall options,
             List.length (in_order options db) = Z.to_nat N).
  { intros [[|]|]; unfold in_order, N, size;
      rewrite ?length_rev, Nat2Z.id; reflexivity. }
  assert (Hall : forall options,
             getEntries (Some (Fin 0)) (Some (Fin N)) options db
             = Return (map with_key (in_order options db))).
  { intros options. rewrite getEntries_page by reflexivity.
    cbn [skip take Z.ltb Z.compare].
    rewrite <- (Hlen options), firstn_all. reflexivity. }
  assert (Hnil : N = 0 -> records db = []).
  { unfold N, size. intros H. apply length_zero_iff_nil. lia. }
  split; [|split; [|split; [|split]]].
  - split; [apply Hall|].
    rewrite key_with_key, map_rev. apply sorted_rev. exact Hasc.
  - split; [now rewrite getEntries_page|].
    rewrite key_with_key. exact Hasc.
  - intros k options Hk Hmax.
    set (l := in_order options db).
    exists (map with_key (firstn (Z.to_nat k) l)),
           (map with_key (skipn (Z.to_nat k) l)).
    split; [|split].
    + now rewrite getEntries_page.
    + rewrite getEntries_page
        by (cbn [overflows]; apply Z.ltb_ge; exact Hmax).
      fold l. cbn [take].
      assert (Hs : skip (Some (Fin k)) l = skipn (Z.to_nat k) l).
      { unfold skip. destruct (0 <? k) eqn:E; [reflexivity|].
        apply Z.ltb_ge in E. now replace k with 0 by lia. }
      rewrite Hs, firstn_all2; [reflexivity|].
      rewrite length_skipn. unfold l. rewrite Hlen. lia.
    + rewrite Hall. fold l. now rewrite <- map_app, firstn_skipn.
  - intros from limit options Hfrom. split.
    + intros [Hmax|H0].
      * rewrite getEntries_page
          by (cbn [overflows]; apply Z.ltb_ge; exact Hmax).
        assert (Hs : skip (Some (Fin from)) (in_order options db) = []).
        { cbn [skip]. destruct (0 <? from) eqn:E.
          - apply skipn_all2. rewrite Hlen. lia.
          - apply Z.ltb_ge in E. apply length_zero_iff_nil.
            rewrite Hlen. unfold N, size in *. lia. }
        rewrite Hs. destruct limit as [[|l]|]; cbn [take];
          rewrite ?firstn_nil; reflexivity.
      * now apply getEntries_empty, Hnil.
    + intros Hmax HN. apply getEntries_refused.
      * cbn [overflows]. now apply Z.ltb_lt.
      * intros H. unfold N, size in HN. rewrite H in HN. simpl in HN. lia.
  - intros from options [Hfit|H0].
    + now rewrite getEntries_page.
    + now apply getEntries_empty, Hnil.
Qed.

Lemma getEntries_pagination_witness :
  ascending (store_keys sample) /\
  getEntries (Some (Fin 0)) (Some (Fin 3)) (Some desc) sample
  = Return (map with_key (rev (records sample))) /\
  exists first second,
    getEntries (Some (Fin 0)) (Some (Fin 1)) None sample = Return first /\
    getEntries (Some (Fin 1)) (Some (Fin 2)) None sample = Return second /\
    getEntries (Some (Fin 0)) (Some (Fin 3)) None sample
    = Return (first ++ second)%list.
Proof.
  assert (H : ascending (store_keys sample))
    by (repeat constructor).
  split; [exact H|].
  split.
  - exact (proj1 (proj1 (getEntries_pagination sample H))).
  - apply (proj1 (proj2 (proj2 (getEntries_pagination sample H))) 1 None).
    + vm_compute. split; discriminate.
    + vm_compute. discriminate.
Defined.

(** ** Partial matching *)

(** C3.  On two primitives the matcher is to be [===], and on [null] and
    [null] it is to return [true].  The code takes the primitive branch only
    when [typeof] of neither operand is ['object'], which [null] fails: on
    [null] and [null], where [===] holds, it reaches [Object.keys(null)] and
    throws a [TypeError]. *)
Theorem isEqualIntersection_null_null :
  primitive JNull = true /\
  strict_equals JNull JNull = true /\
  isEqualIntersection JNull JNull = Throw TypeError.
Proof. repeat split. Qed.

(** The same guard lets a number match [null], to which it is not [===],
    and lets the comparison of [null] with an absent member throw. *)
Example isEqualIntersection_beside_null :
  (strict_equals (num 1) JNull = false /\
   isEqualIntersection (num 1) JNull = Return true) /\
  (strict_equals JNull JUndefined = false /\
   isEqualIntersection JNull JUndefined = Throw TypeError).
Proof. repeat split. Qed.

(** C4.  Partial matching is one-directional on objects and compares arrays
    in full and in order: [{a:1}] matches [{a:1,b:2}], [{a:1,b:2}] does not
    match [{a:1}], [[1,2]] does not match [[1,2,3]] nor [[2,1]]; two arrays
    match exactly when they have the same length and their elements are
    equal one by one, in order, by [isEqual]; two arrays of numbers match
    exactly when they are the same sequence; and two values of which exactly
    one is an array never match. *)
Theorem isEqualIntersection_asymmetry :
  isEqualIntersection (JObj [("a", num 1)]) (JObj [("a", num 1); ("b", num 2)])
    = Return true /\
  isEqualIntersection (JObj [("a", num 1); ("b", num 2)]) (JObj [("a", num 1)])
    = Return false /\
  isEqualIntersection (JArr [num 1; num 2]) (JArr [num 1; num 2; num 3])
    = Return false /\
  isEqualIntersection (JArr [num 1; num 2]) (JArr [num 2; num 1])
    = Return false /\
  (forall a b : list value,
     exists r,
       isEqualIntersection (JArr a) (JArr b) = Return r /\
       (r = true <-> Forall2 (fun x y => isEqual x y = true) a b)) /\
  (forall xs ys : list Z,
     isEqualIntersection (JArr (map num xs)) (JArr (map num ys)) = Return true
     <-> xs = ys) /\
  (forall a b : value,
     xorb (isArray a) (isArray b) = true ->
     isEqualIntersection a b = Return false).
Proof.
  split; [reflexivity|]. split; [reflexivity|]. split; [reflexivity|].
  split; [reflexivity|]. split; [|split].
  - intros a b. eexists. split; [apply isEqualIntersection_arrays|].
    apply ArrayFacts.isEqual_elements.
  - intros xs ys. rewrite isEqualIntersection_arrays.
    split.
    + intros [= H]. apply ArrayFacts.isEqual_elements in H.
      now apply ArrayFacts.numbers_equal.
    + intros ->. f_equal. apply ArrayFacts.isEqual_elements.
      now apply ArrayFacts.numbers_equal.
  - exact isEqualIntersection_one_array.
Qed.

Lemma isEqualIntersection_asymmetry_witness :
  xorb (isArray (JArr [num 1])) (isArray (JObj [("0", num 1)])) = true /\
  isEqualIntersection (JArr [num 1]) (JObj [("0", num 1)]) = Return false.
Proof.
  split; [reflexivity|].
  apply (proj2 (proj2 (proj2 (proj2 (proj2 (proj2
           isEqualIntersection_asymmetry)))))).
  reflexivity.
Defined.

(** C10, as stated, fails: the number [5] has no enumerable keys and the
    number [6] is not an array, yet [5] does not match [6]; two scalars are
    compared with [===]. *)
Lemma vacuous_match_counterexample :
  keys (num 5) = Return [] /\
  isArray (num 6) = false /\
  isEqualIntersection (num 5) (num 6) = Return false.
Proof. repeat split. Qed.

(** C10, amended.  A criterion without enumerable keys that is not an array
    matches every candidate that is not an array, provided one of the two is
    an object or [null]: the empty object matches every such candidate,
    primitives included, and a number or a boolean matches every object and
    [null]. *)
Theorem vacuous_match (c v : value) :
  keys c = Return [] ->
  isArray c = false ->
  isArray v = false ->
  typeof_object c || typeof_object v = true ->
  isEqualIntersection c v = Return true.
Proof.
  intros Hk Hc Hv Ho.
  destruct c as [| | b | n | s | l | f]; try discriminate.
  - destruct v; try discriminate; reflexivity.
  - destruct v; try discriminate; reflexivity.
  - destruct s as [| a s]; [|discriminate].
    destruct v; try discriminate; reflexivity.
  - destruct f as [| kv f]; [|discriminate].
    destruct v; try discriminate; reflexivity.
Qed.

Lemma vacuous_match_witness :
  isEqualIntersection (JObj []) (JStr "text") = Return true /\
  isEqualIntersection (num 5) (JObj [("a", num 1)]) = Return true.
Proof.
  split.
  - apply (vacuous_match (JObj []) (JStr "text")); reflexivity.
  - apply (vacuous_match (num 5) (JObj [("a", num 1)])); reflexivity.
Defined.

(** ** Lookup by criteria *)

(** C2, as stated, fails: with [originalText] present the lookup can raise
    where no record matches.  Here [originalText] is [null], which the
    index takes for "every record": the matcher is run on the first record
    of the index and throws on comparing [null]; no record of the store
    matches the criteria. *)
Lemma findEntry_present_counterexample :
  let criteria := JObj [("translation", JObj [("originalText", JNull)])] in
  criteria_originalText criteria = JNull /\
  Forall (fun r : IDB.key * value =>
            isEqualIntersection criteria (snd r) <> Return true)
    (records sample) /\
  outcome (findEntry criteria sample) = Throw TypeError.
Proof.
  split; [reflexivity|]. split; [|reflexivity].
  repeat constructor; discriminate.
Qed.

(** C2, amended.  When the criteria's [translation.originalText] holds a
    valid key, [findEntry] considers only the records whose [originalText]
    is that key (stores with the same such records give the same outcome),
    and tests the matcher on the criteria and the whole stored entry, record
    by record in index order.  It returns the first record on which the
    matcher answers [true], having read the records up to that one and none
    after it, provided the matcher answered [false] on every record before;
    it raises what the matcher raises on the first record on which it does
    not answer [false]; and it returns [null] when the matcher answers
    [false] on all of them. *)
Theorem findEntry_first_match (entry : value) (db : store) (q : IDB.key) :
  to_key (criteria_originalText entry) = Some q ->
  (forall db' : store,
     candidates q db' = candidates q db ->
     findEntry entry db' = findEntry entry db) /\
  (forall r, In r (candidates q db) <->
             In r (records db) /\ has_index_key q r = true) /\
  (forall pre x post,
     candidates q db = (pre ++ x :: post)%list ->
     Forall (rejects entry) pre ->
     isEqualIntersection entry (snd x) = Return true ->
     outcome (findEntry entry db) = Return (Some (with_key x)) /\
     calls (findEntry entry db)
     = ([open_database; begin_transaction readonly; open_index;
         iterate (criteria_originalText entry)] ++
        map (fun r => read_value (fst r)) (pre ++ [x]) ++
        [await_done])%list) /\
  (forall pre x post e,
     candidates q db = (pre ++ x :: post)%list ->
     Forall (rejects entry) pre ->
     isEqualIntersection entry (snd x) = Throw e ->
     outcome (findEntry entry db) = Throw e) /\
  (Forall (rejects entry) (candidates q db) ->
   outcome (findEntry entry db) = Return None) /\
  (forall r,
     outcome (findEntry entry db) = Return (Some r) ->
     exists pre x post,
       candidates q db = (pre ++ x :: post)%list /\ r = with_key x /\
       Forall (rejects entry) pre /\
       isEqualIntersection entry (data r) = Return true).
Proof.
  intros Hq. split; [|split; [|split; [|split; [|split]]]].
  - intros db' H. apply injective_projections.
    + change (calls (findEntry entry db') = calls (findEntry entry db)).
      now rewrite !(FindFacts.findEntry_key_calls _ _ _ Hq), H.
    + change (outcome (findEntry entry db') = outcome (findEntry entry db)).
      now rewrite !(FindFacts.findEntry_key _ _ _ Hq), H.
  - intros r. apply filter_In.
  - intros pre x post Hc Hpre Hx.
    assert (Ho : outcome (findEntry_loop entry (candidates q db))
                 = Return (Some (with_key x))).
    { rewrite Hc. now apply FindFacts.findEntry_loop_first. }
    split.
    + now rewrite (FindFacts.findEntry_key _ _ _ Hq).
    + rewrite (FindFacts.findEntry_key_calls _ _ _ Hq), Ho, Hc.
      now rewrite (FindFacts.findEntry_loop_first_calls _ _ _ _ Hpre Hx).
  - intros pre x post e Hc Hpre Hx.
    rewrite (FindFacts.findEntry_key _ _ _ Hq), Hc.
    now apply FindFacts.findEntry_loop_raise.
  - intros H. rewrite (FindFacts.findEntry_key _ _ _ Hq).
    now apply FindFacts.findEntry_loop_none.
  - intros r H. rewrite (FindFacts.findEntry_key _ _ _ Hq) in H.
    destruct (FindFacts.findEntry_loop_some _ _ _ H)
      as (pre & x & post & Hc & -> & Hpre & Hx).
    exists pre, x, post. auto.
Qed.

(** The loop stops at the first match: the second candidate, on which the
    matcher would throw, is not read. *)
Example findEntry_stops_at_first_match :
  let criteria :=
    JObj [("translation", JObj [("originalText", JStr "x")]);
          ("translator", JStr "g")] in
  map fst (candidates (KStr "x") mixed) = [KNum 1; KNum 2] /\
  (exists v, lookup (KNum 2) (records mixed) = Some v /\
             isEqualIntersection criteria v = Throw TypeError) /\
  option_map key
    match outcome (findEntry criteria mixed) with
    | Return r => r
    | _ => None
    end = Some (KNum 1) /\
  calls (findEntry criteria mixed)
  = [open_database; begin_transaction readonly; open_index;
     iterate (JStr "x"); read_value (KNum 1); await_done].
Proof.
  split; [reflexivity|]. split; [|split; reflexivity].
  eexists. split; reflexivity.
Qed.

Lemma findEntry_first_match_witness :
  to_key (criteria_originalText
            (JObj [("translation", translation_of "x" "fr")]))
  = Some (KStr "x") /\
  exists x,
    outcome (findEntry (JObj [("translation", translation_of "x" "fr")])
               sample)
    = Return (Some x) /\ key x = KNum 2.
Proof.
  split; [reflexivity|].
  eexists. split.
  - refine (proj1 (proj1 (proj2 (proj2
      (findEntry_first_match
         (JObj [("translation", translation_of "x" "fr")]) sample (KStr "x")
         eq_refl)))
      [(KNum 1, JObj (entry_of "x" "en" 1 ++ [("id", num 1)]))]
      (KNum 2, JObj (entry_of "x" "fr" 2 ++ [("id", num 2)])) [] _ _ _)).
    + reflexivity.
    + repeat constructor.
    + reflexivity.
  - reflexivity.
Defined.

(** C8, as stated, fails: with [originalText] present, [findEntry] still
    raises when the index refuses [originalText] as a key (here a boolean),
    and when the comparison of a candidate raises (here on a criterion member
    that is [null]). *)
Lemma findEntry_raises_counterexample :
  (criteria_originalText
     (JObj [("translation", JObj [("originalText", JBool true)])])
   = JBool true /\
   outcome
     (findEntry (JObj [("translation", JObj [("originalText", JBool true)])])
        sample)
   = Throw DataError) /\
  (criteria_originalText
     (JObj [("translation", JObj [("originalText", JStr "x")]);
            ("translator", JNull)])
   = JStr "x" /\
   outcome
     (findEntry
        (JObj [("translation", JObj [("originalText", JStr "x")]);
               ("translator", JNull)]) sample)
   = Throw TypeError).
Proof. repeat split. Qed.

(** C8, amended.  [findEntry] raises its error
    ['Parameter `originalText` is required to search'] exactly when the
    criteria's [translation.originalText] is absent.  It then has called
    [getDB()] and begun a read-only transaction and nothing else: the error
    is raised before the index is opened and before any record is read or
    compared.  When [originalText] is a string, the criteria and the stored
    entries have the declared shape (a flat [translation] of scalars,
    scalars elsewhere) and no member of the criteria is named [__proto__],
    [findEntry] raises nothing: it returns a record or [null]. *)
Theorem findEntry_errors (entry : value) (db : store) :
  (criteria_originalText entry = JUndefined <->
   outcome (findEntry entry db) = Throw originalText_required) /\
  (criteria_originalText entry = JUndefined ->
   calls (findEntry entry db) = [open_database; begin_transaction readonly]) /\
  (forall s : string,
     criteria_originalText entry = JStr s ->
     entry_shape entry = true ->
     ordinary entry = true ->
     Forall (fun r => entry_shape (snd r) = true) (records db) ->
     exists result, outcome (findEntry entry db) = Return result).
Proof.
  split; [split|split].
  - apply FindFacts.findEntry_absent.
  - intros H.
    destruct (criteria_originalText entry) eqn:E; try reflexivity;
      exfalso; apply (FindFacts.findEntry_present_other entry db);
      try exact H; rewrite E; discriminate.
  - apply FindFacts.findEntry_absent_calls.
  - intros s Hs Hshape Hord Hdb.
    rewrite (FindFacts.findEntry_key entry db (KStr s))
      by (rewrite Hs; reflexivity).
    unfold candidates.
    induction (records db) as [| r l IH]; [now exists None|].
    inversion Hdb as [| ? ? Hr Hl]; subst.
    cbn [filter]. destruct (has_index_key (KStr s) r) eqn:Ei; [|auto].
    destruct (IH Hl) as [result Hres].
    unfold has_index_key in Ei.
    destruct (index_key (snd r)) as [q|] eqn:Eq; [|discriminate].
    destruct (FindFacts.indexed_translation _ _ Eq) as (rf & tf & Hv & Htr).
    destruct entry as [| | | | | | ef]; try discriminate.
    rewrite Hv in Hr.
    destruct (FindFacts.isEqualIntersection_entries ef rf tf Hshape Hord Hr
                Htr) as [b Hb].
    rewrite FindFacts.findEntry_loop_cons, Hv, Hb, bind_return.
    destruct b; eauto.
Qed.

Lemma findEntry_errors_witness :
  criteria_originalText (JObj [("translation", translation_of "z" "en")])
  = JStr "z" /\
  exists result,
    outcome (findEntry (JObj [("translation", translation_of "z" "en")])
               sample)
    = Return result.
Proof.
  split; [reflexivity|].
  apply (proj2 (proj2
    (findEntry_errors (JObj [("translation", translation_of "z" "en")])
       sample)) "z").
  - reflexivity.
  - reflexivity.
  - reflexivity.
  - repeat constructor.
Defined.

(** ** Single records *)

(** C9.  Deletion finality.  For every key [k], [deleteEntry(k)] completes
    without error and [getEntry(k)] is absent afterwards; repeating it
    completes without error and changes nothing; and on a store with no
    record under [k] it completes without error and leaves the store as it
    was. *)
Theorem deleteEntry_final (k : IDB.key) (db : store) :
  let db' := snd (deleteEntry (of_key k) db) in
  fst (deleteEntry (of_key k) db) = Return tt /\
  getEntry (of_key k) db' = Return JUndefined /\
  deleteEntry (of_key k) db' = (Return tt, db') /\
  (lookup k (records db) = None ->
   deleteEntry (of_key k) db = (Return tt, db)).
Proof.
  unfold deleteEntry, getEntry. rewrite to_key_of_key. cbn [fst snd records].
  rewrite lookup_remove.
  repeat split.
  - rewrite (remove_absent k (remove k (records db)))
      by apply lookup_remove.
    reflexivity.
  - intros H. rewrite (remove_absent _ _ H). now destruct db.
Qed.

Lemma deleteEntry_final_witness :
  lookup (KNum 7) (records sample) = None /\
  deleteEntry (num 7) sample = (Return tt, sample).
Proof.
  split; [reflexivity|].
  apply (proj2 (proj2 (proj2 (deleteEntry_final (KNum 7) sample)))).
  reflexivity.
Defined.

(** C6, as stated, fails: the store writes the generated key into the
    stored clone under [id], the key path of the store, so the record read
    back is not the entry that was added. *)
Lemma round_trip_counterexample :
  exists (k : IDB.key) (db' : store),
    addEntry (entry_of "x" "en" 1) empty = (Return k, db') /\
    getEntry (of_key k) db' <> Return (JObj (entry_of "x" "en" 1)).
Proof.
  eexists. eexists. split; [reflexivity|]. discriminate.
Qed.

(** C6, amended.  On a store all of whose keys came from the key generator
    (number keys in ascending order below the generator's current number),
    for every entry [e] that carries no [id]: while the generator has not
    passed [2 ^ 53], [addEntry(e)] returns the key assigned to the new
    record, a key no record had, [getEntry] of that key returns [e] with
    every member unchanged and, after them, the member [id] holding the key,
    and the store is again such a store; once the generator has passed
    [2 ^ 53], [addEntry(e)] raises a [ConstraintError] and the store is as
    it was. *)
Theorem addEntry_getEntry (e : list (string * value)) (db : store) :
  store_ok db ->
  own e "id" = None ->
  let k := KNum (generator db) in
  let db' := snd (addEntry e db) in
  (generator db <= generator_limit ->
   fst (addEntry e db) = Return k /\
   lookup k (records db) = None /\
   getEntry (of_key k) db' = Return (JObj (e ++ [("id", of_key k)])) /\
   store_ok db') /\
  (generator_limit < generator db ->
   addEntry e db = (Throw ConstraintError, db)).
Proof.
  intros Hok He k db'. split.
  - intros Hlim.
    assert (Hdb' : store_ok db') by now apply store_ok_addEntry.
    unfold db'. rewrite (addEntry_generated _ _ Hok He Hlim).
    destruct Hok as [Hg H].
    split; [reflexivity|]. split; [now apply lookup_fresh|].
    split; [|unfold db' in Hdb';
             now rewrite (addEntry_generated _ _ (conj Hg H) He Hlim)
               in Hdb'].
    unfold getEntry. cbn [snd records]. fold k.
    rewrite to_key_of_key. unfold k. now rewrite (lookup_last _ _ _ H).
  - now apply addEntry_exhausted.
Qed.

Lemma addEntry_getEntry_witness :
  store_ok sample /\
  own (entry_of "z" "de" 4) "id" = None /\
  getEntry (num 4) (snd (addEntry (entry_of "z" "de" 4) sample))
  = Return (JObj (entry_of "z" "de" 4 ++ [("id", num 4)])).
Proof.
  assert (H : store_ok sample) by (vm_compute; intuition lia).
  split; [exact H|]. split; [reflexivity|].
  refine (proj1 (proj2 (proj2
           (proj1 (addEntry_getEntry (entry_of "z" "de" 4) sample H eq_refl)
              _)))).
  vm_compute. discriminate.
Defined.

(** ** Bulk deletion by criteria *)

(** C7.  Atomicity of bulk deletion.  Whatever requests the engine fails,
    [deleteEntries] either completes with every qualifying record removed,
    or raises and leaves the store exactly as it was: all its deletions
    belong to one transaction, which a failed request aborts.  It raises
    only when a request failed, or when the criteria or the index raised
    before any record was looked at; on an engine that fails no request,
    with a criteria whose [originalText] the index accepts, it completes
    and the qualifying records are removed. *)
Theorem deleteEntries_atomic (eng : engine) (entry : value) (db : store) :
  (deleteEntries_on eng entry db
   = (Return tt, without (to_delete entry db) db) \/
   exists e, deleteEntries_on eng entry db = (Throw e, db)) /\
  (forall e,
     fst (deleteEntries_on eng entry db) = Throw e ->
     (e = AbortError /\ exists i, eng i = false) \/
     get entry "originalText" = Throw e \/
     exists originalText,
       get entry "originalText" = Return originalText /\
       index_cursor originalText db = Throw e) /\
  ((forall i, eng i = true) ->
   forall originalText cursor,
     get entry "originalText" = Return originalText ->
     index_cursor originalText db = Return cursor ->
     deleteEntries_on eng entry db
     = (Return tt, without (qualifying entry cursor) db)).
Proof.
  split; [|split].
  - destruct (DeleteFacts.deleteEntries_on_outcome eng entry db)
      as [H|[(H & _)|(e & H & _)]]; eauto.
  - intros e He.
    destruct (DeleteFacts.deleteEntries_on_outcome eng entry db)
      as [H|[(H & Hi)|(e' & H & Hwhy)]]; rewrite H in He; cbn [fst] in He.
    + discriminate.
    + injection He as <-. auto.
    + injection He as <-. auto.
  - intros Heng originalText cursor Ho Hc.
    now apply (DeleteFacts.deleteEntries_unfailing eng entry originalText).
Qed.

Lemma deleteEntries_atomic_witness :
  deleteEntries_on reliable (JObj [("originalText", JStr "x")]) sample
  = (Return tt,
     without
       (qualifying (JObj [("originalText", JStr "x")])
          (candidates (KStr "x") sample)) sample) /\
  (fst (deleteEntries_on (fails_at 3) (JObj [("originalText", JStr "x")])
          sample) = Throw AbortError /\
   exists i, fails_at 3 i = false).
Proof.
  split.
  - apply (proj2 (proj2 (deleteEntries_atomic reliable
                           (JObj [("originalText", JStr "x")]) sample))
             (fun _ => eq_refl) (Data (JStr "x"))); reflexivity.
  - split; [reflexivity|].
    destruct (proj1 (proj2 (deleteEntries_atomic (fails_at 3)
                              (JObj [("originalText", JStr "x")]) sample))
                AbortError eq_refl) as [[_ H]|[H|(o & _ & H)]].
    + exact H.
    + discriminate H.
    + exists 3%nat. reflexivity.
Defined.

(** A failure in the middle: the request that deletes the second of the two
    qualifying records fails, and no record is removed. *)
Example deleteEntries_abort_midway :
  to_delete (JObj [("originalText", JStr "x")]) sample = [KNum 1; KNum 2] /\
  deleteEntries_on (fails_at 3) (JObj [("originalText", JStr "x")]) sample
  = (Throw AbortError, sample).
Proof. split; reflexivity. Qed.

(** C1, as stated, fails: a criteria whose member [tags] is an array
    partially matches the [translation] of the stored record, whose
    [originalText] is the criteria's, yet [deleteEntries] keeps the record:
    it compares members with [===], and an array is not identical to the
    array of a stored record. *)
Lemma deleteEntries_shallow_counterexample :
  exists (k : IDB.key) (v : value) (tf : list (string * value)),
    In (k, v) (records tagged) /\
    has_index_key (KStr "x") (k, v) = true /\
    get v "translation" = Return (Data (JObj tf)) /\
    isEqualIntersection
      (JObj [("originalText", JStr "x"); ("tags", JArr [])]) (JObj tf)
    = Return true /\
    In (k, v)
      (records
         (snd (deleteEntries
                 (JObj [("originalText", JStr "x"); ("tags", JArr [])])
                 tagged))).
Proof.
  do 3 eexists. split; [left; reflexivity|].
  split; [reflexivity|]. split; [reflexivity|].
  split; [reflexivity|]. left. reflexivity.
Qed.

(** C1, amended.  For a criteria object with distinct member names whose
    [originalText] is a key, and a stored record with that [originalText],
    the only one under its key: [deleteEntries] removes the record exactly
    when every member of the criteria is [===] to what the record's
    [translation] answers under that name (its own member, or else the
    member inherited from [Object.prototype]); and when the criteria's
    members are scalars and what the [translation] answers under their names
    is not of type ['object'], that is exactly when the criteria partially
    matches the [translation]. *)
Theorem deleteEntries_matches (cf tf : list (string * value)) (db : store)
  (q k : IDB.key) (v : value) :
  distinct (map fst cf) = true ->
  to_key (field cf "originalText") = Some q ->
  In (k, v) (records db) ->
  (forall r, In r (records db) -> eqb k (fst r) = true -> r = (k, v)) ->
  has_index_key q (k, v) = true ->
  get v "translation" = Return (Data (JObj tf)) ->
  (~ In (k, v) (records (snd (deleteEntries (JObj cf) db))) <->
   forallb (fun kv => strict_equals (snd kv) (member tf (fst kv))) cf = true) /\
  (forallb (fun kv => scalar (snd kv) && not_object (member tf (fst kv))) cf
   = true ->
   (~ In (k, v) (records (snd (deleteEntries (JObj cf) db))) <->
    isEqualIntersection (JObj cf) (JObj tf) = Return true)).
Proof.
  intros Hd Hq Hin Huniq Hidx Htr.
  assert (Ho : get (JObj cf) "originalText"
               = Return (Data (field cf "originalText"))).
  { cbn [get]. unfold member, field.
    destruct (own cf "originalText"); reflexivity. }
  pose proof (DeleteFacts.deleteEntries_removes _ _ db q k v Ho Hq Hin Huniq Hidx)
    as Hrem.
  rewrite (DeleteFacts.deleteEntries_test_shallow cf tf v Hd Htr) in Hrem.
  assert (Hshallow :
            ~ In (k, v) (records (snd (deleteEntries (JObj cf) db))) <->
            forallb (fun kv => strict_equals (snd kv) (member tf (fst kv))) cf
            = true).
  { rewrite Hrem. split; congruence. }
  split; [exact Hshallow|].
  intros Hflat. rewrite Hshallow, (FindFacts.isEqualIntersection_flat _ _ Hflat).
  split; congruence.
Qed.

Lemma deleteEntries_matches_witness :
  ~ In (KNum 1, JObj (entry_of "x" "en" 1 ++ [("id", num 1)]))
       (records (snd (deleteEntries (translation_of "x" "en") sample))) <->
  isEqualIntersection (translation_of "x" "en") (translation_of "x" "en")
  = Return true.
Proof.
  refine (proj2 (deleteEntries_matches
            [("originalText", JStr "x"); ("lang", JStr "en")]
            [("originalText", JStr "x"); ("lang", JStr "en")]
            sample (KStr "x") (KNum 1)
            (JObj (entry_of "x" "en" 1 ++ [("id", num 1)]))
            eq_refl eq_refl _ _ eq_refl eq_refl) eq_refl).
  - left. reflexivity.
  - intros r [<-|[<-|[<-|[]]]]; [reflexivity | discriminate | discriminate].
Defined.

(** * Further properties of the operations *)

Module PagingFacts.
Import JS IDB Matcher Data Shape Lifetime MatcherFacts StoreFacts.

Lemma length_in_order (options : option order) (db : store) :
  List.length (in_order options db) = List.length (records db).
Proof.
  destruct options as [[|]|]; unfold in_order; now rewrite ?length_rev.
Qed.





(** The page that offset and limit cut out, counted in records. *)
Lemma page_window (from limit : option number) (options : option order)
  (db : store) :
  take limit (skip from (in_order options db))
  = firstn (allowed limit (List.length (records db) - offset from))
      (skipn (offset from) (in_order options db)).
Proof.
  assert (Hs : skip from (in_order options db)
               = skipn (offset from) (in_order options db)).
  { unfold skip, offset. destruct from as [[|z]|]; try reflexivity.
    now destruct (0 <? z). }
  rewrite Hs.
  assert (Hl : List.length (skipn (offset from) (in_order options db))
               = (List.length (records db) - offset from)%nat)
    by now rewrite length_skipn, length_in_order.
  rewrite <- Hl. unfold take, allowed.
  destruct limit as [[|z]|].
  - now rewrite firstn_all.
  - destruct (Nat.min_spec (Z.to_nat z)
                (List.length (skipn (offset from) (in_order options db))))
      as [[Hlt ->]|[Hge ->]]; [reflexivity|].
    now rewrite firstn_all, firstn_all2.
  - now rewrite firstn_all.
Qed.

(** [getEntries] returns the window when [advance] accepts the offset or
    the store has no record. *)
Lemma getEntries_fits (from limit : option number) (options : option order)
  (db : store) :
  overflows from = false \/ records db = [] ->
  getEntries from limit options db
  = Return (map with_key
              (firstn (allowed limit (List.length (records db) - offset from))
                 (skipn (offset from) (in_order options db)))).
Proof.
  intros [Hfit|Hnil].
  - now rewrite (getEntries_page _ _ _ _ Hfit), page_window.
  - rewrite (getEntries_empty _ _ _ _ Hnil).
    assert (Ho : in_order options db = []).
    { destruct options as [[|]|]; unfold in_order; now rewrite Hnil. }
    now rewrite Ho, skipn_nil, firstn_nil.
Qed.

(** Whatever [getEntries] returns is the window. *)
Lemma getEntries_returns (from limit : option number)
  (options : option order) (db : store)
  (l : list ITranslationEntryWithKey) :
  getEntries from limit options db = Return l ->
  l = map with_key
        (firstn (allowed limit (List.length (records db) - offset from))
           (skipn (offset from) (in_order options db))).
Proof.
  intros H.
  assert (Hcase : overflows from = false \/ records db = []).
  { destruct (overflows from) eqn:Hover; [|now left].
    destruct (records db) as [| r recs] eqn:Hrecs; [now right|].
    rewrite (getEntries_refused from limit options db Hover) in H
      by (rewrite Hrecs; discriminate).
    discriminate. }
  rewrite (getEntries_fits _ _ _ _ Hcase) in H. congruence.
Qed.

End PagingFacts.

(** ** Pages *)

Import Lifetime PagingFacts.







(** ** Keys and invariants *)

Module LifeFacts.
Import JS IDB Matcher Data Shape Lifetime MatcherFacts StoreFacts FindFacts
  DeleteFacts.

(** Keys that compare equal are the same key. *)
Lemma compare_eq (a : IDB.key) : forall b, compare a b = Eq -> a = b.
Proof.
  induction a as [z | s | ks IH] using key_ind; intros b.
  - destruct b; simpl; try discriminate.
    intros H. apply Z.compare_eq in H. now subst.
  - destruct b; simpl; try discriminate.
    intros H. apply String.compare_eq_iff in H. now subst.
  - destruct b as [| | ms]; simpl; try discriminate.
    intros H. f_equal. revert ms H.
    induction IH as [| x r Hx _ IHr]; intros [| y ms]; try discriminate.
    + reflexivity.
    + destruct (compare x y) eqn:E; try discriminate.
      intros H. apply Hx in E. subst. f_equal. now apply IHr.
Qed.

Lemma eqb_eq (a b : IDB.key) : eqb a b = true <-> a = b.
Proof.
  unfold eqb. split.
  - destruct (compare a b) eqn:E; try discriminate.
    intros _. now apply compare_eq.
  - intros ->. now rewrite compare_refl.
Qed.

Lemma eqb_neq (a b : IDB.key) : a <> b -> eqb a b = false.
Proof.
  intros H. destruct (eqb a b) eqn:E; [|reflexivity].
  apply eqb_eq in E. contradiction.
Qed.

Lemma lookup_In (k : IDB.key) (v : value) (recs : list (IDB.key * value)) :
  lookup k recs = Some v -> In (k, v) recs.
Proof.
  induction recs as [| [k0 v0] recs IH]; simpl; [discriminate|].
  destruct (eqb k0 k) eqn:E.
  - apply eqb_eq in E. subst. intros [= <-]. now left.
  - auto.
Qed.

Lemma lookup_app (k : IDB.key) (l m : list (IDB.key * value)) :
  lookup k (l ++ m) =
  match lookup k l with
  | Some v => Some v
  | None => lookup k m
  end.
Proof.
  induction l as [| [k0 v0] l IH]; simpl; [reflexivity|].
  destruct (eqb k0 k); [reflexivity | exact IH].
Qed.

Lemma ascending_below_In (g z : Z) (ks : list IDB.key) :
  ascending_below g ks -> In (KNum z) ks -> z < g.
Proof.
  induction ks as [| k ks IH]; [intros _ []|].
  destruct k as [z0| |]; try (simpl; contradiction).
  intros (Hz & _ & Hrest) [H|H].
  - now injection H as <-.
  - auto.
Qed.

Lemma ascending_below_numbers (g : Z) (ks : list IDB.key) (k : IDB.key) :
  ascending_below g ks -> In k ks -> exists z, k = KNum z /\ z < g.
Proof.
  induction ks as [| k0 ks IH]; [intros _ []|].
  destruct k0 as [z0| |]; try (simpl; contradiction).
  intros (Hz & _ & Hrest) [H|H]; [subst; eauto | auto].
Qed.

(** In a store of generated keys, a record is found under its key. *)
Lemma lookup_record (db : store) (k : IDB.key) (v : value) :
  store_ok db -> In (k, v) (records db) -> lookup k (records db) = Some v.
Proof.
  intros Hok Hin.
  pose proof (store_ok_unique db k v Hok Hin) as Huniq.
  induction (records db) as [| [k0 v0] recs IH]; [destruct Hin|].
  cbn [lookup]. destruct (eqb k0 k) eqn:E.
  - apply eqb_eq in E. subst k0.
    assert (H : (k, v0) = (k, v)).
    { apply Huniq; [now left | apply eqb_refl]. }
    congruence.
  - destruct Hin as [H|H].
    + injection H as -> ->. now rewrite eqb_refl in E.
    + apply IH; [exact H|]. intros r Hr. apply Huniq. now right.
Qed.

(** What [keyPath] extracts from a stored value. *)
Lemma extract_id (v : value) (k : IDB.key) :
  extract keyPath v = Key k ->
  exists f x, v = JObj f /\ own f "id" = Some x /\ to_key x = Some k.
Proof.
  unfold extract, keyPath. cbn [eval_path].
  destruct v as [| | | | s | l | f]; cbn [path_step];
    try discriminate.
  destruct (own f "id") as [x|] eqn:E; [|discriminate].
  destruct x; cbn [eval_path]; try discriminate;
    (destruct (to_key _) as [k'|] eqn:Ek; [|discriminate]);
    intros [= <-]; eauto.
Qed.

Lemma to_key_number (x : value) (z : Z) :
  to_key x = Some (KNum z) -> x = JNum (Fin z).
Proof.
  destruct x as [| | | [|z'] | | l |]; simpl; try discriminate.
  - now intros [= ->].
  - destruct ((fix all (l : list value) : option (list IDB.key) :=
                 match l with
                 | [] => Some []
                 | x :: l' =>
                     match to_key x, all l' with
                     | Some k, Some ks => Some (k :: ks)
                     | _, _ => None
                     end
                 end) l); discriminate.
Qed.

Lemma extract_set_id (g : Z) (e : list (string * value)) :
  own e "id" = None ->
  extract keyPath (JObj (set_id (KNum g) e)) = Key (KNum g).
Proof.
  intros He. rewrite (set_id_fresh _ _ He).
  unfold extract, keyPath. cbn [eval_path path_step].
  rewrite own_app, He. reflexivity.
Qed.

(** *** The invariant along the operations *)

Lemma store_inv_empty : store_inv empty.
Proof. split; [apply store_ok_empty | constructor]. Qed.

Lemma records_inv_filter (P : IDB.key * value -> bool)
  (recs : list (IDB.key * value)) :
  Forall record_ok recs -> Forall record_ok (filter P recs).
Proof.
  intros H. apply Forall_forall. intros r Hr.
  apply filter_In in Hr as [Hr _].
  exact (proj1 (Forall_forall _ _) H r Hr).
Qed.

Lemma step_inv (db db' : store) : step db db' -> store_inv db -> store_inv db'.
Proof.
  intros Hstep [Hok Hrec].
  destruct Hstep as [e db He | entryId db | eng entry db | db].
  - split; [now apply store_ok_addEntry|].
    destruct (Z.le_gt_cases (generator db) generator_limit) as [Hlim|Hlim].
    + rewrite (addEntry_generated _ _ Hok He Hlim). cbn [snd records].
      apply Forall_app. split; [exact Hrec|].
      constructor; [|constructor].
      split; cbn [fst snd].
      * exists (generator db). split; [reflexivity | apply Hok].
      * rewrite <- (set_id_fresh _ _ He). now apply extract_set_id.
    + now rewrite (addEntry_exhausted _ _ He Hlim).
  - split; [now apply store_ok_deleteEntry|].
    unfold deleteEntry. destruct (to_key entryId); [|exact Hrec].
    cbn [snd records]. now apply records_inv_filter.
  - split; [now apply store_ok_deleteEntries|].
    destruct (deleteEntries_on_outcome eng entry db)
      as [E|[(E & _)|(e & E & _)]];
      rewrite E; cbn [snd]; [|exact Hrec|exact Hrec].
    now apply records_inv_filter.
  - split; [now apply store_ok_flush|].
    now apply records_inv_filter.
Qed.

Lemma evolves_inv (db db' : store) :
  evolves db db' -> store_inv db -> store_inv db'.
Proof.
  induction 1 as [db | db db' db'' _ IH Hstep]; intros H; [exact H|].
  eapply step_inv; eauto.
Qed.

Lemma reachable_inv (db : store) : reachable db -> store_inv db.
Proof. intros H. exact (evolves_inv _ _ H store_inv_empty). Qed.

Lemma reachable_add_all (es : list (list (string * value))) (db : store) :
  Forall (fun e => own e "id" = None) es ->
  reachable db -> reachable (add_all es db).
Proof.
  intros Hes. revert db. unfold add_all.
  induction Hes as [| e es He _ IH]; intros db Hdb; [exact Hdb|].
  cbn [fold_left]. apply IH.
  eapply evolves_step; [exact Hdb | now apply step_addEntry].
Qed.

Lemma reachable_sample : reachable sample.
Proof.
  apply reachable_add_all; [repeat constructor | apply evolves_refl].
Qed.

(** *** The key generator along the operations *)

Lemma step_generator (db db' : store) :
  step db db' -> generator db <= generator db'.
Proof.
  intros [e db0 He | entryId db0 | eng entry db0 | db0].
  - now apply addEntry_generator.
  - unfold deleteEntry. destruct (to_key entryId); cbn [snd generator]; lia.
  - destruct (deleteEntries_on_outcome eng entry db0)
      as [E|[(E & _)|(e & E & _)]];
      rewrite E; cbn [snd without generator]; lia.
  - cbn [flush generator]. lia.
Qed.

Lemma evolves_generator (db db' : store) :
  evolves db db' -> generator db <= generator db'.
Proof.
  induction 1 as [db | db db' db'' _ IH Hstep]; [lia|].
  apply step_generator in Hstep. lia.
Qed.

Lemma evolves_store_ok (db db' : store) :
  evolves db db' -> store_ok db -> store_ok db'.
Proof.
  induction 1 as [db | db db' db'' _ IH Hstep]; intros H; [exact H|].
  specialize (IH H).
  destruct Hstep as [e db0 He | entryId db0 | eng entry db0 | db0].
  - now apply store_ok_addEntry.
  - now apply store_ok_deleteEntry.
  - now apply store_ok_deleteEntries.
  - now apply store_ok_flush.
Qed.

(** *** Lookups after a change *)

Lemma lookup_remove_other (k k' : IDB.key) (recs : list (IDB.key * value)) :
  k' <> k -> lookup k' (remove k recs) = lookup k' recs.
Proof.
  intros Hne. unfold remove.
  induction recs as [| [k0 v0] recs IH]; [reflexivity|].
  cbn [filter fst lookup].
  destruct (eqb k0 k) eqn:E; cbn [negb].
  - apply eqb_eq in E. subst k0.
    rewrite (eqb_neq k k') by congruence. exact IH.
  - cbn [lookup]. now rewrite IH.
Qed.

Lemma lookup_above (z0 : Z) (recs : list (IDB.key * value)) :
  Forall (fun k => IDB.lt (KNum z0) k) (map fst recs) ->
  lookup (KNum z0) recs = None.
Proof.
  induction recs as [| [k v] recs IH]; [reflexivity|].
  cbn [map fst]. intros H. inversion H as [| ? ? Hk Hrest]; subst.
  cbn [lookup]. rewrite eqb_neq; [now apply IH|].
  intros ->. unfold IDB.lt in Hk. rewrite compare_refl in Hk. discriminate.
Qed.

(** Putting a record back where it was deleted restores the records. *)
Lemma place_remove (g : Z) (recs : list (IDB.key * value)) (k : IDB.key)
  (v : value) :
  ascending_below g (map fst recs) ->
  In (k, v) recs ->
  place k v (remove k recs) = recs.
Proof.
  induction recs as [| [k0 v0] recs IH]; [intros _ []|].
  intros Hasc Hin. cbn [map fst] in Hasc.
  destruct k0 as [z0| |]; try (simpl in Hasc; contradiction).
  pose proof (ascending_below_head _ _ _ Hasc) as Hhead.
  assert (Hrest : ascending_below g (map fst recs)) by apply Hasc.
  unfold remove. cbn [filter fst].
  destruct Hin as [Hin|Hin].
  - injection Hin as <- <-. rewrite eqb_refl. cbn [negb].
    fold (remove (KNum z0) recs).
    rewrite (remove_absent _ _ (lookup_above _ _ Hhead)).
    destruct recs as [| [k1 v1] recs]; [reflexivity|].
    cbn [place]. inversion Hhead as [| ? ? Hk1 _]; subst.
    unfold IDB.lt in Hk1. cbn [fst] in Hk1. now rewrite Hk1.
  - assert (Hlt : IDB.lt (KNum z0) k).
    { exact (proj1 (Forall_forall _ _) Hhead k (in_map fst _ _ Hin)). }
    destruct (ascending_below_numbers g (map fst recs) k Hrest
                (in_map fst _ _ Hin)) as (z & -> & _).
    unfold IDB.lt in Hlt. cbn [IDB.compare] in Hlt.
    assert (Hz : z0 < z) by exact Hlt.
    rewrite (eqb_neq (KNum z0) (KNum z)) by (intros [= E]; lia).
    cbn [negb place IDB.compare].
    replace (z ?= z0) with Gt by (symmetry; apply Z.compare_gt_iff; exact Hz).
    fold (remove (KNum z) recs). now rewrite (IH Hrest Hin).
Qed.

Lemma In_firstn {A : Type} (x : A) (n : nat) (l : list A) :
  In x (firstn n l) -> In x l.
Proof.
  intros H. rewrite <- (firstn_skipn n l). apply in_or_app. now left.
Qed.

Lemma In_skipn {A : Type} (x : A) (n : nat) (l : list A) :
  In x (skipn n l) -> In x l.
Proof.
  intros H. rewrite <- (firstn_skipn n l). apply in_or_app. now right.
Qed.

(** What [getEntries] returns are records of the store. *)
Lemma getEntries_records (from limit : option number)
  (options : option order) (db : store)
  (entries : list ITranslationEntryWithKey) (r : ITranslationEntryWithKey) :
  getEntries from limit options db = Return entries ->
  In r entries ->
  In (key r, data r) (records db).
Proof.
  intros Hret H. rewrite (getEntries_returns _ _ _ _ _ Hret) in H.
  apply in_map_iff in H as ([k v] & <- & H). cbn [with_key key data fst snd].
  assert (Hin : In (k, v) (in_order options db)).
  { apply In_firstn in H. now apply In_skipn in H. }
  unfold in_order in Hin.
  destruct options as [[|]|]; try exact Hin; now apply in_rev.
Qed.

(** The records an index cursor passes are records of the store. *)
Lemma index_cursor_records (query : found) (db : store)
  (cursor : list (IDB.key * value)) (x : IDB.key * value) :
  index_cursor query db = Return cursor -> In x cursor -> In x (records db).
Proof.
  unfold index_cursor. intros Ec Hin.
  assert (Hall : In x (by_index_key (filter indexed (records db))) ->
                 In x (records db)).
  { intros H. apply by_index_key_In in H. apply filter_In in H. apply H. }
  destruct query as [[]| |]; try (injection Ec as <-; now apply Hall);
    (destruct (valid_key _); [|discriminate]);
    injection Ec as <-; apply filter_In in Hin; apply Hin.
Qed.

(** What [findEntry] returns is a record of the store that the criteria
    matches. *)
Lemma findEntry_record (entry : value) (db : store)
  (r : ITranslationEntryWithKey) :
  outcome (findEntry entry db) = Return (Some r) ->
  In (key r, data r) (records db) /\
  isEqualIntersection entry (data r) = Return true.
Proof.
  intros H.
  assert (Hp : criteria_originalText entry <> JUndefined).
  { intros E. rewrite (findEntry_absent _ _ E) in H. discriminate. }
  rewrite (findEntry_present _ _ Hp) in H.
  destruct (index_cursor (criteria_originalText entry) db)
    as [cursor|e|] eqn:Ec; [|discriminate|discriminate].
  rewrite bind_return in H.
  destruct (findEntry_loop_some _ _ _ H)
    as (pre & x & post & Hc & Hr & _ & Hx).
  subst r. destruct x as [k v]. cbn [with_key key data fst snd] in *.
  split; [|exact Hx].
  apply (index_cursor_records _ _ _ _ Ec).
  rewrite Hc. apply in_or_app. right. now left.
Qed.

End LifeFacts.

(** ** The store over its life *)

Import LifeFacts.

(** X4.  Invariants of the store.  In every store that [addEntry] (of
    entries without [id]), [deleteEntry], [deleteEntries] (whatever requests
    fail) and [flush] make of the empty store, the records are in strictly
    ascending key order, every key is a positive integer below the current
    number of the key generator, and every stored value is an object that
    carries its key as [id]. *)
Theorem reachable_invariants (db : store) :
  reachable db ->
  0 < generator db /\
  ascending (store_keys db) /\
  (forall k v,
     In (k, v) (records db) ->
     exists z f,
       k = KNum z /\ 0 < z < generator db /\
       v = JObj f /\ own f "id" = Some (num z)).
Proof.
  intros H. destruct (reachable_inv db H) as [Hok Hrec].
  split; [apply Hok|]. split; [now apply store_ok_ascending|].
  intros k v Hin.
  destruct (proj1 (Forall_forall _ _) Hrec _ Hin) as [(z & Hk & Hz) Hid].
  cbn [fst snd] in Hk, Hid. subst k.
  destruct (extract_id _ _ Hid) as (f & x & -> & Hx & Hkey).
  apply to_key_number in Hkey. subst x.
  exists z, f. repeat split; auto.
  apply (ascending_below_In _ _ _ (proj2 Hok)).
  exact (in_map fst _ _ Hin).
Qed.

Lemma reachable_invariants_witness :
  reachable sample /\ ascending (store_keys sample).
Proof.
  split; [exact reachable_sample|].
  exact (proj1 (proj2 (reachable_invariants sample reachable_sample))).
Defined.

(** X5.  Keys are never reused.  A key [addEntry] has assigned to an entry
    without [id] is smaller than every key it assigns to such an entry
    later, whatever was added, deleted or flushed in between:
    [deleteEntry], [deleteEntries] and [flush] do not set the key generator
    back.  On a store of generated keys both calls do return a key as long
    as the generator has not passed [2 ^ 53] at the second. *)
Theorem keys_never_reused (e e' : list (string * value)) (db db' : store) :
  own e "id" = None ->
  own e' "id" = None ->
  evolves (snd (addEntry e db)) db' ->
  (forall k k',
     fst (addEntry e db) = Return k ->
     fst (addEntry e' db') = Return k' ->
     exists g g', k = KNum g /\ k' = KNum g' /\ g < g') /\
  (store_ok db -> generator db' <= generator_limit ->
   exists k k',
     fst (addEntry e db) = Return k /\ fst (addEntry e' db') = Return k').
Proof.
  intros He He' Hev. split.
  - intros k k' Hk Hk'.
    destruct (addEntry_returns _ _ _ He Hk) as (-> & _ & Hg).
    destruct (addEntry_returns _ _ _ He' Hk') as (-> & _ & _).
    apply evolves_generator in Hev.
    exists (generator db), (generator db'). repeat split. lia.
  - intros Hok Hlim.
    pose proof (evolves_generator _ _ Hev) as Hg.
    pose proof (addEntry_generator e db He) as Hg'.
    assert (Hok' : store_ok db').
    { apply (evolves_store_ok _ _ Hev). now apply store_ok_addEntry. }
    exists (KNum (generator db)), (KNum (generator db')).
    rewrite (addEntry_generated _ _ Hok He) by lia.
    now rewrite (addEntry_generated _ _ Hok' He' Hlim).
Qed.

Lemma keys_never_reused_witness :
  fst (addEntry (entry_of "x" "en" 1) sample) = Return (KNum 4) /\
  fst (addEntry (entry_of "x" "en" 1)
         (flush (snd (addEntry (entry_of "x" "en" 1) sample))))
  = Return (KNum 5) /\
  exists g g', KNum 4 = KNum g /\ KNum 5 = KNum g' /\ g < g'.
Proof.
  split; [reflexivity|]. split; [reflexivity|].
  exact (proj1 (keys_never_reused (entry_of "x" "en" 1)
                  (entry_of "x" "en" 1) sample
                  (flush (snd (addEntry (entry_of "x" "en" 1) sample)))
                  eq_refl eq_refl
                  (evolves_step _ _ _ (evolves_refl _) (step_flush _)))
           (KNum 4) (KNum 5) eq_refl eq_refl).
Defined.

(** X6.  [flush] deletes the records whose key is not below [0]: it keeps
    exactly the records under a negative number, which only an entry added
    with such an [id] of its own can have.  On every store that [addEntry]
    of entries without [id], [deleteEntry], [deleteEntries] and [flush] make
    of the empty store it therefore leaves no record, and [getEntries]
    returns the empty sequence afterwards, whatever its arguments; the key
    generator keeps its current number. *)
Theorem flush_empties (db : store) :
  (forall r,
     In r (records (flush db)) <->
     In r (records db) /\ exists z, fst r = KNum z /\ z < 0) /\
  generator (flush db) = generator db /\
  (reachable db ->
   records (flush db) = [] /\
   forall from limit options,
     getEntries from limit options (flush db) = Return []).
Proof.
  split; [|split; [reflexivity|]].
  - intros r. unfold flush. cbn [records]. rewrite filter_In.
    split; intros [Hin H]; (split; [exact Hin|]).
    + destruct (fst r) as [z| |]; simpl in H; try discriminate.
      exists z. split; [reflexivity|].
      destruct (z ?= 0) eqn:E; try discriminate.
      now apply Z.compare_lt_iff.
    + destruct H as (z & -> & Hz). simpl.
      now replace (z ?= 0) with Lt by (symmetry; apply Z.compare_lt_iff; exact Hz).
  - intros Hreach.
    assert (Hnil : records (flush db) = []).
    { destruct (reachable_inv db Hreach) as [_ Hrec].
      unfold flush. cbn [records].
      induction Hrec as [| r recs [(z & Hk & Hz) _] _ IH]; [reflexivity|].
      cbn [filter]. rewrite Hk. cbn [IDB.compare].
      replace (z ?= 0) with Gt by (symmetry; apply Z.compare_gt_iff; exact Hz).
      exact IH. }
    split; [exact Hnil|].
    intros from limit options. now apply getEntries_empty.
Qed.

Lemma flush_empties_witness :
  reachable sample /\ records (flush sample) = [].
Proof.
  split; [exact reachable_sample|].
  exact (proj1 (proj2 (proj2 (flush_empties sample)) reachable_sample)).
Defined.

(** X7.  The entry just added is the newest: after [addEntry(e)] of an
    entry without [id], on a store of generated keys whose generator has not
    passed [2 ^ 53], [getEntries()] lists the new record first and then what
    it listed before, and in order ['asc'] lists it last. *)
Theorem addEntry_newest_first (e : list (string * value)) (db : store) :
  store_ok db ->
  generator db <= generator_limit ->
  own e "id" = None ->
  let k := KNum (generator db) in
  let added := {| key := k; data := JObj (e ++ [("id", of_key k)]) |} in
  (exists before,
     getEntries None None None db = Return before /\
     getEntries None None None (snd (addEntry e db))
     = Return (added :: before)) /\
  (exists before,
     getEntries None None (Some asc) db = Return before /\
     getEntries None None (Some asc) (snd (addEntry e db))
     = Return (before ++ [added])%list).
Proof.
  intros Hok Hlim He k added.
  rewrite (addEntry_generated _ _ Hok He Hlim). cbn [snd].
  split; eexists; rewrite !getEntries_page by reflexivity;
    (split; [reflexivity|]); cbn [skip take in_order records].
  - now rewrite rev_app_distr.
  - now rewrite map_app.
Qed.

Lemma addEntry_newest_first_witness :
  exists before,
    getEntries None None None sample = Return before /\
    getEntries None None None (snd (addEntry (entry_of "z" "de" 4) sample))
    = Return ({| key := KNum 4;
                 data := JObj (entry_of "z" "de" 4 ++ [("id", num 4)]) |}
              :: before).
Proof.
  assert (H : store_ok sample) by (vm_compute; intuition lia).
  apply (proj1 (addEntry_newest_first (entry_of "z" "de" 4) sample
                  H ltac:(vm_compute; discriminate) eq_refl)).
Defined.

(** X8.  [addEntry] leaves the other records alone: after adding an entry
    without [id] to a store of generated keys, [getEntry] of every key other
    than the new one returns what it returned before. *)
Theorem addEntry_keeps_others (e : list (string * value)) (db : store)
  (k : IDB.key) :
  store_ok db ->
  own e "id" = None ->
  k <> KNum (generator db) ->
  getEntry (of_key k) (snd (addEntry e db)) = getEntry (of_key k) db.
Proof.
  intros Hok He Hk.
  destruct (Z.le_gt_cases (generator db) generator_limit) as [Hlim|Hlim].
  - rewrite (addEntry_generated _ _ Hok He Hlim).
    unfold getEntry. rewrite to_key_of_key. cbn [snd records].
    rewrite lookup_app.
    destruct (lookup k (records db)); [reflexivity|].
    cbn [lookup]. rewrite eqb_neq by congruence. reflexivity.
  - now rewrite (addEntry_exhausted _ _ He Hlim).
Qed.

Lemma addEntry_keeps_others_witness :
  getEntry (num 2) (snd (addEntry (entry_of "z" "de" 4) sample))
  = getEntry (num 2) sample.
Proof.
  assert (H : store_ok sample) by (vm_compute; intuition lia).
  apply (addEntry_keeps_others (entry_of "z" "de" 4) sample (KNum 2) H);
    [reflexivity | discriminate].
Defined.

(** X9.  [getEntries] and [getEntry] agree: on a store of generated keys,
    every [{key, data}] that [getEntries] returns, for any offset, limit and
    order, is the record [getEntry(key)] returns. *)
Theorem getEntries_getEntry (from limit : option number)
  (options : option order) (db : store)
  (entries : list ITranslationEntryWithKey) (r : ITranslationEntryWithKey) :
  store_ok db ->
  getEntries from limit options db = Return entries ->
  In r entries ->
  getEntry (of_key (key r)) db = Return (data r).
Proof.
  intros Hok Hret Hin. apply (getEntries_records _ _ _ _ _ _ Hret) in Hin.
  unfold getEntry. rewrite to_key_of_key.
  now rewrite (lookup_record db _ _ Hok Hin).
Qed.

Lemma getEntries_getEntry_witness :
  getEntry (num 3) sample
  = Return (JObj (entry_of "y" "en" 3 ++ [("id", num 3)])).
Proof.
  assert (H : store_ok sample) by (vm_compute; intuition lia).
  apply (getEntries_getEntry None (Some (Fin 1)) None sample
           [{| key := KNum 3;
               data := JObj (entry_of "y" "en" 3 ++ [("id", num 3)]) |}]
           {| key := KNum 3;
              data := JObj (entry_of "y" "en" 3 ++ [("id", num 3)]) |} H).
  - reflexivity.
  - left. reflexivity.
Defined.

(** X10.  [deleteEntry] removes nothing else: after [deleteEntry(k)],
    [getEntry] of every other key returns what it returned before, and the
    key generator keeps its current number. *)
Theorem deleteEntry_keeps_others (k k' : IDB.key) (db : store) :
  k' <> k ->
  getEntry (of_key k') (snd (deleteEntry (of_key k) db))
  = getEntry (of_key k') db /\
  generator (snd (deleteEntry (of_key k) db)) = generator db.
Proof.
  intros Hne. unfold getEntry, deleteEntry. rewrite !to_key_of_key.
  cbn [snd records generator]. split; [|reflexivity].
  now rewrite (lookup_remove_other k k' _ Hne).
Qed.

Lemma deleteEntry_keeps_others_witness :
  getEntry (num 2) (snd (deleteEntry (num 1) sample)) = getEntry (num 2) sample.
Proof.
  apply (deleteEntry_keeps_others (KNum 1) (KNum 2) sample). discriminate.
Defined.

(** X11.  A record read back can only be added again once it is deleted:
    on a store made by the operations, [addEntry] of a value [getEntry]
    returned, which carries its key as [id], is refused with a
    [ConstraintError] and changes nothing while the record is there; after
    [deleteEntry] of that key it returns the same key and restores the
    store exactly as it was, key generator included. *)
Theorem deleteEntry_addEntry_restores (db : store) (k : IDB.key)
  (f : list (string * value)) :
  reachable db ->
  getEntry (of_key k) db = Return (JObj f) ->
  addEntry f db = (Throw ConstraintError, db) /\
  addEntry f (snd (deleteEntry (of_key k) db)) = (Return k, db).
Proof.
  intros Hreach Hget.
  destruct (reachable_inv db Hreach) as [Hok Hrec].
  unfold getEntry in Hget. rewrite to_key_of_key in Hget.
  destruct (lookup k (records db)) as [v|] eqn:El; [|discriminate].
  injection Hget as ->.
  pose proof (lookup_In _ _ _ El) as Hin.
  destruct (proj1 (Forall_forall _ _) Hrec _ Hin) as [(z & Hk & Hz) Hid].
  cbn [fst snd] in Hk, Hid. subst k.
  assert (Hlt : z < generator db).
  { apply (ascending_below_In _ _ _ (proj2 Hok)).
    exact (in_map fst _ _ Hin). }
  unfold addEntry, deleteEntry. rewrite Hid, El, to_key_of_key.
  split; [reflexivity|].
  cbn [snd records generator]. rewrite lookup_remove.
  rewrite (place_remove _ _ _ _ (proj2 Hok) Hin).
  cbn [update_generator].
  replace (generator db <=? Z.min z generator_limit) with false
    by (symmetry; apply Z.leb_gt; lia).
  now destruct db.
Qed.

Lemma deleteEntry_addEntry_restores_witness :
  addEntry (entry_of "x" "fr" 2 ++ [("id", num 2)])
    (snd (deleteEntry (num 2) sample))
  = (Return (KNum 2), sample).
Proof.
  exact (proj2 (deleteEntry_addEntry_restores sample (KNum 2)
                  (entry_of "x" "fr" 2 ++ [("id", num 2)])
                  reachable_sample eq_refl)).
Defined.

(** ** More on bulk deletion *)

Module DeleteMore.
Import JS IDB Matcher Data Shape Lifetime MatcherFacts StoreFacts FindFacts
  DeleteFacts LifeFacts.

Lemma place_by_index_In_inv (r r' : IDB.key * value)
  (sorted : list (IDB.key * value)) :
  r' = r \/ In r' sorted -> In r' (place_by_index r sorted).
Proof.
  induction sorted as [| x sorted IH]; simpl.
  - intros [H|[]]; auto.
  - destruct (index_key (snd r)), (index_key (snd x));
      try solve [intros [H|[H|H]]; simpl; auto].
    destruct (compare k k0); intros [H|[H|H]]; simpl; auto.
Qed.

Lemma by_index_key_In_inv (r : IDB.key * value)
  (recs : list (IDB.key * value)) :
  In r recs -> In r (by_index_key recs).
Proof.
  unfold by_index_key.
  assert (H : forall acc, In r recs \/ In r acc ->
              In r (fold_left (fun sorted x => place_by_index x sorted)
                      recs acc)).
  { induction recs as [| x recs IH]; intros acc; simpl.
    - intros [[]|Hacc]. exact Hacc.
    - intros [[Hx|Hin]|Hacc]; apply IH; auto;
        right; apply place_by_index_In_inv; auto. }
  intros Hin. apply H. now left.
Qed.

(** The records the index cursor passes: the records in range. *)
Lemma index_cursor_In (originalText : found) (db : store)
  (cursor : list (IDB.key * value)) (r : IDB.key * value) :
  index_cursor originalText db = Return cursor ->
  (In r cursor <-> In r (records db) /\ in_range originalText r = true).
Proof.
  unfold index_cursor, in_range. intros Ec.
  assert (Hall : In r (by_index_key (filter indexed (records db))) <->
                 In r (records db) /\ indexed r = true).
  { rewrite <- filter_In. split.
    - apply by_index_key_In.
    - apply by_index_key_In_inv. }
  destruct originalText as [[]| |]; try (injection Ec as <-; exact Hall);
    (destruct (valid_key _); [|discriminate]);
    injection Ec as <-; apply filter_In.
Qed.

(** In a store of generated keys, deleting the qualifying keys deletes the
    qualifying records and no other. *)
Lemma without_qualifying (entry : value) (originalText : found)
  (db : store) (cursor : list (IDB.key * value)) :
  store_ok db ->
  index_cursor originalText db = Return cursor ->
  without (qualifying entry cursor) db
  = {| records :=
         filter (fun r => negb (in_range originalText r && passes entry r))
           (records db);
       generator := generator db |}.
Proof.
  intros Hok Ec. unfold without. f_equal.
  apply filter_ext_in. intros r Hr. f_equal.
  unfold qualifying. fold (passes entry).
  destruct (in_range originalText r && passes entry r) eqn:E.
  - apply andb_prop in E as [E1 E2].
    apply existsb_exists. exists (fst r). split; [|apply eqb_refl].
    apply in_map. apply filter_In. split; [|exact E2].
    apply (index_cursor_In _ _ _ r Ec). auto.
  - destruct (existsb (eqb (fst r))
                (map fst (filter (passes entry) cursor))) eqn:Ex;
      [|reflexivity].
    apply existsb_exists in Ex as (k' & Hk' & He).
    apply in_map_iff in Hk' as (r' & <- & Hr').
    apply filter_In in Hr' as [Hr' Hp].
    apply (index_cursor_In _ _ _ r' Ec) in Hr' as [Hin Hrange].
    assert (Heq : r' = r).
    { destruct r as [k v].
      apply (store_ok_unique db k v Hok); [exact Hr|exact Hin|exact He]. }
    subst r'. rewrite Hrange, Hp in E. discriminate.
Qed.

Lemma filter_none {A : Type} (P : A -> bool) (l : list A) :
  (forall x, In x l -> P x = false) -> filter P l = [].
Proof.
  induction l as [| x l IH]; intros H; [reflexivity|].
  cbn [filter]. rewrite (H x (or_introl eq_refl)).
  apply IH. intros y Hy. apply H. now right.
Qed.

(** After [deleteEntries] no record qualifies any more. *)
Lemma to_delete_after (entry : value) (db : store) :
  to_delete entry (without (to_delete entry db) db) = [].
Proof.
  unfold to_delete at 1.
  destruct (get entry "originalText") as [originalText|e|] eqn:Eo;
    [|reflexivity|reflexivity].
  destruct (index_cursor originalText (without (to_delete entry db) db))
    as [cursor1|e|] eqn:Ec1; [|reflexivity|reflexivity].
  unfold qualifying. fold (passes entry).
  rewrite filter_none; [reflexivity|].
  intros r Hr.
  apply (index_cursor_In _ _ _ r Ec1) in Hr as [Hin Hrange].
  unfold without in Hin. cbn [records] in Hin.
  apply filter_In in Hin as [Hin Hkept].
  destruct (passes entry r) eqn:Hp; [|reflexivity].
  exfalso. apply negb_true_iff in Hkept.
  assert (Hex : existsb (eqb (fst r)) (to_delete entry db) = true);
    [|congruence].
  apply existsb_exists. exists (fst r). split; [|apply eqb_refl].
  unfold to_delete. rewrite Eo.
  destruct (index_cursor originalText db) as [cursor|e|] eqn:Ec.
  - unfold qualifying. fold (passes entry).
    apply in_map. apply filter_In. split; [|exact Hp].
    apply (index_cursor_In _ _ _ r Ec). auto.
  - unfold index_cursor in Ec, Ec1.
    destruct originalText as [[]| |]; try discriminate;
      destruct (valid_key _); discriminate.
  - unfold index_cursor in Ec, Ec1.
    destruct originalText as [[]| |]; try discriminate;
      destruct (valid_key _); discriminate.
Qed.

End DeleteMore.

Import FindFacts DeleteFacts DeleteMore.

(** X12.  Bulk deletion removes exactly the matching subset.  On a store of
    generated keys, when the index accepts the criteria's [originalText],
    [deleteEntries] returns with exactly those records removed that are in
    range of the cursor and pass the test, in which every member of the
    criteria is [===] to what the record's [translation] answers under that
    name, inherited members included; the remaining records keep their
    order and the key generator its number.  In range are the records under
    the key [originalText], or every record of the index when [originalText]
    is [undefined] or [null]: a criteria without [originalText] is not
    refused, it is tested against the whole index. *)
Theorem deleteEntries_exact (entry originalText : value) (db : store)
  (cursor : list (IDB.key * value)) :
  store_ok db ->
  get entry "originalText" = Return (Data originalText) ->
  index_cursor originalText db = Return cursor ->
  deleteEntries entry db
  = (Return tt,
     {| records :=
          filter (fun r => negb (in_range originalText r && passes entry r))
            (records db);
        generator := generator db |}).
Proof.
  intros Hok Ho Ec.
  rewrite (deleteEntries_reliable _ _ _ _ Ho Ec).
  now rewrite (without_qualifying entry originalText db cursor Hok Ec).
Qed.

Lemma deleteEntries_exact_witness :
  map fst (records (snd (deleteEntries (translation_of "x" "en") sample)))
  = [KNum 2; KNum 3] /\
  records (snd (deleteEntries (JObj [("lang", JStr "en")]) sample))
  = [(KNum 2, JObj (entry_of "x" "fr" 2 ++ [("id", num 2)]))] /\
  records (snd (deleteEntries
                  (JObj [("originalText", JStr "x");
                         ("constructor", JUndefined)]) sample))
  = records sample.
Proof.
  assert (H : store_ok sample) by (vm_compute; intuition lia).
  split; [|split].
  - rewrite (deleteEntries_exact (translation_of "x" "en") (JStr "x") sample
               _ H eq_refl eq_refl).
    reflexivity.
  - rewrite (deleteEntries_exact (JObj [("lang", JStr "en")]) JUndefined
               sample _ H eq_refl eq_refl).
    reflexivity.
  - rewrite (deleteEntries_exact
               (JObj [("originalText", JStr "x"); ("constructor", JUndefined)])
               (JStr "x") sample _ H eq_refl eq_refl).
    reflexivity.
Defined.

(** X13.  The errors of [deleteEntries], on an engine that fails no
    request: a criteria that is [undefined] or [null] raises a [TypeError];
    an [originalText] that is present, not [null] and not a valid key raises
    a [DataError]; in both cases the store is left as it was.  In every
    other case [deleteEntries] returns. *)
Theorem deleteEntries_errors (entry : value) (db : store) :
  (entry = JUndefined \/ entry = JNull ->
   deleteEntries entry db = (Throw TypeError, db)) /\
  (forall originalText : value,
     get entry "originalText" = Return (Data originalText) ->
     originalText <> JUndefined -> originalText <> JNull ->
     to_key originalText = None ->
     deleteEntries entry db = (Throw DataError, db)) /\
  (forall originalText : value,
     get entry "originalText" = Return (Data originalText) ->
     originalText = JUndefined \/ originalText = JNull \/
     to_key originalText <> None ->
     fst (deleteEntries entry db) = Return tt).
Proof.
  split; [|split].
  - intros [-> | ->]; reflexivity.
  - intros originalText Ho Hu Hn Hk.
    assert (Ec : index_cursor originalText db = Throw DataError).
    { unfold index_cursor, valid_key. rewrite Hk.
      destruct originalText; congruence. }
    unfold deleteEntries, deleteEntries_on, transaction, tx_bind, script.
    cbv beta. rewrite Ho. cbn [now]. rewrite Ec. reflexivity.
  - intros originalText Ho Hcase.
    assert (Ec : exists cursor, index_cursor originalText db = Return cursor).
    { unfold index_cursor, valid_key.
      destruct Hcase as [-> | [-> | Hk]]; eauto.
      destruct (to_key originalText) eqn:E; [|contradiction].
      destruct originalText; eauto. }
    destruct Ec as [cursor Ec].
    now rewrite (deleteEntries_reliable _ _ _ _ Ho Ec).
Qed.

Lemma deleteEntries_errors_witness :
  deleteEntries JNull sample = (Throw TypeError, sample) /\
  deleteEntries (JObj [("originalText", JBool true)]) sample
  = (Throw DataError, sample).
Proof.
  split.
  - apply (proj1 (deleteEntries_errors JNull sample)). now right.
  - apply (proj1 (proj2 (deleteEntries_errors
                           (JObj [("originalText", JBool true)]) sample))
             (JBool true)); (reflexivity || discriminate).
Defined.

(** X14.  [deleteEntries] is idempotent: calling it a second time with the
    same criteria leaves the store as the first call left it, whatever the
    criteria and the store. *)
Theorem deleteEntries_idempotent (entry : value) (db : store) :
  snd (deleteEntries entry (snd (deleteEntries entry db)))
  = snd (deleteEntries entry db).
Proof.
  unfold deleteEntries.
  destruct (deleteEntries_on_outcome reliable entry db)
    as [E|[(E & _)|(e & E & _)]]; rewrite E; cbn [snd].
  - destruct (deleteEntries_on_outcome reliable entry
                (without (to_delete entry db) db))
      as [E'|[(E' & _)|(e' & E' & _)]]; rewrite E'; cbn [snd];
      [|reflexivity|reflexivity].
    now rewrite to_delete_after, without_nil.
  - now rewrite E.
  - now rewrite E.
Qed.

(** ** More on matching *)

Module MatchMore.
Import JS IDB Matcher Data Shape Lifetime MatcherFacts StoreFacts FindFacts
  DeleteFacts LifeFacts.
Local Open Scope js_scope.

Lemma own_distinct (f : list (string * value)) (k : string) (x : value) :
  distinct (map fst f) = true -> In (k, x) f -> own f k = Some x.
Proof.
  induction f as [| [k0 x0] f IH]; [intros _ []|].
  cbn [map fst distinct own]. intros Hd Hin.
  apply andb_prop in Hd as [Hfresh Hd]. apply negb_true_iff in Hfresh.
  destruct Hin as [Hin|Hin].
  - injection Hin as -> ->. now rewrite String.eqb_refl.
  - destruct (String.eqb k0 k) eqn:E; [|auto].
    apply String.eqb_eq in E. subst k0.
    assert (Hex : existsb (String.eqb k) (map fst f) = true); [|congruence].
    apply existsb_exists. exists k. split; [|apply String.eqb_refl].
    exact (in_map fst _ _ Hin).
Qed.

Lemma num_same_refl (n : number) : num_same n n = true.
Proof. destruct n; simpl; [reflexivity | apply Z.eqb_refl]. Qed.

Lemma isEqual_members (g f : list (string * value)) :
  (forall k x, In (k, x) f -> own g k = Some x /\ isEqual x x = true) ->
  (fix props (f : list (string * value)) : bool :=
     match f with
     | [] => true
     | (k, x) :: f' =>
         match own g k with
         | Some y => isEqual x y && props f'
         | None => false
         end
     end) f = true.
Proof.
  induction f as [| [k x] f IH]; intros Hmem; [reflexivity|].
  destruct (Hmem k x (or_introl eq_refl)) as [-> ->]. cbn [andb].
  apply IH. intros k' x' Hin. apply Hmem. now right.
Qed.

(** [isEqual] holds between a regular value and itself. *)
Lemma isEqual_refl (v : value) : regular v = true -> isEqual v v = true.
Proof.
  induction v as [| | b | n | s | l IH | f IH] using value_ind; intros Hr.
  - reflexivity.
  - reflexivity.
  - apply Bool.eqb_reflx.
  - apply num_same_refl.
  - apply String.eqb_refl.
  - cbn [regular] in Hr. cbn [isEqual].
    induction IH as [| x r Hx _ IHr]; [reflexivity|].
    cbn [forallb] in Hr. apply andb_prop in Hr as [Hrx Hrr].
    now rewrite (Hx Hrx), (IHr Hrr).
  - cbn [regular] in Hr. apply andb_prop in Hr as [Hd Hall].
    cbn [isEqual]. rewrite Nat.eqb_refl. cbn [andb].
    assert (Hmem : forall k x, In (k, x) f ->
                   own f k = Some x /\ isEqual x x = true).
    { intros k x Hin. split; [now apply own_distinct|].
      apply (proj1 (Forall_forall _ _) IH (k, x) Hin).
      exact (proj1 (forallb_forall _ _) Hall (k, x) Hin). }
    exact (isEqual_members f f Hmem).
Qed.

(** An object criterion matches when each of its members does. *)
Lemma isEqualIntersection_members (f : list (string * value))
  (obj2 : found) :
  isArray obj2 = false ->
  (forall k x, In (k, x) f ->
     exists y, get obj2 k = Return y /\
               isEqualIntersection x y = Return true) ->
  isEqualIntersection (JObj f) obj2 = Return true.
Proof.
  intros Ha. induction f as [| [k x] f IH]; intros Hmem.
  - now apply isEqualIntersection_object_nil.
  - rewrite isEqualIntersection_object_cons by exact Ha.
    destruct (Hmem k x (or_introl eq_refl)) as (y & -> & Hy).
    rewrite bind_return, Hy, bind_return.
    apply IH. intros k' x' Hin. apply Hmem. now right.
Qed.

(** The matcher holds between a clean value and itself. *)
Lemma isEqualIntersection_refl (v : value) :
  clean v = true -> isEqualIntersection v v = Return true.
Proof.
  induction v as [| | b | n | s | l _ | f IH] using value_ind; intros Hc.
  - reflexivity.
  - discriminate.
  - simpl. now rewrite Bool.eqb_reflx.
  - destruct n as [|z]; [discriminate|]. simpl. now rewrite Z.eqb_refl.
  - simpl. now rewrite String.eqb_refl.
  - rewrite isEqualIntersection_arrays.
    now rewrite (isEqual_refl (JArr l) Hc).
  - cbn [clean] in Hc. apply andb_prop in Hc as [Hd Hall].
    apply isEqualIntersection_members; [reflexivity|].
    intros k x Hin. exists (Data x). split.
    + now apply get_object, own_distinct.
    + apply (proj1 (Forall_forall _ _) IH (k, x) Hin).
      exact (proj1 (forallb_forall _ _) Hall (k, x) Hin).
Qed.

(** The matcher looks at the candidate only under the criterion's names. *)
Lemma isEqualIntersection_agree (f g g' : list (string * value)) :
  (forall k, In k (map fst f) -> own g k = own g' k) ->
  isEqualIntersection (JObj f) (JObj g) = isEqualIntersection (JObj f) (JObj g').
Proof.
  induction f as [| [k x] f IH]; intros H; [reflexivity|].
  rewrite !isEqualIntersection_object_cons by reflexivity.
  cbn [get]. unfold member. rewrite (H k (or_introl eq_refl)).
  rewrite IH; [reflexivity|].
  intros k' Hk'. apply H. now right.
Qed.

Lemma findEntry_loop_thrower (entry : value)
  (cursor : list (IDB.key * value)) (e : exn) :
  outcome (findEntry_loop entry cursor) = Throw e ->
  exists r, In r cursor /\ isEqualIntersection entry (snd r) = Throw e.
Proof.
  induction cursor as [| y l IH]; [discriminate|].
  rewrite findEntry_loop_cons.
  destruct (isEqualIntersection entry (snd y)) as [[|]|e'|] eqn:Ey;
    cbn [bind].
  - discriminate.
  - intros H. destruct (IH H) as (r & Hr & Hx). exists r. split; [now right|].
    exact Hx.
  - intros [= <-]. exists y. split; [now left | exact Ey].
  - discriminate.
Qed.

(** The loop of [findEntry] finds a record when the matcher returns on
    every candidate and answers [true] on the last. *)
Lemma findEntry_loop_last (entry : value) (pre : list (IDB.key * value))
  (x : IDB.key * value) :
  Forall (fun y : IDB.key * value =>
            exists b, isEqualIntersection entry (snd y) = Return b)
    pre ->
  isEqualIntersection entry (snd x) = Return true ->
  exists r,
    outcome (findEntry_loop entry (pre ++ [x])) = Return (Some r) /\
    isEqualIntersection entry (data r) = Return true.
Proof.
  intros Hpre Hx. induction Hpre as [| y pre [b Hy] _ IH]; cbn [app];
    rewrite findEntry_loop_cons.
  - rewrite Hx. cbn [bind]. eauto.
  - rewrite Hy. cbn [bind]. destruct b; [|exact IH].
    exists (with_key y). split; [reflexivity | exact Hy].
Qed.

End MatchMore.

Import MatchMore.
Local Open Scope js_scope.

(** X15.  The matcher is reflexive on clean values: a value whose objects
    have distinct member names and that holds neither [null] nor [NaN]
    outside its arrays partially matches itself.  [NaN] does not match
    itself. *)
Theorem isEqualIntersection_reflexive (v : value) :
  (clean v = true -> isEqualIntersection v v = Return true) /\
  isEqualIntersection (JNum NaN) (JNum NaN) = Return false.
Proof.
  split; [apply isEqualIntersection_refl | reflexivity].
Qed.

Lemma isEqualIntersection_reflexive_witness :
  isEqualIntersection (JObj (entry_of "x" "en" 1)) (JObj (entry_of "x" "en" 1))
  = Return true.
Proof.
  apply (proj1 (isEqualIntersection_reflexive (JObj (entry_of "x" "en" 1)))).
  reflexivity.
Defined.

(** X16.  The matcher looks at a candidate object only under the names of
    the criteria: two candidate objects that hold the same under every
    member name of the criteria object give the same result, whatever other
    members they have and in whatever order. *)
Theorem isEqualIntersection_ignores_unnamed (f g g' : list (string * value)) :
  (forall k, In k (map fst f) -> own g k = own g' k) ->
  isEqualIntersection (JObj f) (JObj g) = isEqualIntersection (JObj f) (JObj g').
Proof. apply isEqualIntersection_agree. Qed.

Lemma isEqualIntersection_ignores_unnamed_witness :
  isEqualIntersection (JObj [("a", num 1)]) (JObj [("a", num 1)])
  = isEqualIntersection (JObj [("a", num 1)])
      (JObj [("b", JNull); ("a", num 1); ("c", JArr [])]).
Proof.
  apply (isEqualIntersection_ignores_unnamed
           [("a", num 1)] [("a", num 1)]
           [("b", JNull); ("a", num 1); ("c", JArr [])]).
  intros k [<-|[]]. reflexivity.
Defined.

(** X17.  The errors of [findEntry].  It raises a [DataError] exactly when
    the criteria's [originalText] is present, not [null] and not a valid
    key, whatever the store holds.  Whatever it raises is its own error, a
    [DataError], or a [TypeError] that the comparison with a record of the
    store raised; on a store without records it raises no [TypeError]. *)
Theorem findEntry_error_kinds (entry : value) (db : store) :
  (outcome (findEntry entry db) = Throw DataError <->
   criteria_originalText entry <> JUndefined /\
   criteria_originalText entry <> JNull /\
   to_key (criteria_originalText entry) = None) /\
  (forall e,
     outcome (findEntry entry db) = Throw e ->
     e = originalText_required \/ e = DataError \/
     (e = TypeError /\
      exists r, In r (records db) /\
                isEqualIntersection entry (snd r) = Throw TypeError)).
Proof.
  assert (Hdec : criteria_originalText entry = JUndefined \/
                 criteria_originalText entry <> JUndefined).
  { destruct (criteria_originalText entry);
      (now left) || (right; discriminate). }
  assert (Hkinds : forall e,
             outcome (findEntry entry db) = Throw e ->
             e = originalText_required \/
             (e = DataError /\
              index_cursor (criteria_originalText entry) db = Throw DataError) \/
             (e = TypeError /\
              exists r, In r (records db) /\
                        isEqualIntersection entry (snd r) = Throw TypeError)).
  { intros e H. destruct Hdec as [Ha|Hp].
    - rewrite (findEntry_absent _ _ Ha) in H. left. congruence.
    - rewrite (findEntry_present _ _ Hp) in H.
      destruct (index_cursor (criteria_originalText entry) db)
        as [cursor|e'|] eqn:Ec.
      + rewrite bind_return in H.
        destruct (findEntry_loop_thrower _ _ _ H) as (r & Hr & Hx).
        pose proof (isEqualIntersection_throws _ _ _ Hx) as ->.
        right. right. split; [reflexivity|].
        exists r. split; [|exact Hx].
        exact (index_cursor_records _ _ _ _ Ec Hr).
      + simpl in H. injection H as <-.
        pose proof (index_cursor_throws _ _ _ Ec) as ->. auto.
      + discriminate. }
  split.
  - split.
    + intros H.
      destruct (Hkinds _ H) as [E|[[_ Ec]|[E _]]]; try discriminate.
      unfold index_cursor, valid_key in Ec.
      destruct (criteria_originalText entry); try discriminate;
        (destruct (to_key _) eqn:Ek; [discriminate|]);
        repeat split; discriminate || exact Ek.
    + intros (Hu & Hn & Hk). rewrite (findEntry_present _ _ Hu).
      unfold index_cursor, valid_key. rewrite Hk.
      destruct (criteria_originalText entry); try reflexivity; contradiction.
  - intros e H. destruct (Hkinds _ H) as [E|[[E _]|E]]; auto.
Qed.

Lemma findEntry_error_kinds_witness :
  outcome
    (findEntry (JObj [("translation", JObj [("originalText", JNum NaN)])])
       sample)
  = Throw DataError.
Proof.
  apply (proj1 (findEntry_error_kinds
                  (JObj [("translation", JObj [("originalText", JNum NaN)])])
                  sample)).
  repeat split; discriminate || reflexivity.
Defined.

(** X18.  [findEntry] and [getEntry] agree: on a store of generated keys,
    the [{key, data}] that [findEntry] returns is the record
    [getEntry(key)] returns, and the criteria matches it. *)
Theorem findEntry_getEntry (entry : value) (db : store)
  (r : ITranslationEntryWithKey) :
  store_ok db ->
  outcome (findEntry entry db) = Return (Some r) ->
  getEntry (of_key (key r)) db = Return (data r) /\
  isEqualIntersection entry (data r) = Return true.
Proof.
  intros Hok H. destruct (findEntry_record _ _ _ H) as [Hin Hx].
  split; [|exact Hx].
  unfold getEntry. rewrite to_key_of_key.
  now rewrite (lookup_record db _ _ Hok Hin).
Qed.

Lemma findEntry_getEntry_witness :
  getEntry (num 2) sample
  = Return (JObj (entry_of "x" "fr" 2 ++ [("id", num 2)])).
Proof.
  assert (H : store_ok sample) by (vm_compute; intuition lia).
  exact (proj1 (findEntry_getEntry
                  (JObj [("translation", translation_of "x" "fr")]) sample
                  {| key := KNum 2;
                     data := JObj (entry_of "x" "fr" 2 ++ [("id", num 2)]) |}
                  H eq_refl)).
Defined.

(** X19.  An entry that was added is found by its own content.  On a store
    of generated keys whose generator has not passed [2 ^ 53] and whose
    entries have the declared shape, after [addEntry(e)] of a clean entry
    [e] of that shape, without [id], without members named [__proto__] and
    with a string as [translation.originalText], [findEntry(e)] raises
    nothing and returns a record that [e] matches. *)
Theorem addEntry_findEntry (e : list (string * value)) (db : store)
  (s : string) :
  store_ok db ->
  generator db <= generator_limit ->
  Forall (fun r => entry_shape (snd r) = true) (records db) ->
  entry_shape (JObj e) = true ->
  clean (JObj e) = true ->
  ordinary (JObj e) = true ->
  own e "id" = None ->
  criteria_originalText (JObj e) = JStr s ->
  exists r,
    outcome (findEntry (JObj e) (snd (addEntry e db))) = Return (Some r) /\
    isEqualIntersection (JObj e) (data r) = Return true.
Proof.
  intros Hok Hlim Hdb Hshape Hclean Hord He Hs.
  set (k := KNum (generator db)).
  set (stored := JObj (e ++ [("id", of_key k)])).
  assert (Hrec : records (snd (addEntry e db))
                 = (records db ++ [(k, stored)])%list)
    by now rewrite (addEntry_generated _ _ Hok He Hlim).
  assert (Htr : exists tf, own e "translation" = Some (JObj tf) /\
                           own tf "originalText" = Some (JStr s)).
  { unfold criteria_originalText in Hs. cbn [get_opt get] in Hs.
    unfold member in Hs.
    destruct (own e "translation") as [t|] eqn:Et; [|discriminate].
    pose proof (own_forallb _ e _ _ Hshape Et) as Ht. cbn [fst snd] in Ht.
    rewrite String.eqb_refl in Ht.
    destruct t as [| | | | | | tf]; try discriminate.
    exists tf. split; [reflexivity|]. cbn [bind get_opt get] in Hs.
    unfold member in Hs.
    destruct (own tf "originalText"); [congruence | discriminate]. }
  destruct Htr as (tf & Et & Eo).
  assert (Hnew : has_index_key (KStr s) (k, stored) = true).
  { unfold has_index_key, index_key, extract, index_path, stored.
    cbn [snd eval_path path_step]. rewrite own_app, Et.
    cbn [eval_path path_step]. rewrite Eo. cbn [eval_path to_key].
    apply eqb_refl. }
  assert (Hmatch : isEqualIntersection (JObj e) stored = Return true).
  { unfold stored.
    rewrite (isEqualIntersection_agree e (e ++ [("id", of_key k)]) e).
    - now apply isEqualIntersection_refl.
    - intros name Hname. rewrite own_app.
      destruct (own e name) eqn:En; [reflexivity|].
      apply in_map_iff in Hname as ([n x] & <- & Hin). cbn [fst] in En.
      cbn [clean] in Hclean. apply andb_prop in Hclean as [Hd _].
      rewrite (own_distinct _ _ _ Hd Hin) in En. discriminate. }
  rewrite (findEntry_key (JObj e) _ (KStr s)) by (now rewrite Hs).
  unfold candidates. rewrite Hrec, filter_app. cbn [filter]. rewrite Hnew.
  apply findEntry_loop_last; [|exact Hmatch].
  apply Forall_forall. intros r Hr. apply filter_In in Hr as [Hr Hi].
  unfold has_index_key in Hi.
  destruct (index_key (snd r)) as [q|] eqn:Eq; [|discriminate].
  destruct (indexed_translation _ _ Eq) as (rf & tf' & Hv & Htr').
  pose proof (proj1 (Forall_forall _ _) Hdb r Hr) as Hrs. cbn beta in Hrs.
  rewrite Hv in Hrs |- *.
  exact (isEqualIntersection_entries e rf tf' Hshape Hord Hrs Htr').
Qed.

Lemma addEntry_findEntry_witness :
  exists r,
    outcome (findEntry (JObj (entry_of "z" "de" 4))
               (snd (addEntry (entry_of "z" "de" 4) sample)))
    = Return (Some r) /\
    isEqualIntersection (JObj (entry_of "z" "de" 4)) (data r) = Return true.
Proof.
  apply (addEntry_findEntry (entry_of "z" "de" 4) sample "z");
    try reflexivity.
  - vm_compute. intuition lia.
  - vm_compute. discriminate.
  - repeat constructor.
Defined.

(** ** Compositions *)

Module ComposeFacts.
Import JS IDB Matcher Data Shape Lifetime MatcherFacts StoreFacts FindFacts
  DeleteFacts LifeFacts DeleteMore MatchMore.
Local Open Scope js_scope.

(** What it takes for an object criterion to match. *)
Lemma isEqualIntersection_members_inv (f : list (string * value))
  (obj2 : found) :
  isEqualIntersection (JObj f) obj2 = Return true ->
  isArray obj2 = false /\
  forall k x, In (k, x) f ->
    exists y, get obj2 k = Return y /\
              isEqualIntersection x y = Return true.
Proof.
  intros H.
  assert (Ha : isArray obj2 = false).
  { destruct obj2 as [[]| |[]]; try reflexivity; discriminate. }
  split; [exact Ha|].
  induction f as [| [k x] f IH]; [intros ? ? []|].
  rewrite isEqualIntersection_object_cons in H by exact Ha.
  destruct (get obj2 k) as [y|e|] eqn:Eg; [|discriminate|discriminate].
  rewrite bind_return in H.
  destruct (isEqualIntersection x y) as [[|]|e|] eqn:Ex; try discriminate.
  rewrite bind_return in H.
  intros k' x' [Hin|Hin].
  - injection Hin as <- <-. eauto.
  - now apply IH.
Qed.

(** A record is found under the key it was placed at. *)
Lemma lookup_place (k : IDB.key) (v : value) (recs : list (IDB.key * value)) :
  lookup k (place k v recs) = Some v.
Proof.
  induction recs as [| [k' v'] recs IH]; cbn [place lookup].
  - now rewrite eqb_refl.
  - destruct (compare k k') eqn:E; cbn [lookup]; rewrite ?eqb_refl;
      try reflexivity.
    rewrite eqb_neq; [exact IH|].
    intros ->. rewrite compare_refl in E. discriminate.
Qed.

Lemma extract_own_id (e : list (string * value)) (x : value) (k : IDB.key) :
  own e "id" = Some x -> to_key x = Some k ->
  extract keyPath (JObj e) = Key k.
Proof.
  intros He Hk. unfold extract, keyPath. cbn [eval_path path_step].
  rewrite He. destruct x; try discriminate; cbn [eval_path]; now rewrite Hk.
Qed.

End ComposeFacts.

Import ComposeFacts.

(** X20.  After a bulk deletion the lookup finds nothing.  On a store of
    generated keys whose entries have the declared shape, after
    [deleteEntries(t)] for a flat criteria [t] with distinct member names,
    none of them [__proto__], and a string as [originalText],
    [findEntry({translation: t})] returns [null]. *)
Theorem deleteEntries_findEntry (cf : list (string * value)) (s : string)
  (db : store) :
  store_ok db ->
  Forall (fun r => entry_shape (snd r) = true) (records db) ->
  flat_object (JObj cf) = true ->
  distinct (map fst cf) = true ->
  own cf "__proto__" = None ->
  own cf "originalText" = Some (JStr s) ->
  outcome (findEntry (JObj [("translation", JObj cf)])
             (snd (deleteEntries (JObj cf) db)))
  = Return None.
Proof.
  intros Hok Hdb Hflat Hd Hproto Hs.
  assert (Ho : get (JObj cf) "originalText" = Return (Data (JStr s)))
    by now apply get_object.
  rewrite (deleteEntries_reliable _ _ _ _ Ho eq_refl).
  rewrite (without_qualifying (JObj cf) (JStr s) db _ Hok eq_refl).
  cbn [snd].
  rewrite (findEntry_key _ _ (KStr s))
    by (unfold criteria_originalText; cbn [get_opt get member own String.eqb];
        simpl; unfold member; now rewrite Hs).
  apply findEntry_loop_none. apply Forall_forall. intros r Hr.
  unfold candidates in Hr. cbn [records] in Hr.
  apply filter_In in Hr as [Hr Hi]. apply filter_In in Hr as [Hr Hkept].
  cbn [in_range valid_key to_key] in Hkept. rewrite Hi in Hkept.
  cbn [andb] in Hkept. apply negb_true_iff in Hkept.
  unfold has_index_key in Hi.
  destruct (index_key (snd r)) as [q|] eqn:Eq; [|discriminate].
  destruct (indexed_translation _ _ Eq) as (rf & tf & Hv & Htr).
  pose proof (proj1 (Forall_forall _ _) Hdb r Hr) as Hrs. cbn beta in Hrs.
  unfold rejects. unfold passes in Hkept. rewrite Hv in *.
  rewrite (deleteEntries_test_shallow cf tf (JObj rf) Hd
             (get_object _ _ _ Htr)) in Hkept.
  assert (Htf : forallb (fun kv => scalar (snd kv)) tf = true).
  { cbn [entry_shape] in Hrs.
    exact (own_forallb _ rf _ _ Hrs Htr). }
  rewrite isEqualIntersection_object_cons by reflexivity.
  rewrite (get_object _ _ _ Htr), bind_return.
  rewrite isEqualIntersection_flat.
  - rewrite bind_return.
    destruct (forallb (fun kv => strict_equals (snd kv) (member tf (fst kv)))
                cf); [discriminate | reflexivity].
  - cbn [flat_object] in Hflat. apply forallb_forall. intros [k2 x2] Hin.
    pose proof (proj1 (forallb_forall _ _) Hflat _ Hin) as Hx.
    cbn [fst snd] in Hx |- *. rewrite Hx. cbn [andb].
    apply member_not_object; [exact Htf|].
    destruct (String.eqb k2 "__proto__") eqn:E; [|reflexivity].
    apply String.eqb_eq in E. subst k2.
    rewrite (own_distinct _ _ _ Hd Hin) in Hproto. discriminate.
Qed.

Lemma deleteEntries_findEntry_witness :
  outcome (findEntry (JObj [("translation", translation_of "x" "en")])
             (snd (deleteEntries (translation_of "x" "en") sample)))
  = Return None.
Proof.
  apply (deleteEntries_findEntry
           [("originalText", JStr "x"); ("lang", JStr "en")] "x" sample);
    try reflexivity.
  - vm_compute. intuition lia.
  - repeat constructor.
Defined.

(** X21.  An entry that carries a valid key as [id] is stored as it is:
    when no record has that key, [addEntry] returns the key, [getEntry] of
    it returns the entry unchanged, and the key generator does not go back
    and moves past a number key that is at most [2 ^ 53], so that no later
    generated key meets it.  When a record has that key, [addEntry] raises a
    [ConstraintError], and when [id] holds a value other than [undefined]
    that is no valid key it raises a [DataError]; in both cases the store is
    left as it was. *)
Theorem addEntry_with_id (e : list (string * value)) (x : value)
  (db : store) :
  own e "id" = Some x ->
  (forall k,
     to_key x = Some k ->
     lookup k (records db) = None ->
     fst (addEntry e db) = Return k /\
     getEntry (of_key k) (snd (addEntry e db)) = Return (JObj e) /\
     (forall z, k = KNum z -> z <= generator_limit ->
                z < generator (snd (addEntry e db))) /\
     generator db <= generator (snd (addEntry e db))) /\
  (forall k v,
     to_key x = Some k ->
     lookup k (records db) = Some v ->
     addEntry e db = (Throw ConstraintError, db)) /\
  (x <> JUndefined -> to_key x = None ->
   addEntry e db = (Throw DataError, db)).
Proof.
  intros He. split; [|split].
  - intros k Hk Hfree. unfold addEntry, getEntry.
    rewrite (extract_own_id e x k He Hk), Hfree, to_key_of_key.
    cbn [fst snd records generator]. rewrite lookup_place.
    repeat split.
    + intros z -> Hz. cbn [update_generator].
      rewrite Z.min_l by exact Hz.
      destruct (generator db <=? z) eqn:E; [lia|].
      now apply Z.leb_gt in E.
    + destruct k as [z| |]; cbn [update_generator]; try lia.
      destruct (generator db <=? Z.min z generator_limit) eqn:E; [|lia].
      apply Z.leb_le in E. lia.
  - intros k v Hk Hused. unfold addEntry.
    now rewrite (extract_own_id e x k He Hk), Hused.
  - intros Hu Hk. unfold addEntry, extract, keyPath.
    cbn [eval_path path_step]. rewrite He.
    destruct x; try contradiction; cbn [eval_path]; now rewrite Hk.
Qed.

Lemma addEntry_with_id_witness :
  getEntry (num 9) (snd (addEntry [("id", num 9); ("timestamp", num 0)] sample))
  = Return (JObj [("id", num 9); ("timestamp", num 0)]) /\
  addEntry [("id", JBool true)] sample = (Throw DataError, sample).
Proof.
  split.
  - exact (proj1 (proj2 (proj1 (addEntry_with_id
             [("id", num 9); ("timestamp", num 0)] (num 9) sample eq_refl)
             (KNum 9) eq_refl eq_refl))).
  - apply (proj2 (proj2 (addEntry_with_id [("id", JBool true)] (JBool true)
                           sample eq_refl))); [discriminate | reflexivity].
Defined.

(** X22.  Weakening the criteria keeps the match: when an object criteria
    matches a candidate, so does every object criteria made of some of its
    members, in any order. *)
Theorem isEqualIntersection_weaken (f f' : list (string * value))
  (obj2 : value) :
  isEqualIntersection (JObj f) obj2 = Return true ->
  incl f' f ->
  isEqualIntersection (JObj f') obj2 = Return true.
Proof.
  intros H Hincl.
  destruct (isEqualIntersection_members_inv _ _ H) as [Ha Hmem].
  apply isEqualIntersection_members; [exact Ha|].
  intros k x Hin. apply Hmem. now apply Hincl.
Qed.

Lemma isEqualIntersection_weaken_witness :
  isEqualIntersection (JObj [("lang", JStr "en")]) (translation_of "x" "en")
  = Return true.
Proof.
  apply (isEqualIntersection_weaken
           [("originalText", JStr "x"); ("lang", JStr "en")]
           [("lang", JStr "en")] (translation_of "x" "en")).
  - reflexivity.
  - intros kv [<-|[]]. right. now left.
Defined.
